(** * httprunner/parser.py: template parser and variable resolver

    A shallow embedding of the template language of [httprunner/parser.py]
    ([$var] and [${func(args)}] fragments inside strings), of the lazy values
    built from it ([LazyString], [LazyFunction]), of their evaluation against
    a variables mapping, of the variable resolver [parse_variables_mapping],
    of the validator normaliser [parse_validator] and of the function
    registry [get_mapping_function].

    Conventions of the embedding.
    - Python 3 semantics.  A character of the model is a code point below
      256 (the type [ascii] read as Latin-1); text with other code points
      is outside the model.  [\w], [\s] and [str.strip] are those of a
      [str] pattern and a [str] value: [\w] takes the letters and digits
      above 127 as well ([str.isalnum]), [\s] and [str.strip] take every
      character for which [str.isspace] holds (9-13, 28-32, 133, 160).
    - A Python function returns [Ok v] when it returns [v] and [Raise e]
      when it leaves with the exception [e].
    - What belongs to the Python runtime and to modules outside
      [parser.py] ([ast.literal_eval], [repr], [str], [eval], key equality
      of [dict], the loader's table of built-in helpers, the behaviour of the
      registered callables) is a field of the record [Host]. *)

From Stdlib Require Import String Ascii List ZArith Lia Bool Arith.
From stdpp Require Import gmap strings.
Import ListNotations.

Local Open Scope string_scope.
Local Open Scope list_scope.

(** ** Characters and strings *)

Module Str.

Definition in_range (lo hi : nat) (c : ascii) : bool :=
  let n := nat_of_ascii c in (lo <=? n)%nat && (n <=? hi)%nat.

(** [\w] in a [str] pattern: the underscore and the characters for which
    [str.isalnum] holds; below 256 these are the ASCII letters and digits
    and the code points 170, 178-179, 181, 185-186, 188-190, 192-214,
    216-246 and 248-255. *)
Definition is_word (c : ascii) : bool :=
  in_range 48 57 c || in_range 65 90 c || in_range 97 122 c || Ascii.eqb c "_"
  || in_range 170 170 c || in_range 178 179 c || in_range 181 181 c
  || in_range 185 186 c || in_range 188 190 c || in_range 192 214 c
  || in_range 216 246 c || in_range 248 255 c.

(** [\s] in a [str] pattern, and the characters removed by
    [str.strip()]: those for which [str.isspace] holds. *)
Definition is_space (c : ascii) : bool :=
  in_range 9 13 c || in_range 28 32 c || in_range 133 133 c
  || in_range 160 160 c.

(** The character class of the argument text in the function pattern. *)
Definition is_argchar (c : ascii) : bool :=
  Ascii.eqb c "$" || is_word c || Ascii.eqb c "." || Ascii.eqb c "-"
  || Ascii.eqb c "/" || is_space c || Ascii.eqb c "=" || Ascii.eqb c ",".

Fixpoint take_while (p : ascii -> bool) (s : string) : string :=
  match s with
  | String c t => if p c then String c (take_while p t) else ""
  | "" => ""
  end.

Fixpoint drop_while (p : ascii -> bool) (s : string) : string :=
  match s with
  | String c t => if p c then drop_while p t else s
  | "" => ""
  end.

(** [s.rstrip()]: a character is dropped when it is white space and
    nothing is left of what follows it. *)
Fixpoint rstrip (s : string) : string :=
  match s with
  | String c t =>
      let t' := rstrip t in
      if is_space c && String.eqb t' "" then "" else String c t'
  | "" => ""
  end.

(** [s.strip()] *)
Definition strip (s : string) : string :=
  rstrip (drop_while is_space s).

(** Every character of [s] satisfies [p]. *)
Fixpoint all_chars (p : ascii -> bool) (s : string) : bool :=
  match s with
  | String c t => p c && all_chars p t
  | "" => true
  end.

Fixpoint starts_with (p s : string) : bool :=
  match p, s with
  | "", _ => true
  | String a p', String b s' => Ascii.eqb a b && starts_with p' s'
  | String _ _, "" => false
  end.

Fixpoint drop (n : nat) (s : string) : string :=
  match n, s with
  | O, _ => s
  | S k, String _ t => drop k t
  | S _, "" => ""
  end.

(** Lowest offset at which [sub] occurs in [s]. *)
Fixpoint find (sub s : string) : option nat :=
  if starts_with sub s then Some O
  else match s with
       | String _ t => option_map S (find sub t)
       | "" => None
       end.

(** [s.index(sub, start)]: the lowest index at or after [start] where [sub]
    occurs; [None] stands for the [ValueError] of a missing substring. *)
Definition index (s sub : string) (start : nat) : option nat :=
  if (start <=? String.length s)%nat
  then option_map (Nat.add start) (find sub (drop start s))
  else None.

(** [s.replace(old, new, 1)] for a non-empty [old]. *)
Fixpoint replace_first (s old new : string) : string :=
  if starts_with old s then (new ++ drop (String.length old) s)%string
  else match s with
       | String c t => String c (replace_first t old new)
       | "" => ""
       end.

(** [sep in s] for a one-character [sep]. *)
Fixpoint contains (sep : ascii) (s : string) : bool :=
  match s with
  | String c t => Ascii.eqb c sep || contains sep t
  | "" => false
  end.

(** [s.split(sep)] for a one-character [sep]: the pieces between the
    separators, always at least one piece. *)
Fixpoint split (sep : ascii) (s : string) : list string :=
  match s with
  | "" => [""]
  | String c t =>
      if Ascii.eqb c sep then "" :: split sep t
      else match split sep t with
           | p :: ps => String c p :: ps
           | [] => [String c ""]
           end
  end.

End Str.

(** ** The two patterns

    [variable_regex_compile] is a dollar sign followed by one or more word
    characters, the word being captured.  [function_regex_compile] is a
    dollar sign, an opening brace, a captured word (the function name), an
    opening parenthesis, a captured run (possibly empty) of characters among
    dollar, word characters, dot, hyphen, slash, white space, equals sign and
    comma (the argument text), a closing parenthesis and a closing brace.
    A matcher answers, for the text starting at the current position, the
    captured groups and the length of the match.  Both patterns are
    deterministic: [\w+] is followed by a character outside [\w] and the
    argument class is followed by [)], which is outside the class, so the
    greedy match is the only one. *)

Module Re.

(** The variable pattern anchored at the start of [s]. *)
Definition match_variable (s : string) : option (string * nat) :=
  match s with
  | String "$" t =>
      let w := Str.take_while Str.is_word t in
      if String.eqb w "" then None else Some (w, S (String.length w))
  | _ => None
  end.

(** The function pattern anchored at the start of [s]. *)
Definition match_function (s : string) : option ((string * string) * nat) :=
  match s with
  | String "$" (String "{" t) =>
      let name := Str.take_while Str.is_word t in
      if String.eqb name "" then None
      else match Str.drop_while Str.is_word t with
           | String "(" t1 =>
               let args := Str.take_while Str.is_argchar t1 in
               match Str.drop_while Str.is_argchar t1 with
               | String ")" (String "}" _) =>
                   Some ((name, args),
                         (String.length name + String.length args + 5)%nat)
               | _ => None
               end
           | _ => None
           end
  | _ => None
  end.

(** [pattern.findall(s)]: the matches from left to right, the scan resuming
    after the end of each match ([skip] counts the characters of the current
    match still to be passed over). *)
Fixpoint scan {A : Type} (m : string -> option (A * nat)) (skip : nat)
    (s : string) : list A :=
  match skip with
  | S k => match s with
           | String _ t => scan m k t
           | "" => []
           end
  | O => match m s with
         | Some (a, len) =>
             a :: match s with
                  | String _ t => scan m (Nat.pred len) t
                  | "" => []
                  end
         | None => match s with
                   | String _ t => scan m O t
                   | "" => []
                   end
         end
  end.

Definition findall {A : Type} (m : string -> option (A * nat)) (s : string)
    : list A := scan m O s.

(** [pattern.search(s)] used as a truth value. *)
Definition search {A : Type} (m : string -> option (A * nat)) (s : string)
    : bool :=
  match findall m s with [] => false | _ :: _ => true end.

End Re.

Definition regex_findall_variables (content : string) : list string :=
  Re.findall Re.match_variable content.

Definition regex_findall_functions (content : string)
    : list (string * string) :=
  Re.findall Re.match_function content.

Definition is_variable_exist (content : string) : bool :=
  Re.search Re.match_variable content.

Definition is_function_exist (content : string) : bool :=
  Re.search Re.match_function content.

(** ** Values

    The values the parser handles, as one tagged type.  A [LazyString] and a
    [LazyFunction] carry the fields their constructors set in
    [parser.py]; the [_args] of a [LazyString] are its slots, each a
    variable name or a [LazyFunction]. *)

Inductive SeqKind := KList | KTuple | KSet.

(** A callable object: its [__name__] and its identity. *)
Record FnObj := mkFn { fn_name : string; fn_id : nat }.

#[global] Instance FnObj_eq_dec : EqDecision FnObj.
Proof. solve_decision. Defined.

(** [(self._func.__name__, repr(args), repr(kwargs))] *)
Definition CacheKey : Type := string * string * string.

Unset Elimination Schemes.
Inductive Value :=
| VNone
| VBool (b : bool)
| VInt (n : Z)
| VFloat (repr : string)
| VType (name : string)
| VStr (s : string)
| VSeq (kind : SeqKind) (items : list Value)
| VDict (items : list (Value * Value))
| VLazyString (ls : LazyString)
| VOther (id : nat)
with LazyString :=
| mkLazyString (raw_string : string)
               (functions_mapping : gmap string FnObj)
               (check_variables_set : gset string)
               (cached : bool)
               (_string : string)
               (_args : list Slot)
with Slot :=
| SVar (var_name : string)
| SFunc (lazy_func : LazyFunction)
with LazyFunction :=
| mkLazyFunction (functions_mapping : gmap string FnObj)
                 (check_variables_set : gset string)
                 (cache_key : option CacheKey)
                 (_func : FnObj)
                 (_args : list Value)
                 (_kwargs : list (Value * Value)).
Set Elimination Schemes.

Definition ls_raw_string (self : LazyString) : string :=
  match self with mkLazyString r _ _ _ _ _ => r end.
Definition ls_functions_mapping (self : LazyString) : gmap string FnObj :=
  match self with mkLazyString _ f _ _ _ _ => f end.
Definition ls_check_variables_set (self : LazyString) : gset string :=
  match self with mkLazyString _ _ k _ _ _ => k end.
Definition ls_cached (self : LazyString) : bool :=
  match self with mkLazyString _ _ _ c _ _ => c end.
Definition ls_string (self : LazyString) : string :=
  match self with mkLazyString _ _ _ _ s _ => s end.
Definition ls_args (self : LazyString) : list Slot :=
  match self with mkLazyString _ _ _ _ _ a => a end.

Definition lf_functions_mapping (self : LazyFunction) : gmap string FnObj :=
  match self with mkLazyFunction f _ _ _ _ _ => f end.
Definition lf_check_variables_set (self : LazyFunction) : gset string :=
  match self with mkLazyFunction _ k _ _ _ _ => k end.
Definition lf_cache_key (self : LazyFunction) : option CacheKey :=
  match self with mkLazyFunction _ _ c _ _ _ => c end.
Definition lf_func (self : LazyFunction) : FnObj :=
  match self with mkLazyFunction _ _ _ f _ _ => f end.
Definition lf_args (self : LazyFunction) : list Value :=
  match self with mkLazyFunction _ _ _ _ a _ => a end.
Definition lf_kwargs (self : LazyFunction) : list (Value * Value) :=
  match self with mkLazyFunction _ _ _ _ _ k => k end.

(** What [eval] or a registry lookup may produce: a callable or any other
    object. *)
Inductive PyObj :=
| ObjFn (f : FnObj)
| ObjValue (v : Value).

Definition callable (o : PyObj) : bool :=
  match o with ObjFn _ => true | ObjValue _ => false end.

(** ** Exceptions and results *)

(** The text of an exception: a literal, or a template with one [{}] and
    the value formatted into it. *)
Inductive message :=
| Msg (text : string)
| MsgFormat (template : string) (arg : Value).

Inductive exn :=
| ParamsError (m : message)
| VariableNotFound (m : string)
| FunctionNotFound (m : string)
| ValueError (m : string)
| TypeError (m : string)
| KeyError (m : string)
| IndexError (m : string)
| AttributeError (m : string)
| NameError (m : string)
| SyntaxError (m : string)
| RecursionError
| OtherError (m : string).

Inductive result (A : Type) :=
| Ok (a : A)
| Raise (e : exn).
Arguments Ok {A} a.
Arguments Raise {A} e.

Definition bind {A B : Type} (r : result A) (k : A -> result B) : result B :=
  match r with
  | Ok a => k a
  | Raise e => Raise e
  end.

Declare Scope py_scope.
Delimit Scope py_scope with py.
Notation "x <- r ;; k" := (bind r (fun x => k))
  (at level 100, r at next level, k at level 200, right associativity)
  : py_scope.
Local Open Scope py_scope.

Section MapM.
Context {A B : Type} (f : A -> result B).

(** A list comprehension whose body may raise. *)
Fixpoint mapM (l : list A) : result (list B) :=
  match l with
  | [] => Ok []
  | x :: t => y <- f x ;; ys <- mapM t ;; Ok (y :: ys)
  end.
End MapM.

(** ** The Python runtime *)

(** What [ast.literal_eval] can return for the text of a function argument:
    that text has no quote, bracket, brace or parenthesis, so the literal is
    a scalar. *)
Inductive Literal :=
| LNone
| LBool (b : bool)
| LInt (n : Z)
| LFloat (repr : string)
| LOther (id : nat).

Definition Value_of_Literal (l : Literal) : Value :=
  match l with
  | LNone => VNone
  | LBool b => VBool b
  | LInt n => VInt n
  | LFloat r => VFloat r
  | LOther i => VOther i
  end.

Record Host := mkHost {
  (** [ast.literal_eval]: the literal, or the exception it raises
      ([ValueError], [SyntaxError], or another one such as
      [RecursionError] or [MemoryError] on text that is nested too
      deep). *)
  literal_eval : string -> result Literal;
  (** A dollar sign is no Python token.  The text of a function argument
      has no quote and no hash sign, so a dollar sign in it stands neither
      in a string literal nor in a comment: no literal is returned. *)
  literal_eval_dollar :
    forall s,
      Str.all_chars Str.is_argchar s = true -> Str.contains "$" s = true ->
      exists e, literal_eval s = Raise e;
  py_repr : Value -> string;
  py_str : Value -> string;
  (** Equality of two hashable values as [dict] keys. *)
  key_eq : Value -> Value -> bool;
  (** [loader.load_builtin_functions()] *)
  builtin_functions : gmap string FnObj;
  (** [eval(name)] inside [get_mapping_function] *)
  py_eval : string -> result PyObj;
  (** Calling a registered callable with positional and keyword arguments. *)
  call : FnObj -> list Value -> list (string * Value) -> result Value
}.

(** Whether a value can be a [dict] key. *)
Fixpoint hashable (v : Value) : bool :=
  match v with
  | VSeq KTuple items => forallb hashable items
  | VSeq _ _ => false
  | VDict _ => false
  | _ => true
  end.

(** ** Argument parser and function registry *)

(** [ValueError] and [SyntaxError] are caught; any other exception of
    [ast.literal_eval] leaves the function. *)
Definition parse_string_value (H : Host) (str_value : string)
    : result Value :=
  match literal_eval H str_value with
  | Ok l => Ok (Value_of_Literal l)
  | Raise (ValueError _) | Raise (SyntaxError _) => Ok (VStr str_value)
  | Raise e => Raise e
  end.

(** [function_meta]: the positional arguments and the keyword arguments, a
    [dict] with [str] keys. *)
Record FunctionMeta := mkMeta {
  meta_args : list Value;
  meta_kwargs : list (string * Value)
}.

(** [d[k] = v] on a [dict] with [str] keys. *)
Fixpoint kwargs_set (d : list (string * Value)) (k : string) (v : Value)
    : list (string * Value) :=
  match d with
  | [] => [(k, v)]
  | (k', v') :: t =>
      if String.eqb k' k then (k', v) :: t else (k', v') :: kwargs_set t k v
  end.

Fixpoint parse_function_args (H : Host) (args_list : list string)
    (function_meta : FunctionMeta) : result FunctionMeta :=
  match args_list with
  | [] => Ok function_meta
  | arg :: rest =>
      let arg := Str.strip arg in
      if Str.contains "=" arg then
        match Str.split "=" arg with
        | [key; value] =>
            v <- parse_string_value H (Str.strip value) ;;
            parse_function_args H rest
              (mkMeta (meta_args function_meta)
                 (kwargs_set (meta_kwargs function_meta) (Str.strip key) v))
        | _ => Raise (ValueError "too many values to unpack (expected 2)")
        end
      else
        v <- parse_string_value H arg ;;
        parse_function_args H rest
          (mkMeta (meta_args function_meta ++ [v])
             (meta_kwargs function_meta))
  end.

Definition parse_function_params (H : Host) (params : string)
    : result FunctionMeta :=
  let params_str := Str.strip params in
  if String.eqb params_str "" then Ok (mkMeta [] [])
  else parse_function_args H (Str.split "," params_str) (mkMeta [] []).

(** [loader.load_csv_file] and [utils.get_os_environ], known to
    [parser.py] by their [__name__]. *)
Definition load_csv_file : FnObj := mkFn "load_csv_file" 0.
Definition get_os_environ : FnObj := mkFn "get_os_environ" 1.

Definition str_in (x : string) (l : list string) : bool :=
  existsb (String.eqb x) l.

(** The value is [ObjValue VNone] when the function falls off its end. *)
Definition get_mapping_function (H : Host) (function_name : string)
    (functions_mapping : gmap string FnObj) : result PyObj :=
  match functions_mapping !! function_name with
  | Some f => Ok (ObjFn f)
  | None =>
      if str_in function_name ["parameterize"; "P"] then
        Ok (ObjFn load_csv_file)
      else if str_in function_name ["environ"; "ENV"] then
        Ok (ObjFn get_os_environ)
      else
        match builtin_functions H !! function_name with
        | Some f => Ok (ObjFn f)
        | None =>
            match py_eval H function_name with
            | Ok item_func =>
                if callable item_func then Ok item_func
                else Ok (ObjValue VNone)
            | Raise (NameError _) | Raise (TypeError _) =>
                Raise (FunctionNotFound
                         (function_name ++ " is not found.")%string)
            | Raise e => Raise e
            end
        end
  end.

(** ** The Preparer *)

(** [args_mapping[k] = v] on the [dict] from start positions to slots. *)
Fixpoint args_mapping_set (d : list (nat * Slot)) (k : nat) (v : Slot)
    : list (nat * Slot) :=
  match d with
  | [] => [(k, v)]
  | (k', v') :: t =>
      if Nat.eqb k' k then (k', v) :: t
      else (k', v') :: args_mapping_set t k v
  end.

Fixpoint insert_sorted (k : nat) (l : list nat) : list nat :=
  match l with
  | [] => [k]
  | x :: t => if (k <=? x)%nat then k :: l else x :: insert_sorted k t
  end.

(** [sorted(keys)] *)
Definition sorted (keys : list nat) : list nat :=
  fold_right insert_sorted [] keys.

Fixpoint args_mapping_get (d : list (nat * Slot)) (k : nat) : option Slot :=
  match d with
  | [] => None
  | (k', v) :: t => if Nat.eqb k' k then Some v else args_mapping_get t k
  end.

(** [[args_mapping[key] for key in sorted(args_mapping.keys())]] *)
Definition sorted_slots (d : list (nat * Slot)) : list Slot :=
  omap (args_mapping_get d) (sorted (map fst d)).

Definition nonempty {A : Type} (l : list A) : bool :=
  match l with [] => false | _ :: _ => true end.

Section PrepareLevel.
Context (H : Host).
Context (functions_mapping : gmap string FnObj).
Context (check_variables_set : gset string).
(** [prepare_lazy_data] as [LazyFunction.__parse] calls it on the
    arguments: same registry, same known variables, [cached] left at its
    default. *)
Context (prepare_arg : Value -> result Value).

(** The [dict] branch of [prepare_lazy_data] for the prepared key and
    value of one item.  The prepared keys of distinct keys are distinct
    objects (an unchanged key, or a new [LazyString]), so every item adds
    an entry; a tuple key is prepared to a list, which cannot be a key. *)
Definition prepared_item (parsed_key parsed_value : Value)
    : result (Value * Value) :=
  if hashable parsed_key then Ok (parsed_key, parsed_value)
  else Raise (TypeError "unhashable type").

Definition prepare_arg_item (kv : Value * Value) : result (Value * Value) :=
  parsed_key <- prepare_arg (fst kv) ;;
  parsed_value <- prepare_arg (snd kv) ;;
  prepared_item parsed_key parsed_value.

(** [LazyFunction.__init__] and [LazyFunction.__parse]. *)
Definition LazyFunction_init (func_name : string)
    (function_meta : FunctionMeta) : result LazyFunction :=
  _func <- get_mapping_function H func_name functions_mapping ;;
  _args <- mapM prepare_arg (meta_args function_meta) ;;
  _kwargs <- mapM prepare_arg_item
               (map (fun kv => (VStr (fst kv), snd kv))
                    (meta_kwargs function_meta)) ;;
  match _func with
  | ObjValue _ => Raise (AttributeError "__name__")
  | ObjFn f =>
      if String.eqb (fn_name f) "load_csv_file" then
        match _args with
        | [a] =>
            if nonempty _kwargs
            then Raise (ParamsError
                          (Msg "P() should only pass in one argument!"))
            else Ok (mkLazyFunction functions_mapping check_variables_set
                       None f [a] _kwargs)
        | _ => Raise (ParamsError
                        (Msg "P() should only pass in one argument!"))
        end
      else if String.eqb (fn_name f) "get_os_environ" then
        match _args with
        | [a] =>
            if nonempty _kwargs
            then Raise (ParamsError
                          (Msg "ENV() should only pass in one argument!"))
            else Ok (mkLazyFunction functions_mapping check_variables_set
                       None f [a] _kwargs)
        | _ => Raise (ParamsError
                        (Msg "ENV() should only pass in one argument!"))
        end
      else Ok (mkLazyFunction functions_mapping check_variables_set None f
                 _args _kwargs)
  end.

(** The state of the two loops of [LazyString.__parse]: [self._string],
    [match_start_position] and [args_mapping]. *)
Record ParseState := mkParse {
  ps_string : string;
  ps_position : nat;
  ps_args_mapping : list (nat * Slot)
}.

(** The loop over [func_match_list].  [parse_function_params] is called
    twice on the same text in the source; it is pure, once is enough. *)
Fixpoint parse_functions (raw_string : string)
    (func_match_list : list (string * string)) (st : ParseState)
    : result ParseState :=
  match func_match_list with
  | [] => Ok st
  | func_match :: rest =>
      let func_str :=
        ("${" ++ fst func_match ++ "(" ++ snd func_match ++ ")}")%string in
      match Str.index raw_string func_str (ps_position st) with
      | None => Raise (ValueError "substring not found")
      | Some match_start_position =>
          let _string := Str.replace_first (ps_string st) func_str "{}" in
          function_meta <- parse_function_params H (snd func_match) ;;
          lazy_func <- LazyFunction_init (fst func_match) function_meta ;;
          parse_functions raw_string rest
            (mkParse _string match_start_position
               (args_mapping_set (ps_args_mapping st)
                  match_start_position (SFunc lazy_func)))
      end
  end.

(** The loop over [var_match_list]. *)
Fixpoint parse_variables (raw_string : string)
    (var_match_list : list string) (st : ParseState) : result ParseState :=
  match var_match_list with
  | [] => Ok st
  | var_name :: rest =>
      if bool_decide (var_name ∈ check_variables_set) then
        let var := ("$" ++ var_name)%string in
        match Str.index raw_string var (ps_position st) with
        | None => Raise (ValueError "substring not found")
        | Some match_start_position =>
            parse_variables raw_string rest
              (mkParse (Str.replace_first (ps_string st) var "{}")
                 match_start_position
                 (args_mapping_set (ps_args_mapping st)
                    match_start_position (SVar var_name)))
        end
      else Raise (VariableNotFound var_name)
  end.

(** [LazyString.__init__] and [LazyString.__parse]. *)
Definition LazyString_init (raw_string : string) (cached : bool)
    : result Value :=
  st1 <- parse_functions raw_string (regex_findall_functions raw_string)
           (mkParse raw_string 0 []) ;;
  st2 <- parse_variables raw_string
           (regex_findall_variables (ps_string st1))
           (mkParse (ps_string st1) 0 (ps_args_mapping st1)) ;;
  Ok (VLazyString
        (mkLazyString raw_string functions_mapping check_variables_set
           cached (ps_string st2) (sorted_slots (ps_args_mapping st2)))).

(** The branches of [prepare_lazy_data], the recursion into the items of a
    container being structural. *)
Fixpoint prepare_level (cached : bool) (content : Value) {struct content}
    : result Value :=
  match content with
  | VNone | VInt _ | VFloat _ | VBool _ | VType _ => Ok content
  | VSeq _ items =>
      parsed <- mapM (prepare_level cached) items ;;
      Ok (VSeq KList parsed)
  | VDict items =>
      parsed <- mapM (fun kv =>
                        parsed_key <- prepare_level cached (fst kv) ;;
                        parsed_value <- prepare_level cached (snd kv) ;;
                        prepared_item parsed_key parsed_value) items ;;
      Ok (VDict parsed)
  | VStr s =>
      if negb (is_variable_exist s || is_function_exist s) then Ok content
      else LazyString_init (Str.strip s) cached
  | VLazyString _ | VOther _ => Ok content
  end.
End PrepareLevel.

(** The recursion of [prepare_lazy_data] through [LazyFunction.__parse]:
    each level of function arguments takes one unit of [fuel]. *)
Fixpoint prepare_lazy_data_fuel (fuel : nat) (H : Host) (content : Value)
    (functions_mapping : gmap string FnObj) (check_variables_set : gset string)
    (cached : bool) : result Value :=
  match fuel with
  | O => Raise RecursionError
  | S n =>
      prepare_level H functions_mapping check_variables_set
        (fun arg => prepare_lazy_data_fuel n H arg functions_mapping
                      check_variables_set false)
        cached content
  end.

(** The argument text of a function call has no brace, hence no function
    call of its own: preparing an argument never builds a [LazyFunction],
    and two levels are all the recursion there is (more fuel changes
    nothing, see [prepare_lazy_data_fuel_stable]). *)
Definition prepare_lazy_data (H : Host) (content : Value)
    (functions_mapping : gmap string FnObj) (check_variables_set : gset string)
    (cached : bool) : result Value :=
  prepare_lazy_data_fuel 2 H content functions_mapping check_variables_set
    cached.

(** ** The Evaluator

    [cached_functions_mapping] is a module-level [dict]: every function
    that may read or write it takes the cache and returns the new one.
    [LazyFunction.to_value] assigns [self.cache_key]: an evaluation also
    returns the object it was called on, as it is after the call.  A lazy
    value built by the Preparer is a tree (each [LazyFunction] is created for
    one slot), so returning the updated object loses no sharing.  When an
    exception leaves a function the state is not observed any more. *)

(** The keys are the values of [arg.cache_key]: [None] or a key tuple. *)
Abbreviation Cache := (gmap (option CacheKey) Value).
Abbreviation Variables := (gmap string Value).

(** The outcome of an evaluation: the value, the evaluated object after the
    call, the cache after the call. *)
Record Evaluated (V O : Type) := mkEvaluated {
  ev_value : V;
  ev_self : O;
  ev_cache : Cache
}.
Arguments mkEvaluated {V O} _ _ _.
Arguments ev_value {V O} _.
Arguments ev_self {V O} _.
Arguments ev_cache {V O} _.

Definition get_mapping_variable (variable_name : string)
    (variables_mapping : Variables) : result Value :=
  match variables_mapping !! variable_name with
  | Some v => Ok v
  | None => Raise (VariableNotFound (variable_name ++ " is not found.")%string)
  end.

(** [template.format( *args )] for templates whose replacement fields are
    all the bare [{}]; doubled braces are escapes.  A replacement field with
    a name, an index, a conversion or a format specification is outside the
    model and answers [OtherError]. *)
Fixpoint py_format (H : Host) (template : string) (args : list Value)
    : result string :=
  match template with
  | "" => Ok ""
  | String "{" (String "{" t) =>
      r <- py_format H t args ;; Ok (String "{" r)
  | String "{" (String "}" t) =>
      match args with
      | a :: rest =>
          r <- py_format H t rest ;; Ok (py_str H a ++ r)%string
      | [] => Raise (IndexError "Replacement index out of range")
      end
  | String "{" "" =>
      Raise (ValueError "Single '{' encountered in format string")
  | String "{" _ => Raise (OtherError "replacement field")
  | String "}" (String "}" t) =>
      r <- py_format H t args ;; Ok (String "}" r)
  | String "}" _ =>
      Raise (ValueError "Single '}' encountered in format string")
  | String c t => r <- py_format H t args ;; Ok (String c r)
  end.

(** [parsed_content[k] = v] on a [dict] with any hashable keys. *)
Fixpoint dict_set (H : Host) (d : list (Value * Value)) (k v : Value)
    : list (Value * Value) :=
  match d with
  | [] => [(k, v)]
  | (k', v') :: t =>
      if key_eq H k' k then (k', v) :: t else (k', v') :: dict_set H t k v
  end.

(** [**kwargs]: the keys must be [str]. *)
Fixpoint keywords (kwargs : list (Value * Value))
    : result (list (string * Value)) :=
  match kwargs with
  | [] => Ok []
  | (VStr k, v) :: t => r <- keywords t ;; Ok ((k, v) :: r)
  | _ :: _ => Raise (TypeError "keywords must be strings")
  end.

Section Evaluate.
Context (H : Host).
(** [parse_lazy_data], for the recursion of the two [to_value] methods. *)
Context (parse :
  Value -> Variables -> Cache -> result (Evaluated Value Value)).
Context (variables_mapping : Variables).

(** [[parse_lazy_data(item, variables_mapping) for item in content]] *)
Fixpoint parse_items (content : list Value) (cache : Cache)
    : result (Evaluated (list Value) (list Value)) :=
  match content with
  | [] => Ok (mkEvaluated [] [] cache)
  | item :: rest =>
      r <- parse item variables_mapping cache ;;
      rs <- parse_items rest (ev_cache r) ;;
      Ok (mkEvaluated (ev_value r :: ev_value rs)
            (ev_self r :: ev_self rs) (ev_cache rs))
  end.

(** The [dict] branch of [parse_lazy_data]: the loop over
    [content.items()], [parsed_content] being the [dict] built so far. *)
Fixpoint parse_dict_items (content parsed_content : list (Value * Value))
    (cache : Cache)
    : result (Evaluated (list (Value * Value)) (list (Value * Value))) :=
  match content with
  | [] => Ok (mkEvaluated parsed_content [] cache)
  | kv :: rest =>
      parsed_key <- parse (fst kv) variables_mapping cache ;;
      parsed_value <- parse (snd kv) variables_mapping
                        (ev_cache parsed_key) ;;
      if hashable (ev_value parsed_key) then
        rs <- parse_dict_items rest
                (dict_set H parsed_content (ev_value parsed_key)
                   (ev_value parsed_value))
                (ev_cache parsed_value) ;;
        Ok (mkEvaluated (ev_value rs)
              ((ev_self parsed_key, ev_self parsed_value) :: ev_self rs)
              (ev_cache rs))
      else Raise (TypeError "unhashable type")
  end.

(** [LazyFunction.__prepare_cache_key] *)
Definition prepare_cache_key (self : LazyFunction) (args : list Value)
    (kwargs : list (Value * Value)) : CacheKey :=
  (fn_name (lf_func self), py_repr H (VSeq KList args),
   py_repr H (VDict kwargs)).

(** [LazyFunction.to_value] *)
Definition LazyFunction_to_value (self : LazyFunction) (cache : Cache)
    : result (Evaluated Value LazyFunction) :=
  args <- parse_items (lf_args self) cache ;;
  kwargs <- parse_dict_items (lf_kwargs self) [] (ev_cache args) ;;
  let cache_key := prepare_cache_key self (ev_value args) (ev_value kwargs) in
  kw <- keywords (ev_value kwargs) ;;
  value <- call H (lf_func self) (ev_value args) kw ;;
  Ok (mkEvaluated value
        (mkLazyFunction (lf_functions_mapping self)
           (lf_check_variables_set self) (Some cache_key) (lf_func self)
           (ev_self args) (ev_self kwargs))
        (ev_cache kwargs)).

(** The test [self.cached and arg.cache_key and
    arg.cache_key in cached_functions_mapping] of [LazyString.to_value]:
    the cached value when it holds. *)
Definition cache_hit (cached : bool) (arg : LazyFunction) (cache : Cache)
    : option Value :=
  if cached then
    match lf_cache_key arg with
    | Some k => cache !! Some k
    | None => None
    end
  else None.

(** The body of the loop [for arg in self._args] of
    [LazyString.to_value]. *)
Definition LazyString_arg (cached : bool) (arg : Slot) (cache : Cache)
    : result (Evaluated Value Slot) :=
  match arg with
  | SFunc lazy_func =>
      match cache_hit cached lazy_func cache with
      | Some value => Ok (mkEvaluated value arg cache)
      | None =>
          r <- LazyFunction_to_value lazy_func cache ;;
          Ok (mkEvaluated (ev_value r) (SFunc (ev_self r))
                (<[lf_cache_key (ev_self r) := ev_value r]> (ev_cache r)))
      end
  | SVar var_name =>
      var_value <- get_mapping_variable var_name variables_mapping ;;
      Ok (mkEvaluated var_value arg cache)
  end.

Fixpoint LazyString_args (cached : bool) (_args : list Slot) (cache : Cache)
    : result (Evaluated (list Value) (list Slot)) :=
  match _args with
  | [] => Ok (mkEvaluated [] [] cache)
  | arg :: rest =>
      r <- LazyString_arg cached arg cache ;;
      rs <- LazyString_args cached rest (ev_cache r) ;;
      Ok (mkEvaluated (ev_value r :: ev_value rs)
            (ev_self r :: ev_self rs) (ev_cache rs))
  end.

(** [LazyString.to_value] *)
Definition LazyString_to_value (self : LazyString) (cache : Cache)
    : result (Evaluated Value LazyString) :=
  args <- LazyString_args (ls_cached self) (ls_args self) cache ;;
  let self' :=
    mkLazyString (ls_raw_string self) (ls_functions_mapping self)
      (ls_check_variables_set self) (ls_cached self) (ls_string self)
      (ev_self args) in
  if String.eqb (ls_string self) "{}" then
    match ev_value args with
    | a :: _ => Ok (mkEvaluated a self' (ev_cache args))
    | [] => Raise (IndexError "list index out of range")
    end
  else
    s <- py_format H (ls_string self) (ev_value args) ;;
    Ok (mkEvaluated (VStr s) self' (ev_cache args)).
End Evaluate.

(** [parse_lazy_data].  [utils.ensure_mapping_format] returns a [dict]
    as it is. *)
Fixpoint parse_lazy_data (H : Host) (content : Value)
    (variables_mapping : Variables) (cache : Cache) {struct content}
    : result (Evaluated Value Value) :=
  match content with
  | VNone | VInt _ | VFloat _ | VBool _ | VType _ =>
      Ok (mkEvaluated content content cache)
  | VLazyString ls =>
      r <- LazyString_to_value H (parse_lazy_data H) variables_mapping
             ls cache ;;
      Ok (mkEvaluated (ev_value r) (VLazyString (ev_self r)) (ev_cache r))
  | VSeq kind items =>
      r <- parse_items (parse_lazy_data H) variables_mapping items cache ;;
      Ok (mkEvaluated (VSeq KList (ev_value r)) (VSeq kind (ev_self r))
            (ev_cache r))
  | VDict items =>
      r <- parse_dict_items H (parse_lazy_data H) variables_mapping
             items [] cache ;;
      Ok (mkEvaluated (VDict (ev_value r)) (VDict (ev_self r)) (ev_cache r))
  | VStr _ | VOther _ => Ok (mkEvaluated content content cache)
  end.

(** [LazyString.to_value] and [LazyFunction.to_value] as they are called. *)
Definition to_value (H : Host) (self : LazyString)
    (variables_mapping : Variables) (cache : Cache)
    : result (Evaluated Value LazyString) :=
  LazyString_to_value H (parse_lazy_data H) variables_mapping self cache.

(** ** The Variable Resolver *)

Fixpoint extract_variables (content : Value) : gset string :=
  match content with
  | VSeq _ items => ⋃ (map extract_variables items)
  | VDict items => ⋃ (map (fun kv => extract_variables (snd kv)) items)
  | VLazyString ls => list_to_set (regex_findall_variables (ls_raw_string ls))
  | _ => ∅
  end.

(** [any([var_name not in parsed_variables_mapping
          for var_name in variables])] *)
Definition any_not_parsed (variables : gset string) (parsed : Variables)
    : bool :=
  existsb (fun var_name => negb (bool_decide (is_Some (parsed !! var_name))))
          (elements variables).

(** One run of the loop [for var_name in variables_mapping], on the items of
    [variables_mapping] in their order (the variable of the list
    comprehension is local to it, as in Python 3).  An item that is evaluated is put in
    [parsed_variables_mapping] at once and never evaluated again, and an
    item that is passed over is not evaluated: the [cache_key] assignments
    of an evaluation cannot change a later step, and the items are kept as
    they are. *)
Fixpoint variables_pass (H : Host) (ignore : bool)
    (items : list (string * Value)) (parsed_variables_mapping : Variables)
    (cache : Cache) : result (Variables * Cache) :=
  match items with
  | [] => Ok (parsed_variables_mapping, cache)
  | (var_name, value) :: rest =>
      if bool_decide (is_Some (parsed_variables_mapping !! var_name)) then
        variables_pass H ignore rest parsed_variables_mapping cache
      else
        let variables := extract_variables value in
        if bool_decide (var_name ∈ variables) then
          if ignore then
            variables_pass H ignore rest
              (<[var_name := value]> parsed_variables_mapping) cache
          else Raise (VariableNotFound var_name)
        else if nonempty (elements variables)
                && any_not_parsed variables parsed_variables_mapping then
          variables_pass H ignore rest parsed_variables_mapping cache
        else
          r <- parse_lazy_data H value parsed_variables_mapping cache ;;
          variables_pass H ignore rest
            (<[var_name := ev_value r]> parsed_variables_mapping)
            (ev_cache r)
  end.

(** The loop [while len(parsed_variables_mapping) != len(variables_mapping)];
    each run of its body takes one unit of [fuel], and [None] says the fuel
    ran out with the loop still going. *)
Fixpoint parse_variables_loop (fuel : nat) (H : Host) (ignore : bool)
    (variables_mapping : list (string * Value))
    (parsed_variables_mapping : Variables) (cache : Cache)
    : option (result (Variables * Cache)) :=
  match fuel with
  | O => None
  | S n =>
      if Nat.eqb (size parsed_variables_mapping) (length variables_mapping)
      then Some (Ok (parsed_variables_mapping, cache))
      else
        match variables_pass H ignore variables_mapping
                parsed_variables_mapping cache with
        | Raise e => Some (Raise e)
        | Ok (parsed, cache') =>
            parse_variables_loop n H ignore variables_mapping parsed cache'
        end
  end.

(** [parse_variables_mapping(variables_mapping, ignore)], the mapping given
    by its items in order (their keys are distinct). *)
Definition parse_variables_mapping (fuel : nat) (H : Host)
    (variables_mapping : list (string * Value)) (ignore : bool)
    (cache : Cache) : option (result (Variables * Cache)) :=
  parse_variables_loop fuel H ignore variables_mapping ∅ cache.

(** ** Validator normalisation *)

(** The entry of a [dict] under the [str] key [name]. *)
Fixpoint dict_get (name : string) (d : list (Value * Value)) : option Value :=
  match d with
  | [] => None
  | (VStr k, v) :: t => if String.eqb k name then Some v else dict_get name t
  | _ :: t => dict_get name t
  end.

Definition invalid_validator (validator : Value) : exn :=
  ParamsError (MsgFormat "invalid validator: {}" validator).

Definition normalized_validator (check_item expect_value comparator : Value)
    : Value :=
  VDict [(VStr "check", check_item); (VStr "expect", expect_value);
         (VStr "comparator", comparator)].

(** [d.get(name, default)] *)
Definition dict_get_default (name : string) (d : list (Value * Value))
    (default : Value) : Value :=
  match dict_get name d with
  | Some v => v
  | None => default
  end.

(** [name in d] *)
Definition dict_has (name : string) (d : list (Value * Value)) : bool :=
  match dict_get name d with
  | Some _ => true
  | None => false
  end.

Definition parse_validator (validator : Value) : result Value :=
  match validator with
  | VDict d =>
      if dict_has "check" d && (1 <? length d)%nat then
        (* format1 *)
        let check_item := dict_get_default "check" d VNone in
        expect_value <-
          (if dict_has "expect" d then
             Ok (dict_get_default "expect" d VNone)
           else if dict_has "expected" d then
             Ok (dict_get_default "expected" d VNone)
           else Raise (invalid_validator validator)) ;;
        let comparator := dict_get_default "comparator" d (VStr "eq") in
        Ok (normalized_validator check_item expect_value comparator)
      else if (length d =? 1)%nat then
        (* format2 *)
        match d with
        | (comparator, compare_values) :: _ =>
            match compare_values with
            | VSeq KList [check_item; expect_value] =>
                Ok (normalized_validator check_item expect_value comparator)
            | _ => Raise (invalid_validator validator)
            end
        | [] => Raise (IndexError "list index out of range")
        end
      else Raise (invalid_validator validator)
  | _ => Raise (invalid_validator validator)
  end.

(** ** A host to run the definitions on

    [ast.literal_eval] restricted to [None], [True], [False] and the decimal
    integers without sign ([SyntaxError] for text with a dollar sign,
    [ValueError] for the rest); [str] and [repr] for these and for text without
    quotes; structural key equality; no built-in helpers; [eval] knowing the
    modules that [parser.py] imports by name ([ast], [os], [re],
    [exceptions], [utils]) and the built-in [len]; three callables. *)

Module Demo.

Fixpoint digits_value (s : string) (acc : Z) : option Z :=
  match s with
  | "" => Some acc
  | String c t =>
      if Str.in_range 48 57 c
      then digits_value t (10 * acc + Z.of_nat (nat_of_ascii c - 48))%Z
      else None
  end.

Definition literal_eval (s : string) : result Literal :=
  if Str.contains "$" s then Raise (SyntaxError "invalid syntax")
  else if String.eqb s "None" then Ok LNone
  else if String.eqb s "True" then Ok (LBool true)
  else if String.eqb s "False" then Ok (LBool false)
  else match s with
       | "" => Raise (SyntaxError "invalid syntax")
       | String "0" (String _ _) => Raise (SyntaxError "invalid syntax")
       | _ =>
           match digits_value s 0 with
           | Some n => Ok (LInt n)
           | None => Raise (ValueError "malformed node or string")
           end
       end.

Definition literal_eval_dollar (s : string)
    (A : Str.all_chars Str.is_argchar s = true)
    (E : Str.contains "$" s = true) : exists e, literal_eval s = Raise e.
Proof. unfold literal_eval. rewrite E. eauto. Defined.

Fixpoint digits_of (fuel : nat) (n : N) (acc : string) : string :=
  match fuel with
  | O => acc
  | S k =>
      let d := ascii_of_N (48 + N.modulo n 10) in
      if (n <? 10)%N then String d acc
      else digits_of k (N.div n 10) (String d acc)
  end.

Definition str_of_Z (z : Z) : string :=
  let n := Z.to_N (Z.abs z) in
  let ds := digits_of (S (N.to_nat (N.log2 n))) n "" in
  if (z <? 0)%Z then String "-" ds else ds.

Definition str_scalar (quote : bool) (v : Value) : string :=
  match v with
  | VNone => "None"
  | VBool true => "True"
  | VBool false => "False"
  | VInt n => str_of_Z n
  | VFloat r => r
  | VStr s => if quote then ("'" ++ s ++ "'")%string else s
  | _ => "<object>"
  end.

Definition join (sep : string) (l : list string) : string :=
  match l with
  | [] => ""
  | x :: t => fold_left (fun acc y => (acc ++ sep ++ y)%string) t x
  end.

Definition py_repr (v : Value) : string :=
  match v with
  | VSeq KList items =>
      ("[" ++ join ", " (map (str_scalar true) items) ++ "]")%string
  | VDict items =>
      ("{" ++ join ", "
                (map (fun kv => (str_scalar true (fst kv) ++ ": "
                                 ++ str_scalar true (snd kv))%string) items)
           ++ "}")%string
  | _ => str_scalar true v
  end.

Definition py_str (v : Value) : string :=
  match v with
  | VStr s => s
  | _ => py_repr v
  end.

Definition key_eq (a b : Value) : bool :=
  match a, b with
  | VNone, VNone => true
  | VBool x, VBool y => Bool.eqb x y
  | VInt x, VInt y => Z.eqb x y
  | VStr x, VStr y => String.eqb x y
  | _, _ => false
  end.

(** The names [eval] finds in the module: the imported modules are objects
    that cannot be called. *)
Definition py_eval (name : string) : result PyObj :=
  if str_in name ["ast"; "os"; "re"; "exceptions"; "utils"] then
    Ok (ObjValue (VOther 0))
  else if String.eqb name "len" then Ok (ObjFn (mkFn "len" 2))
  else Raise (NameError ("name '" ++ name ++ "' is not defined")%string).

(** [add(a, b)], [one()], which returns 1, and [boom()], which raises. *)
Definition add_fn : FnObj := mkFn "add" 10.
Definition one_fn : FnObj := mkFn "one" 11.
Definition boom_fn : FnObj := mkFn "boom" 12.

Definition call (f : FnObj) (args : list Value)
    (kwargs : list (string * Value)) : result Value :=
  match fn_id f, args, kwargs with
  | 10%nat, [VInt a; VInt b], [] => Ok (VInt (a + b))
  | 11%nat, [], [] => Ok (VInt 1)
  | 12%nat, _, _ => Raise (OtherError "boom")
  | 2%nat, [VSeq _ items], [] => Ok (VInt (Z.of_nat (length items)))
  | _, _, _ => Raise (TypeError "bad arguments")
  end.

Definition host : Host :=
  mkHost literal_eval literal_eval_dollar py_repr py_str key_eq ∅ py_eval
         call.

Definition functions : gmap string FnObj :=
  {[ "add" := add_fn; "one" := one_fn; "boom" := boom_fn ]}.

End Demo.

(** ** Notions used to state the properties *)

(** The number of [{}] tokens of a template, read from left to right. *)
Fixpoint count_placeholders (template : string) : nat :=
  match template with
  | String "{" (String "}" t) => S (count_placeholders t)
  | String _ t => count_placeholders t
  | "" => O
  end.

(** The two shapes a validator may have, in the words of the
    specification: the legacy [dict] with a [check] key and at least one
    more key, its expected value under [expect] or else [expected], its
    comparator [eq] unless given; the compact [dict] whose only key is the
    comparator, on a list of the two entries [check] and [expect]. *)
Inductive validator_shape : Value -> Value -> Value -> Value -> Prop :=
| shape_legacy d check expect :
    dict_get "check" d = Some check ->
    (2 <= length d)%nat ->
    dict_get "expect" d = Some expect
    \/ (dict_get "expect" d = None /\ dict_get "expected" d = Some expect) ->
    validator_shape (VDict d) check
      (dict_get_default "comparator" d (VStr "eq")) expect
| shape_compact comparator check expect :
    validator_shape (VDict [(comparator, VSeq KList [check; expect])])
      check comparator expect.

(** A lazy value with every [cache_key] put back to [None]: what is left
    are the fields set once by the constructors. *)
Fixpoint erase_keys (v : Value) : Value :=
  match v with
  | VSeq k items => VSeq k (map erase_keys items)
  | VDict items =>
      VDict (map (fun kv => (erase_keys (fst kv), erase_keys (snd kv))) items)
  | VLazyString ls => VLazyString (erase_keys_LazyString ls)
  | _ => v
  end
with erase_keys_LazyString (ls : LazyString) : LazyString :=
  match ls with
  | mkLazyString r f k c s a =>
      mkLazyString r f k c s (map erase_keys_Slot a)
  end
with erase_keys_Slot (s : Slot) : Slot :=
  match s with
  | SVar n => SVar n
  | SFunc lf => SFunc (erase_keys_LazyFunction lf)
  end
with erase_keys_LazyFunction (lf : LazyFunction) : LazyFunction :=
  match lf with
  | mkLazyFunction f k _ fn a kw =>
      mkLazyFunction f k None fn (map erase_keys a)
        (map (fun kv => (erase_keys (fst kv), erase_keys (snd kv))) kw)
  end.

(** The first name of a list that is not in a set. *)
Fixpoint first_unknown (known : gset string) (names : list string)
    : option string :=
  match names with
  | [] => None
  | n :: t => if bool_decide (n ∈ known) then first_unknown known t else Some n
  end.

(** The keyword of one piece of the argument text, as
    [parse_function_params] reads it, when the piece has an equals sign. *)
Definition piece_keyword (arg : string) : option string :=
  let arg := Str.strip arg in
  if Str.contains "=" arg then
    match Str.split "=" arg with
    | key :: _ => Some (Str.strip key)
    | [] => None
    end
  else None.

(** The keywords of the argument text of one function call, in the order
    [parse_function_params] meets them. *)
Definition keyword_names (params : string) : list string :=
  omap piece_keyword (Str.split "," (Str.strip params)).

(** A mapping with an indirect cycle: [{"A": "$B", "B": "$A"}], prepared with
    both names known. *)
Definition lazy_var (fm : gmap string FnObj) (known : gset string)
    (name : string) : Value :=
  VLazyString (mkLazyString ("$" ++ name)%string fm known true "{}"
                 [SVar name]).

Definition cyclic_mapping : list (string * Value) :=
  [("A", lazy_var ∅ {["A"; "B"]} "B"); ("B", lazy_var ∅ {["A"; "B"]} "A")].

(** ** Induction on values *)

Section ValueInduction.
Variables (P : Value -> Prop) (PL : LazyString -> Prop)
          (PS : Slot -> Prop) (PF : LazyFunction -> Prop).
Hypothesis HNone : P VNone.
Hypothesis HBool : forall b, P (VBool b).
Hypothesis HInt : forall n, P (VInt n).
Hypothesis HFloat : forall r, P (VFloat r).
Hypothesis HType : forall n, P (VType n).
Hypothesis HStr : forall s, P (VStr s).
Hypothesis HSeq : forall k items, Forall P items -> P (VSeq k items).
Hypothesis HDict : forall items,
    Forall (fun kv => P (fst kv) /\ P (snd kv)) items -> P (VDict items).
Hypothesis HLazy : forall ls, PL ls -> P (VLazyString ls).
Hypothesis HOther : forall i, P (VOther i).
Hypothesis HLS : forall r f k c s a,
    Forall PS a -> PL (mkLazyString r f k c s a).
Hypothesis HSVar : forall n, PS (SVar n).
Hypothesis HSFunc : forall lf, PF lf -> PS (SFunc lf).
Hypothesis HLF : forall f k c fn a kw,
    Forall P a -> Forall (fun kv => P (fst kv) /\ P (snd kv)) kw ->
    PF (mkLazyFunction f k c fn a kw).

Fixpoint Value_mutind (v : Value) : P v :=
  match v with
  | VNone => HNone
  | VBool b => HBool b
  | VInt n => HInt n
  | VFloat r => HFloat r
  | VType n => HType n
  | VStr s => HStr s
  | VSeq k items =>
      HSeq k items
        ((fix go (l : list Value) : Forall P l :=
            match l with
            | [] => @List.Forall_nil _ _
            | x :: t => @List.Forall_cons _ _ x t (Value_mutind x) (go t)
            end) items)
  | VDict items =>
      HDict items
        ((fix go (l : list (Value * Value))
            : Forall (fun kv => P (fst kv) /\ P (snd kv)) l :=
            match l with
            | [] => @List.Forall_nil _ _
            | kv :: t =>
                @List.Forall_cons _ _ kv t
                  (conj (Value_mutind (fst kv)) (Value_mutind (snd kv)))
                  (go t)
            end) items)
  | VLazyString ls => HLazy ls (LazyString_mutind ls)
  | VOther i => HOther i
  end
with LazyString_mutind (ls : LazyString) : PL ls :=
  match ls with
  | mkLazyString r f k c s a =>
      HLS r f k c s a
        ((fix go (l : list Slot) : Forall PS l :=
            match l with
            | [] => @List.Forall_nil _ _
            | x :: t => @List.Forall_cons _ _ x t (Slot_mutind x) (go t)
            end) a)
  end
with Slot_mutind (s : Slot) : PS s :=
  match s with
  | SVar n => HSVar n
  | SFunc lf => HSFunc lf (LazyFunction_mutind lf)
  end
with LazyFunction_mutind (lf : LazyFunction) : PF lf :=
  match lf with
  | mkLazyFunction f k c fn a kw =>
      HLF f k c fn a kw
        ((fix go (l : list Value) : Forall P l :=
            match l with
            | [] => @List.Forall_nil _ _
            | x :: t => @List.Forall_cons _ _ x t (Value_mutind x) (go t)
            end) a)
        ((fix go (l : list (Value * Value))
            : Forall (fun kv => P (fst kv) /\ P (snd kv)) l :=
            match l with
            | [] => @List.Forall_nil _ _
            | kv :: t =>
                @List.Forall_cons _ _ kv t
                  (conj (Value_mutind (fst kv)) (Value_mutind (snd kv)))
                  (go t)
            end) kw)
  end.
End ValueInduction.

(** The property of one evaluation: the object after the call is the
    object before the call up to the [cache_key] fields, and the cache has
    lost no key. *)
Definition frame {V O : Type} (erase : O -> O) (self : O) (cache : Cache)
    (r : Evaluated V O) : Prop :=
  erase (ev_self r) = erase self
  /\ forall k, is_Some (cache !! k) -> is_Some (ev_cache r !! k).

Definition erase_items (kw : list (Value * Value)) : list (Value * Value) :=
  map (fun kv => (erase_keys (fst kv), erase_keys (snd kv))) kw.

Definition frame_parse (H : Host) (v : Value) : Prop :=
  forall vm cache r,
    parse_lazy_data H v vm cache = Ok r -> frame erase_keys v cache r.

Definition frame_LazyFunction (H : Host) (lf : LazyFunction) : Prop :=
  forall vm cache r,
    LazyFunction_to_value H (parse_lazy_data H) vm lf cache = Ok r ->
    frame erase_keys_LazyFunction lf cache r.

Definition frame_Slot (H : Host) (s : Slot) : Prop :=
  forall vm cached cache r,
    LazyString_arg H (parse_lazy_data H) vm cached s cache = Ok r ->
    frame erase_keys_Slot s cache r.

Definition frame_LazyString (H : Host) (ls : LazyString) : Prop :=
  forall vm cache r,
    to_value H ls vm cache = Ok r ->
    frame erase_keys_LazyString ls cache r.

(** The key of a function slot is in the cache. *)
Definition slot_in_cache (cache : Cache) (s : Slot) : Prop :=
  match s with
  | SFunc lf => is_Some (cache !! lf_cache_key lf)
  | SVar _ => True
  end.

(** Inversion of a [bind] that gave [Ok]. *)
Tactic Notation "bind_inv" hyp(E) "as" ident(x) ident(Ex) :=
  match type of E with
  | bind ?r _ = Ok _ =>
      destruct r as [x | ?] eqn:Ex; [cbn [bind] in E | discriminate E]
  end.

(** Two mappings with a self-reference that is not the first thing the loop
    meets: [{"a": "$a", "b": "$b"}] and [{"a": "${boom()}", "t": "$t"}]. *)
Definition two_self_references : list (string * Value) :=
  [("a", lazy_var ∅ {["a"; "b"]} "a"); ("b", lazy_var ∅ {["a"; "b"]} "b")].

Definition failing_call_first : list (string * Value) :=
  [("a", VLazyString
           (mkLazyString "${boom()}" Demo.functions {["a"; "t"]} true "{}"
              [SFunc (mkLazyFunction Demo.functions {["a"; "t"]} None
                        Demo.boom_fn [] [])]));
   ("t", lazy_var Demo.functions {["a"; "t"]} "t")].

(** The entry of [name] in a result of the resolver, if there is one, is
    [value]. *)
Definition keeps_value (name : string) (value : Value) (parsed : Variables)
    : Prop :=
  forall v, parsed !! name = Some v -> v = value.

(** The names [regex_findall_variables] finds, read off position by
    position: a dollar sign followed by word characters starts a match, and
    no match starts inside another one, a name having no dollar sign. *)
Fixpoint variable_names (s : string) : list string :=
  match s with
  | String c t =>
      if Ascii.eqb c "$" then
        let w := Str.take_while Str.is_word t in
        if String.eqb w "" then variable_names t else w :: variable_names t
      else variable_names t
  | "" => []
  end.

(** The first [k] characters of [s] (all of them when [s] is shorter) are
    word characters. *)
Fixpoint word_prefix (k : nat) (s : string) : Prop :=
  match k, s with
  | S k', String c t => Str.is_word c = true /\ word_prefix k' t
  | _, _ => True
  end.

(** No opening brace in [s]. *)
Definition brace_free (s : string) : Prop := Str.contains "{" s = false.

(** No function call of the string whose argument text refers to [name]
    gives the same keyword twice: the reference is not in an argument that
    a later argument of the same keyword replaces. *)
Definition keeps_reference (name : string) (s : string) : Prop :=
  Forall (fun m => In name (regex_findall_variables (snd m)) ->
                   NoDup (keyword_names (snd m)))
         (regex_findall_functions s).

(** The text of a function call as [LazyString.__parse] puts it together
    from the two groups of the match. *)
Definition call_text (m : string * string) : string :=
  ("${" ++ fst m ++ "(" ++ snd m ++ ")}")%string.

(** A reserved function has one positional argument and no keyword. *)
Definition reserved_arity (f : FnObj) (function_meta : FunctionMeta) : bool :=
  if String.eqb (fn_name f) "load_csv_file"
     || String.eqb (fn_name f) "get_os_environ"
  then (length (meta_args function_meta) =? 1)%nat
       && negb (nonempty (meta_kwargs function_meta))
  else true.

(** A call that is in order, its variables apart: the argument text is
    parsed without an exception, the name is that of a function, and a
    reserved function has its one argument. *)
Definition call_accepted (H : Host) (functions_mapping : gmap string FnObj)
    (m : string * string) : Prop :=
  exists function_meta f,
    parse_function_params H (snd m) = Ok function_meta
    /\ get_mapping_function H (fst m) functions_mapping = Ok (ObjFn f)
    /\ reserved_arity f function_meta = true.

(** [VariableNotFound] for one of [names] that is not in [known]. *)
Definition names_unknown (known : gset string) (names : list string)
    (e : exn) : Prop :=
  exists n, e = VariableNotFound n /\ (n ∉ known) /\ In n names.

(** The texts occur in [u] one after the other, without overlap. *)
Fixpoint embeds (texts : list string) (u : string) : Prop :=
  match texts with
  | [] => True
  | t :: r => exists y u', u = (y ++ t ++ u')%string /\ embeds r u'
  end.

(** An argument of a function call that is text with a reference to the
    variable [n], and a [function_meta] with such an argument or keyword. *)
Definition mentions (n : string) (v : Value) : Prop :=
  exists p, v = VStr p /\ In n (variable_names p) /\ brace_free p.

Definition meta_mentions (n : string) (function_meta : FunctionMeta) : Prop :=
  Exists (mentions n) (meta_args function_meta)
  \/ Exists (fun kv => mentions n (VStr (fst kv)) \/ mentions n (snd kv))
            (meta_kwargs function_meta).

(** What [parse_function_params] makes of a piece of argument text: a
    literal, or the text itself, which has no brace. *)
Definition arg_value (v : Value) : Prop :=
  (exists l, v = Value_of_Literal l) \/ (exists p, v = VStr p /\ brace_free p).

(** The same, with the names of the text among those of [args]. *)
Definition arg_of (args : string) (v : Value) : Prop :=
  (exists l, v = Value_of_Literal l)
  \/ (exists p, v = VStr p /\ Str.all_chars Str.is_argchar p = true
                 /\ incl (variable_names p) (variable_names args)).

Definition meta_arg_of (args : string) (function_meta : FunctionMeta)
    : Prop :=
  Forall (arg_of args) (meta_args function_meta)
  /\ Forall (fun kv => arg_of args (VStr (fst kv)) /\ arg_of args (snd kv))
            (meta_kwargs function_meta).

(** The two outcomes of preparing an argument of a call with the argument
    text [args]: a value that can be a key, or [VariableNotFound] for an
    unknown name of [args]. *)
Definition argument_outcome (known : gset string) (args : string)
    (r : result Value) : Prop :=
  (exists w, r = Ok w /\ hashable w = true)
  \/ (exists e, r = Raise e /\ names_unknown known (variable_names args) e).

Definition meta_arg_values (function_meta : FunctionMeta) : Prop :=
  Forall arg_value (meta_args function_meta)
  /\ Forall (fun kv => brace_free (fst kv) /\ arg_value (snd kv))
            (meta_kwargs function_meta).

(** ** Further notions *)

(** [eval_lazy_data]: the known variables are the keys of the mapping. *)
Definition eval_lazy_data (H : Host) (content : Value)
    (variables_mapping : Variables) (functions_mapping : gmap string FnObj)
    (cache : Cache) : result (Evaluated Value Value) :=
  prepared <- prepare_lazy_data H content functions_mapping
                (dom variables_mapping) false ;;
  parse_lazy_data H prepared variables_mapping cache.

(** A value without a [LazyString] in it. *)
Fixpoint concrete (v : Value) : bool :=
  match v with
  | VSeq _ items => forallb concrete items
  | VDict items =>
      forallb (fun kv => concrete (fst kv) && concrete (snd kv)) items
  | VLazyString _ => false
  | _ => true
  end.

(** A value whose [LazyString]s have variable slots only. *)
Definition variable_slot (s : Slot) : bool :=
  match s with SVar _ => true | SFunc _ => false end.

Fixpoint no_calls (v : Value) : bool :=
  match v with
  | VSeq _ items => forallb no_calls items
  | VDict items =>
      forallb (fun kv => no_calls (fst kv) && no_calls (snd kv)) items
  | VLazyString ls => forallb variable_slot (ls_args ls)
  | _ => true
  end.

(** What the Preparer leaves behind: no text with a variable reference or
    a function call outside the lazy values, lists for all sequences,
    hashable keys, and in the lazy values, at any depth, variable slots that
    are in [known] and functions not yet evaluated. *)
Fixpoint well_prepared (known : gset string) (v : Value) : bool :=
  match v with
  | VStr s => negb (is_variable_exist s || is_function_exist s)
  | VSeq k items =>
      match k with KList => forallb (well_prepared known) items | _ => false end
  | VDict items =>
      forallb (fun kv => hashable (fst kv) && well_prepared known (fst kv)
                         && well_prepared known (snd kv)) items
  | VLazyString ls => well_prepared_LazyString known ls
  | _ => true
  end
with well_prepared_LazyString (known : gset string) (ls : LazyString) : bool :=
  match ls with
  | mkLazyString _ _ _ _ _ a => forallb (well_prepared_Slot known) a
  end
with well_prepared_Slot (known : gset string) (s : Slot) : bool :=
  match s with
  | SVar n => bool_decide (n ∈ known)
  | SFunc lf => well_prepared_LazyFunction known lf
  end
with well_prepared_LazyFunction (known : gset string) (lf : LazyFunction)
    : bool :=
  match lf with
  | mkLazyFunction _ _ ck _ a kw =>
      match ck with None => true | Some _ => false end
      && forallb (well_prepared known) a
      && forallb (fun kv => hashable (fst kv) && well_prepared known (fst kv)
                            && well_prepared known (snd kv)) kw
  end.

(** The callables of the host return values without a [LazyString]. *)
Definition concrete_calls (H : Host) : Prop :=
  forall f args kwargs v, call H f args kwargs = Ok v -> concrete v = true.

Definition concrete_map {K : Type} `{Countable K} (m : gmap K Value) : Prop :=
  forall k v, m !! k = Some v -> concrete v = true.

(** The first name of a list that is no key of a mapping. *)
Fixpoint first_missing (variables_mapping : Variables) (names : list string)
    : option string :=
  match names with
  | [] => None
  | n :: t =>
      match variables_mapping !! n with
      | Some _ => first_missing variables_mapping t
      | None => Some n
      end
  end.

(** A value that is neither a container nor lazy. *)
Definition plain (v : Value) : bool :=
  match v with
  | VSeq _ _ | VDict _ | VLazyString _ => false
  | _ => true
  end.

(** An exception of [ast.literal_eval] that [parse_string_value] does not
    catch. *)
Definition uncaught (e : exn) : bool :=
  match e with
  | ValueError _ | SyntaxError _ => false
  | _ => true
  end.

(** A piece of argument text with more than one equals sign. *)
Definition bad_piece (p : string) : bool :=
  Str.contains "=" (Str.strip p)
  && negb (length (Str.split "=" (Str.strip p)) =? 2)%nat.

(** An evaluation that gives a value without a [LazyString], as [good]
    says, and leaves the cache without one, when it starts from such a
    cache. *)
Definition keeps_concrete {V O : Type} (good : V -> Prop)
    (eval : Cache -> result (Evaluated V O)) : Prop :=
  forall cache r,
    concrete_map cache -> eval cache = Ok r ->
    good (ev_value r) /\ concrete_map (ev_cache r).

Definition concrete_item (kv : Value * Value) : bool :=
  concrete (fst kv) && concrete (snd kv).

(** The same evaluation from any cache: the value of [r], the object as it
    was, the cache as it was. *)
Definition cache_free {V O : Type} (self : O)
    (eval : Cache -> result (Evaluated V O)) : Prop :=
  forall cache r,
    eval cache = Ok r ->
    forall cache', eval cache' = Ok (mkEvaluated (ev_value r) self cache').

(** The template with the literal texts [lits] before its placeholders and
    [last] after them, and the text it is to format to. *)
Fixpoint template_of (lits : list string) (last : string) : string :=
  match lits with
  | [] => last
  | l :: t => (l ++ "{}" ++ template_of t last)%string
  end.

Fixpoint filled (H : Host) (lits : list string) (values : list Value)
    (last : string) : string :=
  match lits, values with
  | l :: t, v :: vs => (l ++ py_str H v ++ filled H t vs last)%string
  | _, _ => last
  end.

(** Text without a brace, and without a dollar sign as well. *)
Definition no_brace (s : string) : bool :=
  negb (Str.contains "{" s) && negb (Str.contains "}" s).

Definition literal_text (s : string) : bool :=
  negb (Str.contains "$" s) && no_brace s.

(** The values of the names in a mapping, when all are there. *)
Fixpoint lookup_all (variables_mapping : Variables) (names : list string)
    : option (list Value) :=
  match names with
  | [] => Some []
  | n :: t =>
      match variables_mapping !! n, lookup_all variables_mapping t with
      | Some v, Some vs => Some (v :: vs)
      | _, _ => None
      end
  end.

(** Every entry refers to entries before it only; [seen] holds the keys
    gone through. *)
Fixpoint defined_before (seen : gset string) (items : list (string * Value))
    : bool :=
  match items with
  | [] => true
  | (n, v) :: t =>
      bool_decide (n ∉ seen) && bool_decide (extract_variables v ⊆ seen)
      && defined_before ({[n]} ∪ seen) t
  end.

(** The entries evaluated from left to right, each one with the values of
    the entries before it. *)
Fixpoint resolve_in_order (H : Host) (items : list (string * Value))
    (parsed : Variables) (cache : Cache) : result (Variables * Cache) :=
  match items with
  | [] => Ok (parsed, cache)
  | (n, v) :: t =>
      r <- parse_lazy_data H v parsed cache ;;
      resolve_in_order H t (<[n := ev_value r]> parsed) (ev_cache r)
  end.

(** * Properties *)

(** ** Scanner examples from the docstrings *)

Example regex_findall_variables_doc :
  regex_findall_variables "/$var1/$var2" = ["var1"; "var2"]
  /\ regex_findall_variables "abc" = [].
Proof. split; reflexivity. Qed.

Example regex_findall_functions_doc :
  regex_findall_functions "/api/${add(1, 2)}?_t=${get_timestamp()}"
  = [("add", "1, 2"); ("get_timestamp", "")].
Proof. reflexivity. Qed.

(** Characters above 127: the letter e with an acute accent (code point
    233) goes on a name, as it does for [\w] in a [str] pattern; the no-break
    space (code point 160) is white space for the function pattern and
    for [str.strip]. *)
Example regex_findall_variables_latin_letter :
  regex_findall_variables
    (String "$" (String "a" (String (ascii_of_nat 233) "")))
  = [String "a" (String (ascii_of_nat 233) "")].
Proof. reflexivity. Qed.

Example no_break_space_is_space :
  regex_findall_functions
    ("${f(" ++ String (ascii_of_nat 160) ")}")%string
  = [("f", String (ascii_of_nat 160) "")]
  /\ Str.strip (String (ascii_of_nat 160) "a") = "a".
Proof. split; reflexivity. Qed.

(** ** Scenarios of the specification, run on the model *)

(** S1: [$x] prepared with [x] known and evaluated with [x = 42] is the
    integer 42. *)
Example scenario_type_preserved :
  exists ls r,
    prepare_lazy_data Demo.host (VStr "$x") Demo.functions {["x"]} false
    = Ok (VLazyString ls)
    /\ to_value Demo.host ls {["x" := VInt 42]} ∅ = Ok r
    /\ ev_value r = VInt 42.
Proof.
  do 2 eexists. split; [vm_compute; reflexivity | ].
  split; [vm_compute; reflexivity | reflexivity].
Qed.

(** S2: a function call with a variable among its arguments. *)
Example scenario_function_call :
  exists ls r,
    prepare_lazy_data Demo.host (VStr "result=${add($a, 10)}") Demo.functions
      {["a"]} false = Ok (VLazyString ls)
    /\ to_value Demo.host ls {["a" := VInt 5]} ∅ = Ok r
    /\ ev_value r = VStr "result=15".
Proof.
  do 2 eexists. split; [vm_compute; reflexivity | ].
  split; [vm_compute; reflexivity | reflexivity].
Qed.

(** S3: the three validators. *)
Example scenario_validators :
  parse_validator
    (VDict [(VStr "check", VStr "status_code");
            (VStr "comparator", VStr "eq"); (VStr "expect", VInt 201)])
  = Ok (normalized_validator (VStr "status_code") (VInt 201) (VStr "eq"))
  /\ parse_validator
       (VDict [(VStr "eq", VSeq KList [VStr "status_code"; VInt 201])])
     = Ok (normalized_validator (VStr "status_code") (VInt 201) (VStr "eq"))
  /\ parse_validator (VDict [(VStr "eq", VSeq KList [VStr "status_code"])])
     = Raise (invalid_validator
                (VDict [(VStr "eq", VSeq KList [VStr "status_code"])])).
Proof. repeat split. Qed.

(** S4: resolution in the order of the dependencies. *)
Example scenario_dependency_order :
  exists a b r,
    prepare_lazy_data Demo.host (VStr "$B-x") ∅ {["A"; "B"; "C"]} true = Ok a
    /\ prepare_lazy_data Demo.host (VStr "$C-y") ∅ {["A"; "B"; "C"]} true
       = Ok b
    /\ parse_variables_mapping 4 Demo.host
         [("A", a); ("B", b); ("C", VStr "z")] false ∅ = Some (Ok r)
    /\ fst r = {[ "A" := VStr "z-y-x"; "B" := VStr "z-y"; "C" := VStr "z" ]}.
Proof.
  do 3 eexists. split; [vm_compute; reflexivity | ].
  split; [vm_compute; reflexivity | ].
  split; [vm_compute; reflexivity | ].
  vm_compute. reflexivity.
Qed.

(** The lazy values of the mappings used below are what the Preparer makes
    of their text. *)
Example lazy_var_prepared :
  prepare_lazy_data Demo.host (VStr "$B") ∅ {["A"; "B"]} true
  = Ok (lazy_var ∅ {["A"; "B"]} "B")
  /\ prepare_lazy_data Demo.host (VStr "$token") ∅ {["token"]} true
     = Ok (lazy_var ∅ {["token"]} "token")
  /\ prepare_lazy_data Demo.host (VStr "${boom()}") Demo.functions
       {["a"; "t"]} true
     = Ok (snd (hd ("", VNone) failing_call_first)).
Proof. repeat split; vm_compute; reflexivity. Qed.

(** ** Validators *)

Lemma dict_has_get name d :
  dict_has name d = true <-> exists v, dict_get name d = Some v.
Proof.
  unfold dict_has. destruct (dict_get name d) as [v|].
  - split; [eauto | reflexivity].
  - split; [discriminate | intros [v E]; discriminate].
Qed.

Lemma dict_has_None name d :
  dict_has name d = false <-> dict_get name d = None.
Proof.
  unfold dict_has. destruct (dict_get name d); split; congruence.
Qed.

Lemma parse_validator_shape v check comparator expect :
  validator_shape v check comparator expect ->
  parse_validator v = Ok (normalized_validator check expect comparator).
Proof.
  intros S. destruct S as [d check expect Hc Hl He | comparator check expect].
  - unfold parse_validator.
    assert (Hh : dict_has "check" d = true) by (apply dict_has_get; eauto).
    assert (Hn : (1 <? length d)%nat = true) by (apply Nat.ltb_lt; lia).
    rewrite Hh, Hn. cbn [andb].
    destruct He as [He | [He1 He2]].
    + assert (Hx : dict_has "expect" d = true) by (apply dict_has_get; eauto).
      rewrite Hx. unfold dict_get_default. rewrite Hc, He. reflexivity.
    + assert (Hx : dict_has "expected" d = true) by (apply dict_has_get; eauto).
      apply dict_has_None in He1. rewrite He1, Hx.
      unfold dict_get_default. rewrite Hc, He2. reflexivity.
  - unfold parse_validator.
    replace (dict_has "check" [(comparator, VSeq KList [check; expect])]
             && (1 <? length [(comparator, VSeq KList [check; expect])])%nat)
      with false by (simpl; now rewrite andb_false_r).
    reflexivity.
Qed.

Lemma parse_validator_no_shape v :
  (forall check comparator expect,
      ~ validator_shape v check comparator expect) ->
  parse_validator v = Raise (invalid_validator v).
Proof.
  intros N. destruct v as [ | | | | | | | d | | ]; try reflexivity.
  unfold parse_validator.
  destruct (dict_has "check" d) eqn:Hc; simpl.
  - destruct (1 <? length d)%nat eqn:Hl.
    + apply dict_has_get in Hc. destruct Hc as [c Hc].
      apply Nat.ltb_lt in Hl.
      destruct (dict_has "expect" d) eqn:He.
      * apply dict_has_get in He. destruct He as [e He].
        exfalso. eapply N.
           apply (shape_legacy d c e); [assumption | lia | tauto].
      * destruct (dict_has "expected" d) eqn:He'.
        -- apply dict_has_get in He'. destruct He' as [e He'].
           apply dict_has_None in He.
           exfalso. eapply N.
           apply (shape_legacy d c e); [assumption | lia | tauto].
        -- reflexivity.
    + destruct d as [ | [k cv] [ | kv' d']]; try reflexivity.
      destruct cv as [ | | | | | | kind items | | | ]; try reflexivity.
      destruct kind; try reflexivity.
      destruct items as [ | a [ | b [ | c' items']]]; try reflexivity.
      exfalso. eapply N. apply shape_compact.
  - destruct d as [ | [k cv] [ | kv' d']]; try reflexivity.
    destruct cv as [ | | | | | | kind items | | | ]; try reflexivity.
    destruct kind; try reflexivity.
    destruct items as [ | a [ | b [ | c' items']]]; try reflexivity.
    exfalso. eapply N. apply shape_compact.
Qed.

(** C6.  [parse_validator] normalises exactly the two shapes of the
    specification to the [dict] of [check], [expect] and [comparator]: an
    input of one of the two shapes gives the normalised validator, and every
    input of neither shape (a value that is no [dict], a legacy [dict] with
    neither [expect] nor [expected], a [dict] of one key whose value is not a
    list of two entries, the empty [dict], ...) raises [ParamsError]. *)
Theorem parse_validator_two_shapes (v : Value) :
  (forall check comparator expect,
      validator_shape v check comparator expect ->
      parse_validator v = Ok (normalized_validator check expect comparator))
  /\ ((forall check comparator expect,
          ~ validator_shape v check comparator expect) ->
      parse_validator v
      = Raise (ParamsError (MsgFormat "invalid validator: {}" v))).
Proof.
  split.
  - intros c cmp e S. now apply parse_validator_shape.
  - apply parse_validator_no_shape.
Qed.

Lemma no_shape_empty check comparator expect :
  ~ validator_shape (VDict []) check comparator expect.
Proof.
  intros S. inversion S as [d c e Hc Hl He | ]; subst. simpl in Hl. lia.
Qed.

Lemma parse_validator_two_shapes_witness :
  parse_validator
    (VDict [(VStr "eq", VSeq KList [VStr "status_code"; VInt 201])])
  = Ok (normalized_validator (VStr "status_code") (VInt 201) (VStr "eq"))
  /\ parse_validator (VDict [])
     = Raise (ParamsError (MsgFormat "invalid validator: {}" (VDict []))).
Proof.
  split.
  - apply (proj1 (parse_validator_two_shapes _)). apply shape_compact.
  - apply (proj2 (parse_validator_two_shapes _)). apply no_shape_empty.
Defined.

Lemma parse_validator_Ok v r :
  parse_validator v = Ok r ->
  exists check expect comparator,
    r = normalized_validator check expect comparator.
Proof.
  destruct v as [ | | | | | | | d | | ]; try discriminate.
  unfold parse_validator.
  destruct (dict_has "check" d && (1 <? length d)%nat).
  - destruct (dict_has "expect" d); simpl.
    + intros [= <-]. eauto.
    + destruct (dict_has "expected" d); simpl; [ | discriminate].
      intros [= <-]. eauto.
  - destruct (length d =? 1)%nat; [ | discriminate].
    destruct d as [ | [k cv] d']; [discriminate | ].
    destruct cv as [ | | | | | | kind items | | | ]; try discriminate.
    destruct kind; try discriminate.
    destruct items as [ | a [ | b [ | c' items']]]; try discriminate.
    intros [= <-]. eauto.
Qed.

(** C7.  [parse_validator] is idempotent: where it succeeds on [v] with the
    normalised validator [r], it succeeds on [r] with [r] again. *)
Theorem parse_validator_idempotent (v r : Value) :
  parse_validator v = Ok r -> parse_validator r = Ok r.
Proof.
  intros E. apply parse_validator_Ok in E.
  destruct E as (c & e & cmp & ->). reflexivity.
Qed.

Lemma parse_validator_idempotent_witness :
  parse_validator
    (normalized_validator (VStr "status_code") (VInt 201) (VStr "eq"))
  = Ok (normalized_validator (VStr "status_code") (VInt 201) (VStr "eq")).
Proof.
  apply (parse_validator_idempotent
           (VDict [(VStr "eq", VSeq KList [VStr "status_code"; VInt 201])])).
  reflexivity.
Defined.

(** ** The function registry *)

(** C8.  A name that is in no registry and that [eval] resolves to an object
    that cannot be called takes [get_mapping_function] past its last
    [if]: the function returns [None] where [FunctionNotFound] is due. *)
Theorem get_mapping_function_falls_through (H : Host) (function_name : string)
    (functions_mapping : gmap string FnObj) (v : Value) :
  functions_mapping !! function_name = None ->
  str_in function_name ["parameterize"; "P"; "environ"; "ENV"] = false ->
  builtin_functions H !! function_name = None ->
  py_eval H function_name = Ok (ObjValue v) ->
  get_mapping_function H function_name functions_mapping
  = Ok (ObjValue VNone).
Proof.
  intros Hf Hr Hb He. unfold get_mapping_function. rewrite Hf.
  unfold str_in in *. cbn [existsb] in *.
  apply orb_false_iff in Hr. destruct Hr as [H1 Hr].
  apply orb_false_iff in Hr. destruct Hr as [H2 Hr].
  apply orb_false_iff in Hr. destruct Hr as [H3 Hr].
  apply orb_false_iff in Hr. destruct Hr as [H4 _].
  rewrite H1, H2, H3, H4. cbn [orb]. rewrite Hb, He. reflexivity.
Qed.

Lemma get_mapping_function_falls_through_witness :
  get_mapping_function Demo.host "os" ∅ = Ok (ObjValue VNone).
Proof.
  apply (get_mapping_function_falls_through Demo.host "os" ∅ (VOther 0));
    reflexivity.
Defined.

(** The template [${os()}] is then prepared with [AttributeError], raised
    when [LazyFunction.__parse] reads the [__name__] of [None]. *)
Example prepare_unresolved_function :
  prepare_lazy_data Demo.host (VStr "${os()}") ∅ ∅ false
  = Raise (AttributeError "__name__").
Proof. vm_compute. reflexivity. Qed.

(** The four tiers in their order, and [FunctionNotFound] for a name that
    [eval] does not know. *)
Lemma get_mapping_function_user (H : Host) (name : string)
    (fm : gmap string FnObj) (f : FnObj) :
  fm !! name = Some f -> get_mapping_function H name fm = Ok (ObjFn f).
Proof. intros E. unfold get_mapping_function. now rewrite E. Qed.

Lemma get_mapping_function_unknown (H : Host) (name : string)
    (fm : gmap string FnObj) (m : string) :
  fm !! name = None ->
  str_in name ["parameterize"; "P"; "environ"; "ENV"] = false ->
  builtin_functions H !! name = None ->
  py_eval H name = Raise (NameError m) ->
  get_mapping_function H name fm
  = Raise (FunctionNotFound (name ++ " is not found.")%string).
Proof.
  intros Hf Hr Hb He. unfold get_mapping_function. rewrite Hf.
  unfold str_in in *. cbn [existsb] in *.
  apply orb_false_iff in Hr. destruct Hr as [H1 Hr].
  apply orb_false_iff in Hr. destruct Hr as [H2 Hr].
  apply orb_false_iff in Hr. destruct Hr as [H3 Hr].
  apply orb_false_iff in Hr. destruct Hr as [H4 _].
  rewrite H1, H2, H3, H4. cbn [orb]. rewrite Hb, He. reflexivity.
Qed.

(** ** Placeholders and slots *)

(** C3.  A reference that occurs twice is searched from the start of the
    previous match, not from its end: both occurrences get the same start
    position, the second entry of [args_mapping] replaces the first, and the
    template of ["$a$a"] has two placeholders for one slot. *)
Theorem LazyString_repeated_reference (H : Host)
    (functions_mapping : gmap string FnObj) (cached : bool) :
  exists ls,
    prepare_lazy_data H (VStr "$a$a") functions_mapping {["a"]} cached
    = Ok (VLazyString ls)
    /\ ls_string ls = "{}{}"
    /\ ls_args ls = [SVar "a"]
    /\ count_placeholders (ls_string ls) = 2%nat
    /\ length (ls_args ls) = 1%nat.
Proof.
  eexists. split; [vm_compute; reflexivity | ]. repeat split.
Qed.

(** The same with a function call that occurs twice, and a slot order that
    is not the order of the placeholders: the variable [$b] outside the
    calls is located at its first occurrence, inside the first call. *)
Example LazyString_repeated_call :
  exists ls,
    prepare_lazy_data Demo.host (VStr "${one()}${one()}") Demo.functions ∅
      false = Ok (VLazyString ls)
    /\ ls_string ls = "{}{}"
    /\ length (ls_args ls) = 1%nat.
Proof. eexists. split; [vm_compute; reflexivity | ]. split; reflexivity. Qed.

Example LazyString_slot_order :
  exists ls f g,
    prepare_lazy_data Demo.host (VStr "$a ${len($b)} ${one()} $b")
      Demo.functions {["a"; "b"]} false = Ok (VLazyString ls)
    /\ ls_string ls = "{} {} {} {}"
    /\ ls_args ls = [SVar "a"; SFunc f; SVar "b"; SFunc g]
    /\ fn_name (lf_func f) = "len" /\ fn_name (lf_func g) = "one".
Proof.
  do 3 eexists. split; [vm_compute; reflexivity | ]. repeat split.
Qed.

(** ** Evaluation of a [LazyString] *)

(** A template that is exactly [{}] gives the argument itself, of whatever
    type it is. *)
Lemma to_value_single_variable (H : Host) (raw : string)
    (fm : gmap string FnObj) (known : gset string) (cached : bool)
    (name : string) (variables_mapping : Variables) (cache : Cache)
    (v : Value) :
  variables_mapping !! name = Some v ->
  to_value H (mkLazyString raw fm known cached "{}" [SVar name])
    variables_mapping cache
  = Ok (mkEvaluated v (mkLazyString raw fm known cached "{}" [SVar name])
          cache).
Proof.
  intros E. unfold to_value, LazyString_to_value. cbn.
  unfold get_mapping_variable. rewrite E. reflexivity.
Qed.

(** A template that is exactly [{}] gives the first argument as it is,
    variable or function result alike. *)
Lemma to_value_single_placeholder (H : Host) (self : LazyString)
    (variables_mapping : Variables) (cache : Cache)
    (args : Evaluated (list Value) (list Slot)) (a : Value)
    (rest : list Value) :
  ls_string self = "{}" ->
  LazyString_args H (parse_lazy_data H) variables_mapping (ls_cached self)
    (ls_args self) cache = Ok args ->
  ev_value args = a :: rest ->
  exists self',
    to_value H self variables_mapping cache
    = Ok (mkEvaluated a self' (ev_cache args)).
Proof.
  intros T E A. unfold to_value, LazyString_to_value.
  rewrite E. cbn [bind]. rewrite T, A. cbn. eauto.
Qed.

(** In a template whose literal text has no brace, [format] replaces the
    placeholders from left to right by the text of the arguments. *)
Lemma py_format_literal (H : Host) (lit : string) (args : list Value) :
  Str.contains "{" lit = false -> Str.contains "}" lit = false ->
  py_format H lit args = Ok lit.
Proof.
  induction lit as [ | c t IH]; [reflexivity | ].
  cbn [Str.contains]. intros A B.
  apply orb_false_iff in A. destruct A as [A1 A2].
  apply orb_false_iff in B. destruct B as [B1 B2].
  destruct c as [[] [] [] [] [] [] [] []];
    try discriminate A1; try discriminate B1;
    cbn [py_format]; rewrite (IH A2 B2); reflexivity.
Qed.

Lemma py_format_placeholder (H : Host) (lit rest : string) (a : Value)
    (args : list Value) :
  Str.contains "{" lit = false -> Str.contains "}" lit = false ->
  py_format H (lit ++ "{}" ++ rest) (a :: args)
  = (r <- py_format H rest args ;; Ok (lit ++ py_str H a ++ r)%string).
Proof.
  induction lit as [ | c t IH].
  - intros _ _. reflexivity.
  - cbn [Str.contains]. intros A B.
    apply orb_false_iff in A. destruct A as [A1 A2].
    apply orb_false_iff in B. destruct B as [B1 B2].
    change (String c t ++ "{}" ++ rest)%string
      with (String c (t ++ "{}" ++ rest)).
    destruct c as [[] [] [] [] [] [] [] []];
      try discriminate A1; try discriminate B1;
      cbn [py_format]; rewrite (IH A2 B2);
      destruct (py_format H rest args); reflexivity.
Qed.

(** C4.  Braces of the raw string are not escaped in the template: prepared
    from the text [{$x}], the template is [{{}}], in which [format] reads
    two escaped braces and no placeholder; the value is the text [{}]
    whatever [x] is, not the text of [x] between braces. *)
Theorem to_value_literal_braces (H : Host)
    (functions_mapping : gmap string FnObj) (v : Value) (cache : Cache) :
  exists ls,
    prepare_lazy_data H (VStr "{$x}") functions_mapping {["x"]} false
    = Ok (VLazyString ls)
    /\ ls_string ls = "{{}}"
    /\ ls_args ls = [SVar "x"]
    /\ to_value H ls {["x" := v]} cache
       = Ok (mkEvaluated (VStr "{}") ls cache).
Proof.
  eexists. split; [vm_compute; reflexivity | ].
  split; [reflexivity | ]. split; [reflexivity | ].
  unfold to_value, LazyString_to_value. cbn.
  unfold get_mapping_variable. rewrite lookup_singleton_eq. reflexivity.
Qed.

(** ** The loop of the resolver *)

Lemma variables_pass_cyclic (H : Host) (ignore : bool) (cache : Cache) :
  variables_pass H ignore cyclic_mapping ∅ cache = Ok (∅, cache).
Proof. vm_compute. reflexivity. Qed.

(** C2.  On the mapping [{"A": "$B", "B": "$A"}] a run of the loop body
    resolves nothing and leaves the state as it was: the [while] condition
    never changes and the loop goes on for ever, however much fuel it is
    given. *)
Theorem parse_variables_mapping_cycle_diverges (H : Host) (fuel : nat)
    (ignore : bool) (cache : Cache) :
  parse_variables_mapping fuel H cyclic_mapping ignore cache = None.
Proof.
  unfold parse_variables_mapping.
  induction fuel as [ | n IH]; [reflexivity | ].
  cbn [parse_variables_loop].
  replace (size (∅ : Variables) =? length cyclic_mapping)%nat with false
    by (vm_compute; reflexivity).
  rewrite variables_pass_cyclic. exact IH.
Qed.

(** ** What an evaluation changes *)

Section Frame.
Context (H : Host).

Lemma frame_parse_items vm (items : list Value) :
  Forall (frame_parse H) items ->
  forall cache r,
    parse_items (parse_lazy_data H) vm items cache = Ok r ->
    frame (map erase_keys) items cache r.
Proof.
  induction 1 as [ | x t Hx Ht IH]; intros cache r E; cbn in E.
  - injection E as <-. split; [reflexivity | auto].
  - bind_inv E as r1 E1. bind_inv E as r2 E2. injection E as <-. cbn.
    apply Hx in E1. apply IH in E2.
    destruct E1 as [A1 B1], E2 as [A2 B2]. split.
    + cbn. now rewrite A1, A2.
    + auto.
Qed.

Lemma frame_parse_dict_items vm (items : list (Value * Value)) :
  Forall (fun kv => frame_parse H (fst kv) /\ frame_parse H (snd kv)) items ->
  forall parsed cache r,
    parse_dict_items H (parse_lazy_data H) vm items parsed cache = Ok r ->
    frame erase_items items cache r.
Proof.
  induction 1 as [ | kv t [Hk Hv] Ht IH]; intros parsed cache r E;
    cbn in E.
  - injection E as <-. split; [reflexivity | auto].
  - bind_inv E as r1 E1. bind_inv E as r2 E2.
    destruct (hashable (ev_value r1)); [ | discriminate E].
    bind_inv E as r3 E3. injection E as <-. cbn.
    apply Hk in E1. apply Hv in E2. apply IH in E3.
    destruct E1 as [A1 B1], E2 as [A2 B2], E3 as [A3 B3]. split.
    + cbn. unfold erase_items in A3. now rewrite A1, A2, A3.
    + auto.
Qed.

Lemma frame_LazyString_args vm cached (slots : list Slot) :
  Forall (frame_Slot H) slots ->
  forall cache r,
    LazyString_args H (parse_lazy_data H) vm cached slots cache = Ok r ->
    frame (map erase_keys_Slot) slots cache r.
Proof.
  induction 1 as [ | x t Hx Ht IH]; intros cache r E; cbn in E.
  - injection E as <-. split; [reflexivity | auto].
  - bind_inv E as r1 E1. bind_inv E as r2 E2. injection E as <-. cbn.
    apply Hx in E1. apply IH in E2.
    destruct E1 as [A1 B1], E2 as [A2 B2]. split.
    + cbn. now rewrite A1, A2.
    + auto.
Qed.

Lemma frame_case_LazyFunction f k c fn (a : list Value)
    (kw : list (Value * Value)) :
  Forall (frame_parse H) a ->
  Forall (fun kv => frame_parse H (fst kv) /\ frame_parse H (snd kv)) kw ->
  frame_LazyFunction H (mkLazyFunction f k c fn a kw).
Proof.
  intros Fa Fkw vm cache r E.
  unfold LazyFunction_to_value in E. cbn in E.
  bind_inv E as x1 E1. bind_inv E as x2 E2. bind_inv E as x3 E3.
  bind_inv E as x4 E4. injection E as <-.
  apply (frame_parse_items vm) in E1; [ | exact Fa].
  apply (frame_parse_dict_items vm) in E2; [ | exact Fkw].
  destruct E1 as [A1 B1], E2 as [A2 B2]. split; [ | auto].
  cbn. unfold erase_items in A2. now rewrite A1, A2.
Qed.

Lemma frame_case_SFunc (lf : LazyFunction) :
  frame_LazyFunction H lf -> frame_Slot H (SFunc lf).
Proof.
  intros F vm cached cache r E. cbn in E.
  destruct (cache_hit cached lf cache).
  - injection E as <-. split; [reflexivity | auto].
  - bind_inv E as x Ex. injection E as <-. apply F in Ex.
    destruct Ex as [A B]. split; [cbn; now rewrite A | ].
    intros k Hk. cbn.
    destruct (decide (lf_cache_key (ev_self x) = k)) as [-> | Hne].
    + rewrite lookup_insert_eq. eauto.
    + rewrite lookup_insert_ne by exact Hne. auto.
Qed.

Lemma frame_case_SVar (n : string) : frame_Slot H (SVar n).
Proof.
  intros vm cached cache r E. cbn in E. bind_inv E as x Ex.
  injection E as <-. split; [reflexivity | auto].
Qed.

Lemma frame_case_LazyString raw f k c s (a : list Slot) :
  Forall (frame_Slot H) a -> frame_LazyString H (mkLazyString raw f k c s a).
Proof.
  intros F vm cache r E.
  unfold to_value, LazyString_to_value in E. cbn in E.
  bind_inv E as x Ex.
  apply (frame_LazyString_args vm) in Ex; [ | exact F].
  destruct Ex as [A B].
  destruct (String.eqb s "{}").
  - destruct (ev_value x); [discriminate E | ]. injection E as <-.
    split; [cbn; now rewrite A | auto].
  - bind_inv E as y Ey. injection E as <-.
    split; [cbn; now rewrite A | auto].
Qed.

Lemma frame_parse_all (v : Value) : frame_parse H v.
Proof.
  revert v.
  apply (Value_mutind (frame_parse H) (frame_LazyString H) (frame_Slot H)
           (frame_LazyFunction H));
    try (intros; intros vm cache res E; cbn in E; injection E as <-;
         split; [reflexivity | auto]; fail).
  - intros k items F vm cache r E. cbn in E. bind_inv E as x Ex.
    injection E as <-. apply (frame_parse_items vm) in Ex; [ | exact F].
    destruct Ex as [A B]. split; [cbn; now rewrite A | auto].
  - intros items F vm cache r E. cbn in E. bind_inv E as x Ex.
    injection E as <-.
    apply (frame_parse_dict_items vm) in Ex; [ | exact F].
    destruct Ex as [A B]. split; [ | auto].
    cbn. unfold erase_items in A. now rewrite A.
  - intros ls F vm cache r E. cbn in E. bind_inv E as x Ex.
    injection E as <-. apply F in Ex.
    destruct Ex as [A B]. split; [cbn; now rewrite A | auto].
  - intros. now apply frame_case_LazyString.
  - apply frame_case_SVar.
  - apply frame_case_SFunc.
  - intros. now apply frame_case_LazyFunction.
Qed.

Lemma frame_LazyFunction_all (lf : LazyFunction) :
  frame_LazyFunction H lf.
Proof.
  destruct lf as [f k c fn a kw]. apply frame_case_LazyFunction.
  - apply Forall_forall. intros v _. apply frame_parse_all.
  - apply Forall_forall. intros kv _. split; apply frame_parse_all.
Qed.

Lemma frame_Slot_all (s : Slot) : frame_Slot H s.
Proof.
  destruct s as [n | lf].
  - apply frame_case_SVar.
  - apply frame_case_SFunc, frame_LazyFunction_all.
Qed.

Lemma frame_LazyString_all (ls : LazyString) : frame_LazyString H ls.
Proof.
  destruct ls as [raw f k c s a]. apply frame_case_LazyString.
  apply Forall_forall. intros x _. apply frame_Slot_all.
Qed.

Lemma LazyString_args_in_cache vm cached (slots : list Slot) :
  forall cache r,
    LazyString_args H (parse_lazy_data H) vm cached slots cache = Ok r ->
    Forall (slot_in_cache (ev_cache r)) (ev_self r).
Proof.
  induction slots as [ | s t IH]; intros cache r E; cbn in E.
  - injection E as <-. constructor.
  - bind_inv E as r1 E1. bind_inv E as r2 E2. injection E as <-. cbn.
    pose proof (frame_LazyString_args vm cached t) as Ft.
    specialize (Ft ltac:(apply Forall_forall; intros; apply frame_Slot_all)
                   _ _ E2).
    destruct Ft as [_ Mono].
    constructor; [ | now apply (IH _ _ E2)].
    destruct s as [n | lf]; cbn in E1.
    + bind_inv E1 as v Ev. injection E1 as <-. exact I.
    + unfold cache_hit in E1.
      destruct cached.
      * destruct (lf_cache_key lf) as [k | ] eqn:Hk.
        -- destruct (cache !! Some k) as [v | ] eqn:Hc.
           ++ injection E1 as <-. cbn. rewrite Hk. apply Mono. cbn. eauto.
           ++ bind_inv E1 as e Ee. injection E1 as <-. cbn.
              apply Mono. cbn. rewrite lookup_insert_eq. eauto.
        -- bind_inv E1 as e Ee. injection E1 as <-. cbn.
           apply Mono. cbn. rewrite lookup_insert_eq. eauto.
      * bind_inv E1 as e Ee. injection E1 as <-. cbn.
        apply Mono. cbn. rewrite lookup_insert_eq. eauto.
Qed.
End Frame.

(** C9.  An evaluation assigns [cache_key] and nothing else: after
    [LazyString.to_value] the object is what it was up to the [cache_key]
    of the [LazyFunction]s in it, at any depth, and so are its own fields;
    after [LazyFunction.to_value] the [cache_key] of the function is the key
    of this call (the name of the function, the [repr] of the list of the
    argument values and the [repr] of the [dict] of the keyword values the
    function was called with, the value returned being the result of that
    call) and its other fields are what they were, up to the [cache_key]s
    inside its arguments. *)
Theorem to_value_assigns_only_cache_key (H : Host)
    (variables_mapping : Variables) (cache : Cache) :
  (forall (self : LazyString) r,
      to_value H self variables_mapping cache = Ok r ->
      erase_keys_LazyString (ev_self r) = erase_keys_LazyString self
      /\ ls_raw_string (ev_self r) = ls_raw_string self
      /\ ls_functions_mapping (ev_self r) = ls_functions_mapping self
      /\ ls_check_variables_set (ev_self r) = ls_check_variables_set self
      /\ ls_cached (ev_self r) = ls_cached self
      /\ ls_string (ev_self r) = ls_string self
      /\ length (ls_args (ev_self r)) = length (ls_args self))
  /\ (forall (self : LazyFunction) r,
         LazyFunction_to_value H (parse_lazy_data H) variables_mapping self
           cache = Ok r ->
         erase_keys_LazyFunction (ev_self r) = erase_keys_LazyFunction self
         /\ lf_func (ev_self r) = lf_func self
         /\ exists args kwargs kw,
              parse_items (parse_lazy_data H) variables_mapping
                (lf_args self) cache = Ok args
              /\ parse_dict_items H (parse_lazy_data H) variables_mapping
                   (lf_kwargs self) [] (ev_cache args) = Ok kwargs
              /\ keywords (ev_value kwargs) = Ok kw
              /\ call H (lf_func self) (ev_value args) kw = Ok (ev_value r)
              /\ lf_cache_key (ev_self r)
                 = Some (fn_name (lf_func self),
                         py_repr H (VSeq KList (ev_value args)),
                         py_repr H (VDict (ev_value kwargs)))).
Proof.
  split.
  - intros self r E.
    destruct (frame_LazyString_all H self _ _ _ E) as [A _].
    split; [exact A | ].
    destruct self as [raw f k c s a], (ev_self r) as [raw' f' k' c' s' a'].
    cbn in *. injection A as -> -> -> -> -> A.
    repeat split. apply (f_equal (@length _)) in A.
    now rewrite !length_map in A.
  - intros self r E.
    destruct (frame_LazyFunction_all H self _ _ _ E) as [A _].
    split; [exact A | ].
    unfold LazyFunction_to_value in E.
    bind_inv E as x1 E1. bind_inv E as x2 E2. bind_inv E as x3 E3.
    bind_inv E as x4 E4. injection E as <-. cbn. split; [reflexivity | ].
    exists x1, x2, x3. repeat split; assumption.
Qed.

Lemma to_value_assigns_only_cache_key_witness :
  (exists ls r,
      to_value Demo.host ls ∅ ∅ = Ok r
      /\ ls_string (ev_self r) = ls_string ls
      /\ erase_keys_LazyString (ev_self r) = erase_keys_LazyString ls)
  /\ (exists q,
         LazyFunction_to_value Demo.host (parse_lazy_data Demo.host)
           {["a" := VInt 1]}
           (mkLazyFunction Demo.functions {["a"]} None Demo.add_fn
              [lazy_var Demo.functions {["a"]} "a"; VInt 1] []) ∅ = Ok q
         /\ ev_value q = VInt 2
         /\ lf_cache_key (ev_self q) = Some ("add", "[1, 1]", "{}")).
Proof.
  split.
  - exists (mkLazyString "${one()}" Demo.functions ∅ false "{}"
              [SFunc (mkLazyFunction Demo.functions ∅ None Demo.one_fn
                        [] [])]).
    eexists. split; [vm_compute; reflexivity | ].
    assert (E : to_value Demo.host
                  (mkLazyString "${one()}" Demo.functions ∅ false "{}"
                     [SFunc (mkLazyFunction Demo.functions ∅ None
                               Demo.one_fn [] [])]) ∅ ∅
                = Ok (mkEvaluated (VInt 1)
                        (mkLazyString "${one()}" Demo.functions ∅ false "{}"
                           [SFunc (mkLazyFunction Demo.functions ∅
                                     (Some ("one", "[]", "{}")) Demo.one_fn
                                     [] [])])
                        {[ Some ("one", "[]", "{}") := VInt 1 ]}))
      by (vm_compute; reflexivity).
    destruct (proj1 (to_value_assigns_only_cache_key Demo.host ∅ ∅) _ _ E)
      as (A & _ & _ & _ & _ & B & _).
    split; [exact B | exact A].
  - assert (E : LazyFunction_to_value Demo.host (parse_lazy_data Demo.host)
                  {["a" := VInt 1]}
                  (mkLazyFunction Demo.functions {["a"]} None Demo.add_fn
                     [lazy_var Demo.functions {["a"]} "a"; VInt 1] []) ∅
                = Ok (mkEvaluated (VInt 2)
                        (mkLazyFunction Demo.functions {["a"]}
                           (Some ("add", "[1, 1]", "{}")) Demo.add_fn
                           [lazy_var Demo.functions {["a"]} "a"; VInt 1] [])
                        ∅))
      by (vm_compute; reflexivity).
    eexists. split; [exact E | ]. split; [reflexivity | ].
    destruct (proj2 (to_value_assigns_only_cache_key Demo.host
                       {["a" := VInt 1]} ∅) _ _ E)
      as (_ & _ & args & kwargs & kw & Ea & Ek & _ & _ & K).
    vm_compute in Ea, Ek. injection Ea as <-. injection Ek as <-.
    exact K.
Defined.

(** The claim as it stands fails: evaluating the [LazyString] prepared from
    [${one()}] changes the [cache_key] of its [LazyFunction] from [None] to
    the key of the call. *)
Lemma to_value_mutates_LazyFunction :
  exists ls r,
    prepare_lazy_data Demo.host (VStr "${one()}") Demo.functions ∅ false
    = Ok (VLazyString ls)
    /\ to_value Demo.host ls ∅ ∅ = Ok r
    /\ ev_self r <> ls
    /\ ls_args ls
       = [SFunc (mkLazyFunction Demo.functions ∅ None Demo.one_fn [] [])]
    /\ ls_args (ev_self r)
       = [SFunc (mkLazyFunction Demo.functions ∅
                   (Some ("one", "[]", "{}")) Demo.one_fn [] [])].
Proof.
  do 2 eexists. split; [vm_compute; reflexivity | ].
  split; [vm_compute; reflexivity | ].
  split; [ | split; reflexivity].
  cbn. intros E. discriminate E.
Qed.



(** ** Self-references in the resolver *)

Section SelfReference.
Context (H : Host).

Lemma variables_pass_app (ignore : bool) (l1 l2 : list (string * Value))
    (parsed : Variables) (cache : Cache) :
  variables_pass H ignore (l1 ++ l2) parsed cache
  = match variables_pass H ignore l1 parsed cache with
    | Ok pc => variables_pass H ignore l2 (fst pc) (snd pc)
    | Raise e => Raise e
    end.
Proof.
  revert parsed cache.
  induction l1 as [ | [n v] t IH]; intros parsed cache; [reflexivity | ].
  cbn [app variables_pass].
  destruct (bool_decide (is_Some (parsed !! n))); [apply IH | ].
  destruct (bool_decide (n ∈ extract_variables v)).
  { destruct ignore; [apply IH | reflexivity]. }
  destruct (nonempty (elements (extract_variables v))
            && any_not_parsed (extract_variables v) parsed); [apply IH | ].
  destruct (parse_lazy_data H v parsed cache) as [r | e]; cbn [bind];
    [apply IH | reflexivity].
Qed.

(** A run of the loop body only adds keys of the items it goes through,
    and never changes an entry that is already there. *)
Lemma variables_pass_grows (ignore : bool) (l : list (string * Value))
    (parsed parsed' : Variables) (cache cache' : Cache) :
  variables_pass H ignore l parsed cache = Ok (parsed', cache') ->
  (forall n, is_Some (parsed' !! n) ->
             is_Some (parsed !! n) \/ In n (map fst l))
  /\ (forall n v, parsed !! n = Some v -> parsed' !! n = Some v).
Proof.
  revert parsed cache.
  induction l as [ | [n v] t IH]; intros parsed cache E; cbn in E.
  - injection E as <- <-. split; auto.
  - destruct (bool_decide (is_Some (parsed !! n))) eqn:Hin.
    { apply IH in E. destruct E as [A B]. split; [ | exact B].
      intros m Hm. destruct (A m Hm); [auto | right; now right]. }
    apply bool_decide_eq_false in Hin.
    assert (Hnone : parsed !! n = None).
    { destruct (parsed !! n) eqn:X; [ | reflexivity].
      exfalso. apply Hin. eauto. }
    assert (Step : forall x : Value,
               variables_pass H ignore t (<[n := x]> parsed) cache'
               = variables_pass H ignore t (<[n := x]> parsed) cache' ->
               True) by auto.
    clear Step.
    assert (Ins : forall (x : Value) c0,
               variables_pass H ignore t (<[n := x]> parsed) c0
               = Ok (parsed', cache') ->
               (forall m, is_Some (parsed' !! m) ->
                          is_Some (parsed !! m) \/ In m (map fst ((n, v) :: t)))
               /\ (forall m w, parsed !! m = Some w ->
                               parsed' !! m = Some w)).
    { intros x c0 E'. apply IH in E'. destruct E' as [A B]. split.
      - intros m Hm. destruct (A m Hm) as [X | X].
        + destruct (decide (n = m)) as [-> | Hne].
          * right. now left.
          * rewrite lookup_insert_ne in X by exact Hne. now left.
        + right. now right.
      - intros m w Hm. apply B.
        destruct (decide (n = m)) as [-> | Hne]; [congruence | ].
        now rewrite lookup_insert_ne. }
    destruct (bool_decide (n ∈ extract_variables v)).
    { destruct ignore; [ | discriminate E]. now apply Ins in E. }
    destruct (nonempty (elements (extract_variables v))
              && any_not_parsed (extract_variables v) parsed).
    { apply IH in E. destruct E as [A B]. split; [ | exact B].
      intros m Hm. destruct (A m Hm); [auto | right; now right]. }
    bind_inv E as r Er. now apply Ins in E.
Qed.

Section Entry.
Context (before after : list (string * Value)).
Context (name : string) (value : Value).
Let variables_mapping := before ++ (name, value) :: after.
Hypothesis self_reference : name ∈ extract_variables value.
Hypothesis distinct_keys : NoDup (map fst variables_mapping).

Lemma name_not_before : ~ In name (map fst before).
Proof.
  unfold variables_mapping in distinct_keys.
  rewrite map_app in distinct_keys. cbn in distinct_keys.
  apply NoDup_app in distinct_keys.
  destruct distinct_keys as (_ & D & _).
  intros X. apply list_elem_of_In in X. apply (D _ X). left.
Qed.

Lemma entry_value (v : Value) :
  In (name, v) variables_mapping -> v = value.
Proof.
  unfold variables_mapping in *. intros X.
  rewrite map_app in distinct_keys. cbn in distinct_keys.
  apply NoDup_app in distinct_keys.
  destruct distinct_keys as (_ & D & N).
  apply in_app_or in X. destruct X as [X | [X | X]].
  - exfalso. apply (D name).
    + apply list_elem_of_In, in_map_iff. now exists (name, v).
    + left.
  - congruence.
  - exfalso. apply NoDup_cons in N. destruct N as [N _]. apply N.
    apply list_elem_of_In, in_map_iff. now exists (name, v).
Qed.

(** With [ignore] false the first run of the loop body ends in an
    exception. *)
Lemma first_pass_raises (cache : Cache) :
  match variables_pass H false before ∅ cache with
  | Ok _ =>
      variables_pass H false variables_mapping ∅ cache
      = Raise (VariableNotFound name)
  | Raise e =>
      variables_pass H false variables_mapping ∅ cache = Raise e
  end.
Proof.
  unfold variables_mapping. rewrite variables_pass_app.
  destruct (variables_pass H false before ∅ cache) as [[p c] | e] eqn:E;
    [ | reflexivity].
  apply variables_pass_grows in E. destruct E as [A _]. cbn.
  assert (Hnone : bool_decide (is_Some (p !! name)) = false).
  { apply bool_decide_eq_false. intros X. destruct (A _ X) as [Y | Y].
    - rewrite lookup_empty in Y. now destruct Y.
    - now apply name_not_before. }
  rewrite Hnone.
  now rewrite (bool_decide_eq_true_2 _ self_reference).
Qed.

Lemma variables_pass_keeps_value (l : list (string * Value))
    (parsed parsed' : Variables) (cache cache' : Cache) :
  (forall v, In (name, v) l -> v = value) ->
  keeps_value name value parsed ->
  variables_pass H true l parsed cache = Ok (parsed', cache') ->
  keeps_value name value parsed'.
Proof.
  revert parsed cache.
  induction l as [ | [n v] t IH]; intros parsed cache Hl K E; cbn in E.
  - now injection E as <- <-.
  - assert (Ht : forall v0, In (name, v0) t -> v0 = value)
      by (intros v0 X; apply Hl; now right).
    destruct (bool_decide (is_Some (parsed !! n)));
      [eapply IH; [exact Ht | exact K | exact E] | ].
    destruct (bool_decide (n ∈ extract_variables v)) eqn:Hs.
    { eapply IH; [exact Ht | | exact E].
      intros w Hw. destruct (decide (n = name)) as [-> | Hne].
      - rewrite lookup_insert_eq in Hw. injection Hw as <-.
        apply Hl. now left.
      - rewrite lookup_insert_ne in Hw by exact Hne. now apply K. }
    destruct (nonempty (elements (extract_variables v))
              && any_not_parsed (extract_variables v) parsed);
      [eapply IH; [exact Ht | exact K | exact E] | ].
    bind_inv E as r Er.
    eapply IH; [exact Ht | | exact E].
    intros w Hw. destruct (decide (n = name)) as [-> | Hne].
    + apply bool_decide_eq_false in Hs.
      assert (v = value) by (apply Hl; now left). subst v.
      now destruct Hs.
    + rewrite lookup_insert_ne in Hw by exact Hne. now apply K.
Qed.

Lemma parse_variables_loop_keeps_value (fuel : nat)
    (parsed parsed' : Variables) (cache cache' : Cache) :
  keeps_value name value parsed ->
  (forall n, is_Some (parsed !! n) -> In n (map fst variables_mapping)) ->
  parse_variables_loop fuel H true variables_mapping parsed cache
  = Some (Ok (parsed', cache')) ->
  parsed' !! name = Some value.
Proof.
  revert parsed cache.
  induction fuel as [ | n IH]; intros parsed cache K D E;
    [discriminate E | ].
  cbn [parse_variables_loop] in E.
  destruct (size parsed =? length variables_mapping)%nat eqn:Hs.
  - injection E as <- <-. apply Nat.eqb_eq in Hs.
    assert (Hdom : dom parsed
                   = list_to_set (map fst variables_mapping)).
    { apply set_subseteq_size_eq.
      - intros x Hx. apply elem_of_dom in Hx.
        apply elem_of_list_to_set, list_elem_of_In. now apply D.
      - rewrite size_dom, size_list_to_set by exact distinct_keys.
        rewrite length_map. lia. }
    assert (Hin : name ∈ dom parsed).
    { rewrite Hdom. apply elem_of_list_to_set, list_elem_of_In.
      unfold variables_mapping. rewrite map_app. apply in_or_app.
      right. now left. }
    apply elem_of_dom in Hin. destruct Hin as [v Hv].
    now rewrite Hv, (K _ Hv).
  - destruct (variables_pass H true variables_mapping parsed cache)
      as [[p c] | e] eqn:Ep; [ | discriminate E].
    eapply IH; [ | | exact E].
    + eapply variables_pass_keeps_value; [ | exact K | exact Ep].
      apply entry_value.
    + intros m Hm. apply variables_pass_grows in Ep.
      destruct Ep as [A _]. destruct (A _ Hm); auto.
Qed.
End Entry.
End SelfReference.

(** C5.  A mapping with distinct keys has an entry [name] whose value
    references [name].  With [ignore] false the call ends, in the first run
    of the loop body, in an exception: [VariableNotFound] naming [name] when
    the entries before it are passed without an exception, the exception of
    an earlier entry otherwise.  With [ignore] true the value is put in the
    result as it is and the loop goes on with the rest; when the call
    returns, the result has the unchanged value under [name]. *)
Theorem parse_variables_mapping_self_reference (H : Host)
    (before after : list (string * Value)) (name : string) (value : Value)
    (cache : Cache) :
  name ∈ extract_variables value ->
  NoDup (map fst (before ++ (name, value) :: after)) ->
  (forall fuel,
      match variables_pass H false before ∅ cache with
      | Ok _ =>
          parse_variables_mapping (S fuel) H
            (before ++ (name, value) :: after) false cache
          = Some (Raise (VariableNotFound name))
      | Raise e =>
          parse_variables_mapping (S fuel) H
            (before ++ (name, value) :: after) false cache
          = Some (Raise e)
      end)
  /\ (forall rest parsed c,
         parsed !! name = None ->
         variables_pass H true ((name, value) :: rest) parsed c
         = variables_pass H true rest (<[name := value]> parsed) c)
  /\ (forall fuel parsed c,
         parse_variables_mapping fuel H (before ++ (name, value) :: after)
           true cache = Some (Ok (parsed, c)) ->
         parsed !! name = Some value).
Proof.
  intros Hself Hnd. split; [ | split].
  - intros fuel. unfold parse_variables_mapping.
    cbn [parse_variables_loop].
    replace (size (∅ : Variables)
             =? length (before ++ (name, value) :: after))%nat with false.
    2:{ symmetry. apply Nat.eqb_neq. rewrite map_size_empty, length_app.
        cbn. lia. }
    pose proof (first_pass_raises H before after name value Hself Hnd cache)
      as F.
    destruct (variables_pass H false before ∅ cache); now rewrite F.
  - intros rest parsed c Hn. cbn [variables_pass]. rewrite Hn.
    rewrite bool_decide_eq_false_2 by (intros [? ?]; discriminate).
    now rewrite (bool_decide_eq_true_2 _ Hself).
  - intros fuel parsed c E. unfold parse_variables_mapping in E.
    eapply (parse_variables_loop_keeps_value H before after name value
              Hself Hnd); [ | | exact E].
    + intros v Hv. rewrite lookup_empty in Hv. discriminate.
    + intros n [v Hv]. rewrite lookup_empty in Hv. discriminate.
Qed.

Lemma parse_variables_mapping_self_reference_witness :
  parse_variables_mapping 1 Demo.host [("token", lazy_var ∅ {["token"]} "token")]
    false ∅ = Some (Raise (VariableNotFound "token"))
  /\ (forall parsed c,
        parse_variables_mapping 2 Demo.host
          [("token", lazy_var ∅ {["token"]} "token")] true ∅
        = Some (Ok (parsed, c)) ->
        parsed !! "token" = Some (lazy_var ∅ {["token"]} "token")).
Proof.
  assert (S : "token" ∈ extract_variables (lazy_var ∅ {["token"]} "token"))
    by (vm_compute; set_solver).
  assert (D : NoDup (map fst ([] ++ [("token",
                                       lazy_var ∅ {["token"]} "token")])))
    by (cbn; apply NoDup_singleton).
  destruct (parse_variables_mapping_self_reference Demo.host [] [] "token"
              (lazy_var ∅ {["token"]} "token") ∅ S D) as (A & _ & C).
  split.
  - exact (A 0%nat).
  - intros parsed c. exact (C 2%nat parsed c).
Defined.

(** The claim as it stands fails when the self-reference is not the first
    thing to go wrong: of two self-references the first one is named, and
    an entry whose evaluation raises comes with its own exception. *)
Lemma parse_variables_mapping_other_exception_first :
  "b" ∈ extract_variables (lazy_var ∅ {["a"; "b"]} "b")
  /\ parse_variables_mapping 1 Demo.host two_self_references false ∅
     = Some (Raise (VariableNotFound "a"))
  /\ "t" ∈ extract_variables (lazy_var Demo.functions {["a"; "t"]} "t")
  /\ parse_variables_mapping 1 Demo.host failing_call_first false ∅
     = Some (Raise (OtherError "boom")).
Proof.
  split; [vm_compute; set_solver | ].
  split; [vm_compute; reflexivity | ].
  split; [vm_compute; set_solver | ].
  vm_compute. reflexivity.
Qed.

(** ** Facts on characters and strings *)

Module StrFacts.
Import Str.

#[local] Arguments String.append !_ _ /.

Lemma space_not_word c : is_space c = true -> is_word c = false.
Proof. destruct c as [[] [] [] [] [] [] [] []]; vm_compute; congruence. Qed.

Lemma space_not_dollar c : is_space c = true -> Ascii.eqb c "$" = false.
Proof. destruct c as [[] [] [] [] [] [] [] []]; vm_compute; congruence. Qed.

Lemma word_not_dollar c : is_word c = true -> Ascii.eqb c "$" = false.
Proof. destruct c as [[] [] [] [] [] [] [] []]; vm_compute; congruence. Qed.

Lemma argchar_not_brace c : is_argchar c = true -> Ascii.eqb c "{" = false.
Proof. destruct c as [[] [] [] [] [] [] [] []]; vm_compute; congruence. Qed.

Lemma space_argchar c : is_space c = true -> is_argchar c = true.
Proof. destruct c as [[] [] [] [] [] [] [] []]; vm_compute; congruence. Qed.

Lemma append_nil_r (s : string) : (s ++ "")%string = s.
Proof. induction s as [ | c t IH]; cbn; [reflexivity | now rewrite IH]. Qed.

Lemma append_assoc (a b c : string) :
  ((a ++ b) ++ c)%string = (a ++ (b ++ c))%string.
Proof. induction a as [ | x t IH]; cbn; [reflexivity | now rewrite IH]. Qed.

Lemma take_drop_while p (s : string) :
  (take_while p s ++ drop_while p s)%string = s.
Proof.
  induction s as [ | c t IH]; cbn; [reflexivity | ].
  destruct (p c); cbn; [now rewrite IH | reflexivity].
Qed.

Lemma all_chars_take_while p (s : string) :
  all_chars p (take_while p s) = true.
Proof.
  induction s as [ | c t IH]; cbn; [reflexivity | ].
  destruct (p c) eqn:E; cbn; [now rewrite E, IH | reflexivity].
Qed.

Lemma all_chars_app p (a b : string) :
  all_chars p (a ++ b) = all_chars p a && all_chars p b.
Proof.
  induction a as [ | c t IH]; cbn; [reflexivity | ].
  now rewrite IH, andb_assoc.
Qed.

Lemma all_chars_impl (p q : ascii -> bool) (s : string) :
  (forall c, p c = true -> q c = true) ->
  all_chars p s = true -> all_chars q s = true.
Proof.
  intros I. induction s as [ | c t IH]; cbn; [reflexivity | ].
  intros E. apply andb_true_iff in E. destruct E as [E1 E2].
  now rewrite (I _ E1), IH.
Qed.

(** What follows the longest prefix in [p] starts outside [p]. *)
Lemma take_while_drop_while p (s : string) :
  take_while p (drop_while p s) = "".
Proof.
  induction s as [ | c t IH]; cbn; [reflexivity | ].
  destruct (p c) eqn:E; [exact IH | cbn; now rewrite E].
Qed.

(** Appending to a string that has a character outside [p] changes
    neither its longest prefix in [p] nor where that prefix ends. *)
Lemma take_while_app_stop p (x y : string) :
  drop_while p x <> "" ->
  take_while p (x ++ y) = take_while p x
  /\ drop_while p (x ++ y) = (drop_while p x ++ y)%string.
Proof.
  induction x as [ | c t IH]; cbn; [congruence | ].
  destruct (p c); [ | now split].
  intros N. destruct (IH N) as [A B]. now rewrite A, B.
Qed.

Lemma take_while_app_all p (x y : string) :
  drop_while p x = "" ->
  take_while p (x ++ y) = (x ++ take_while p y)%string
  /\ drop_while p (x ++ y) = drop_while p y.
Proof.
  induction x as [ | c t IH]; cbn; [now split | ].
  destruct (p c); [ | discriminate].
  intros N. destruct (IH N) as [A B]. now rewrite A, B.
Qed.

Lemma take_while_all p (s : string) :
  all_chars p s = true -> take_while p s = s /\ drop_while p s = "".
Proof.
  induction s as [ | c t IH]; cbn; [now split | ].
  intros E. apply andb_true_iff in E. destruct E as [E1 E2].
  rewrite E1. destruct (IH E2) as [A B]. now rewrite A, B.
Qed.

(** White space only: nothing is left by [drop_while], and no word
    starts it. *)
Lemma space_take_word (b : string) :
  all_chars is_space b = true -> take_while is_word b = "".
Proof.
  destruct b as [ | c t]; cbn; [reflexivity | ].
  intros E. apply andb_true_iff in E. destruct E as [E _].
  now rewrite (space_not_word _ E).
Qed.

Lemma rstrip_split (s : string) :
  exists b, s = (rstrip s ++ b)%string /\ all_chars is_space b = true.
Proof.
  induction s as [ | c t (b & E & S)]; [now exists "" | ].
  cbn. destruct (is_space c && String.eqb (rstrip t) "") eqn:X.
  - apply andb_true_iff in X. destruct X as [X1 X2].
    apply String.eqb_eq in X2. exists (String c t). split; [reflexivity | ].
    cbn. rewrite X1. cbn. rewrite X2 in E. cbn in E. now rewrite E.
  - exists b. split; [cbn; now rewrite <- E | exact S].
Qed.

(** A string is its [strip] between two runs of white space. *)
Lemma strip_split (s : string) :
  exists a b,
    s = (a ++ strip s ++ b)%string
    /\ all_chars is_space a = true /\ all_chars is_space b = true.
Proof.
  unfold strip. destruct (rstrip_split (drop_while is_space s)) as (b & E & S).
  exists (take_while is_space s), b. split; [ | split].
  - rewrite <- E. symmetry. apply take_drop_while.
  - apply all_chars_take_while.
  - exact S.
Qed.

Lemma contains_app c (a b : string) :
  contains c (a ++ b) = contains c a || contains c b.
Proof.
  induction a as [ | x t IH]; cbn; [reflexivity | ].
  now rewrite IH, orb_assoc.
Qed.

Lemma contains_strip c (s : string) :
  contains c s = false -> contains c (strip s) = false.
Proof.
  destruct (strip_split s) as (a & b & E & _). intros C.
  rewrite E, !contains_app in C.
  apply orb_false_iff in C. destruct C as [_ C].
  apply orb_false_iff in C. now destruct C.
Qed.

Lemma contains_all_chars c p (s : string) :
  (forall x, p x = true -> Ascii.eqb x c = false) ->
  all_chars p s = true -> contains c s = false.
Proof.
  intros I. induction s as [ | x t IH]; cbn; [reflexivity | ].
  intros E. apply andb_true_iff in E. destruct E as [E1 E2].
  now rewrite (I _ E1), IH.
Qed.

Lemma all_chars_strip p (s : string) :
  all_chars p s = true -> all_chars p (strip s) = true.
Proof.
  destruct (strip_split s) as (a & b & E & _). intros C.
  rewrite E, !all_chars_app in C.
  apply andb_true_iff in C. destruct C as [_ C].
  apply andb_true_iff in C. now destruct C.
Qed.

Lemma all_chars_split p sep (s : string) :
  all_chars p s = true -> Forall (fun x => all_chars p x = true) (split sep s).
Proof.
  induction s as [ | x t IH]; cbn.
  - intros _. now repeat constructor.
  - intros E. apply andb_true_iff in E. destruct E as [E1 E2].
    specialize (IH E2). destruct (Ascii.eqb x sep).
    + constructor; [reflexivity | exact IH].
    + destruct (split sep t) as [ | q qs].
      * constructor; [cbn; now rewrite E1 | constructor].
      * apply Forall_cons in IH. destruct IH as [Hq Hqs].
        constructor; [cbn; now rewrite E1, Hq | exact Hqs].
Qed.

(** The pieces of a split have the characters of the string. *)
Lemma contains_split c sep (s : string) :
  contains c s = false ->
  Forall (fun p => contains c p = false) (split sep s).
Proof.
  induction s as [ | x t IH]; cbn.
  - intros _. now repeat constructor.
  - intros E. apply orb_false_iff in E. destruct E as [E1 E2].
    specialize (IH E2). destruct (Ascii.eqb x sep).
    + constructor; [reflexivity | exact IH].
    + destruct (split sep t) as [ | p ps].
      * constructor; [cbn; now rewrite E1 | constructor].
      * apply Forall_cons in IH. destruct IH as [Hp Hps].
        constructor; [cbn; now rewrite E1, Hp | exact Hps].
Qed.

End StrFacts.

(** ** Facts on the two scans *)

Module ScanFacts.
Import Str StrFacts.

#[local] Arguments String.append !_ _ /.

(** *** Variables *)

Lemma scan_variable_names (s : string) (k : nat) :
  word_prefix k s -> Re.scan Re.match_variable k s = variable_names s.
Proof.
  revert k. induction s as [ | c t IH]; intros k W.
  - destruct k; reflexivity.
  - destruct k as [ | k].
    + cbn [Re.scan variable_names Re.match_variable].
      destruct c as [b0 b1 b2 b3 b4 b5 b6 b7].
      destruct b0, b1, b2, b3, b4, b5, b6, b7;
        try (cbn; apply (IH 0%nat); exact I).
      cbn [Ascii.eqb Bool.eqb].
      destruct (String.eqb (take_while is_word t) "") eqn:E.
      * apply (IH 0%nat). exact I.
      * cbn [Nat.pred]. f_equal. apply IH.
        clear. induction t as [ | c t IH]; cbn; [exact I | ].
        destruct (is_word c) eqn:E; cbn; [split; [exact E | exact IH] | exact I].
    + cbn in W. destruct W as [W1 W2]. cbn [Re.scan variable_names].
      rewrite (word_not_dollar _ W1). now apply IH.
Qed.

Lemma regex_findall_variables_names (s : string) :
  regex_findall_variables s = variable_names s.
Proof. apply scan_variable_names. exact I. Qed.

(** A prefix without a dollar sign has no name and hides none. *)
Lemma variable_names_prefix (a x : string) :
  contains "$" a = false -> variable_names (a ++ x) = variable_names x.
Proof.
  induction a as [ | c t IH]; cbn; [reflexivity | ].
  intros E. apply orb_false_iff in E. destruct E as [E1 E2].
  rewrite E1. now apply IH.
Qed.

(** The names of a concatenation whose second part does not start with a
    word character. *)
Lemma variable_names_app (a b : string) :
  take_while is_word b = "" ->
  variable_names (a ++ b) = variable_names a ++ variable_names b.
Proof.
  intros B. induction a as [ | c t IH]; cbn; [reflexivity | ].
  assert (T : take_while is_word (t ++ b) = take_while is_word t).
  { destruct (drop_while is_word t) as [ | d r] eqn:D.
    - destruct (take_while_app_all is_word t b D) as [X _].
      rewrite X, B, append_nil_r.
      pose proof (take_drop_while is_word t) as Y. rewrite D in Y.
      now rewrite append_nil_r in Y.
    - apply take_while_app_stop. congruence. }
  rewrite T, IH.
  destruct (Ascii.eqb c "$"); [ | reflexivity].
  destruct (String.eqb (take_while is_word t) ""); reflexivity.
Qed.

Lemma variable_names_no_dollar (s : string) :
  contains "$" s = false -> variable_names s = [].
Proof.
  intros E. rewrite <- (append_nil_r s). now rewrite variable_names_prefix.
Qed.

Lemma variable_names_dollar (s : string) (n : string) :
  In n (variable_names s) -> contains "$" s = true.
Proof.
  intros I. destruct (contains "$" s) eqn:E; [reflexivity | ].
  rewrite variable_names_no_dollar in I by exact E. destruct I.
Qed.

Lemma space_no_dollar (b : string) :
  all_chars is_space b = true -> contains "$" b = false.
Proof. apply contains_all_chars, space_not_dollar. Qed.

Lemma variable_names_strip (s : string) :
  variable_names (strip s) = variable_names s.
Proof.
  destruct (strip_split s) as (a & b & E & A & B).
  rewrite E at 2.
  rewrite variable_names_prefix by now apply space_no_dollar.
  rewrite variable_names_app by now apply space_take_word.
  rewrite (variable_names_no_dollar b) by now apply space_no_dollar.
  now rewrite app_nil_r.
Qed.

Lemma split_nonempty sep (s : string) : split sep s <> [].
Proof.
  destruct s as [ | c t]; cbn; [discriminate | ].
  destruct (Ascii.eqb c sep); [discriminate | ].
  destruct (split sep t); discriminate.
Qed.

(** The first piece of a split ends where the string ends or a separator
    stands: up to there the word characters are the same. *)
Lemma split_head_word sep (s p : string) (ps : list string) :
  is_word sep = false ->
  split sep s = p :: ps ->
  take_while is_word s = take_while is_word p.
Proof.
  intros W. revert p ps. induction s as [ | c t IH]; intros p ps S.
  - cbn in S. now injection S as <- <-.
  - cbn [split] in S. destruct (Ascii.eqb c sep) eqn:E.
    + injection S as <- <-. apply Ascii.eqb_eq in E. subst c.
      cbn. now rewrite W.
    + destruct (split sep t) as [ | p' ps'] eqn:S'.
      * now destruct (split_nonempty sep t).
      * injection S as <- <-. cbn. now rewrite (IH p' ps' eq_refl).
Qed.

(** The names of a string are the names of the pieces between separators
    that are neither word characters nor dollar signs. *)
Lemma variable_names_split sep (s : string) :
  is_word sep = false -> Ascii.eqb sep "$" = false ->
  concat (map variable_names (split sep s)) = variable_names s.
Proof.
  intros W D. induction s as [ | c t IH]; [reflexivity | ].
  cbn [split]. destruct (Ascii.eqb c sep) eqn:E.
  - apply Ascii.eqb_eq in E. subst c. cbn. now rewrite D, IH.
  - destruct (split sep t) as [ | p ps] eqn:S.
    + now destruct (split_nonempty sep t).
    + cbn [map concat] in *. cbn [variable_names].
      rewrite (split_head_word sep t p ps W S).
      destruct (Ascii.eqb c "$"); [ | exact IH].
      destruct (String.eqb (take_while is_word p) ""); [exact IH | ].
      cbn. now rewrite IH.
Qed.

Lemma variable_names_in_split sep (s : string) (n : string) :
  is_word sep = false -> Ascii.eqb sep "$" = false ->
  In n (variable_names s) ->
  Exists (fun p => In n (variable_names p)) (split sep s).
Proof.
  intros W D I. rewrite <- (variable_names_split sep s W D) in I.
  apply in_concat in I. destruct I as (l & L & I).
  apply in_map_iff in L. destruct L as (p & <- & P).
  apply Exists_exists. exists p. split; [ | exact I].
  now apply list_elem_of_In.
Qed.

(** *** Function calls *)

Lemma scan_Forall {A : Type} (m : string -> option (A * nat))
    (P : A -> Prop) :
  (forall s a len, m s = Some (a, len) -> P a) ->
  forall s k, Forall P (Re.scan m k s).
Proof.
  intros M. induction s as [ | c t IH]; intros k.
  - destruct k; cbn; [ | constructor].
    destruct (m "") as [[a len] | ] eqn:E; [ | constructor].
    constructor; [now apply (M _ _ _ E) | constructor].
  - destruct k; cbn; [ | apply IH].
    destruct (m (String c t)) as [[a len] | ] eqn:E; [ | apply IH].
    constructor; [now apply (M _ _ _ E) | apply IH].
Qed.

(** What the function pattern captures: a name of word characters and an
    argument text in the argument class. *)
Lemma match_function_chars (s name args : string) (len : nat) :
  Re.match_function s = Some ((name, args), len) ->
  all_chars is_word name = true /\ all_chars is_argchar args = true.
Proof.
  unfold Re.match_function.
  destruct s as [ | c0 [ | c1 t]]; try discriminate.
  - destruct c0 as [[] [] [] [] [] [] [] []]; discriminate.
  - destruct c0 as [[] [] [] [] [] [] [] []]; try discriminate.
    destruct c1 as [[] [] [] [] [] [] [] []]; try discriminate.
    destruct (String.eqb (take_while is_word t) ""); [discriminate | ].
    destruct (drop_while is_word t) as [ | d t1]; [discriminate | ].
    destruct d as [[] [] [] [] [] [] [] []]; try discriminate.
    destruct (drop_while is_argchar t1) as [ | e [ | f r]]; try discriminate.
    + destruct e as [[] [] [] [] [] [] [] []]; discriminate.
    + destruct e as [[] [] [] [] [] [] [] []]; try discriminate.
      destruct f as [[] [] [] [] [] [] [] []]; try discriminate.
      intros [= <- <- _]. split; apply all_chars_take_while.
Qed.

Lemma regex_findall_functions_chars (s : string) :
  Forall (fun m => all_chars is_word (fst m) = true
                   /\ all_chars is_argchar (snd m) = true)
         (regex_findall_functions s).
Proof.
  apply scan_Forall. intros s' [name args] len E.
  now apply match_function_chars in E.
Qed.

Lemma match_function_brace (s : string) :
  contains "{" s = false -> Re.match_function s = None.
Proof.
  unfold Re.match_function.
  destruct s as [ | c0 [ | c1 t]]; try reflexivity.
  - destruct c0 as [[] [] [] [] [] [] [] []]; reflexivity.
  - destruct c0 as [[] [] [] [] [] [] [] []]; try reflexivity.
    destruct c1 as [[] [] [] [] [] [] [] []]; try reflexivity.
    cbn. discriminate.
Qed.

(** No brace, no function call. *)
Lemma scan_function_brace_free (s : string) (k : nat) :
  contains "{" s = false -> Re.scan Re.match_function k s = [].
Proof.
  revert k. induction s as [ | c t IH]; intros k E.
  - destruct k; reflexivity.
  - assert (Et : contains "{" t = false).
    { cbn in E. apply orb_false_iff in E. now destruct E. }
    destruct k; cbn [Re.scan]; [ | now apply IH].
    rewrite (match_function_brace _ E). now apply IH.
Qed.

Lemma regex_findall_functions_brace_free (s : string) :
  brace_free s -> regex_findall_functions s = [].
Proof. apply scan_function_brace_free. Qed.

Lemma match_function_not_dollar (c : ascii) (t : string) :
  Ascii.eqb c "$" = false -> Re.match_function (String c t) = None.
Proof.
  intros E. unfold Re.match_function.
  destruct c as [[] [] [] [] [] [] [] []]; try reflexivity. discriminate E.
Qed.

Lemma scan_function_no_dollar (s : string) (k : nat) :
  contains "$" s = false -> Re.scan Re.match_function k s = [].
Proof.
  revert k. induction s as [ | c t IH]; intros k E.
  - destruct k; reflexivity.
  - cbn in E. apply orb_false_iff in E. destruct E as [E1 E2].
    destruct k; cbn [Re.scan]; [ | now apply IH].
    rewrite (match_function_not_dollar _ _ E1). now apply IH.
Qed.

Lemma scan_function_prefix (a x : string) :
  contains "$" a = false ->
  Re.scan Re.match_function 0 (a ++ x) = Re.scan Re.match_function 0 x.
Proof.
  induction a as [ | c t IH]; [reflexivity | ].
  intros E. cbn in E. apply orb_false_iff in E. destruct E as [E1 E2].
  cbn [String.append Re.scan].
  rewrite (match_function_not_dollar _ _ E1). now apply IH.
Qed.

(** White space after a string neither completes nor spoils a match. *)
Lemma match_function_app_space (t b : string) :
  all_chars is_space b = true ->
  Re.match_function (t ++ b) = Re.match_function t.
Proof.
  intros B.
  assert (B0 : forall c r, b = String c r -> is_space c = true).
  { intros c r ->. cbn in B. apply andb_true_iff in B. now destruct B. }
  destruct t as [ | c0 t].
  { cbn. destruct b as [ | c r]; [reflexivity | ].
    apply match_function_not_dollar, space_not_dollar. now apply (B0 c r). }
  destruct (Ascii.eqb c0 "$") eqn:E0.
  2:{ cbn [String.append]. now rewrite !match_function_not_dollar. }
  apply Ascii.eqb_eq in E0. subst c0.
  destruct t as [ | c1 t].
  { cbn. destruct b as [ | c r]; [reflexivity | ].
    specialize (B0 c r eq_refl).
    destruct c as [[] [] [] [] [] [] [] []]; try reflexivity.
    discriminate B0. }
  cbn [String.append]. unfold Re.match_function.
  destruct (Ascii.eqb c1 "{") eqn:E1.
  2:{ destruct c1 as [[] [] [] [] [] [] [] []]; try reflexivity.
      discriminate E1. }
  apply Ascii.eqb_eq in E1. subst c1.
  destruct (drop_while is_word t) as [ | d t1] eqn:D.
  - (* the name runs to the end of [t] *)
    destruct (take_while_app_all is_word t b D) as [X Y].
    rewrite X, Y, (space_take_word b B), append_nil_r.
    pose proof (take_drop_while is_word t) as Z. rewrite D in Z.
    rewrite append_nil_r in Z. rewrite Z.
    destruct (String.eqb t ""); [reflexivity | ].
    destruct b as [ | c r]; cbn; [reflexivity | ].
    specialize (B0 c r eq_refl). rewrite (space_not_word _ B0).
    destruct c as [[] [] [] [] [] [] [] []]; try reflexivity.
    discriminate B0.
  - destruct (take_while_app_stop is_word t b) as [X Y]; [congruence | ].
    rewrite X, Y, D. cbn [String.append].
    destruct (String.eqb (take_while is_word t) ""); [reflexivity | ].
    destruct (Ascii.eqb d "(") eqn:Ed.
    2:{ destruct d as [[] [] [] [] [] [] [] []]; try reflexivity.
        discriminate Ed. }
    apply Ascii.eqb_eq in Ed. subst d.
    destruct (drop_while is_argchar t1) as [ | e r1] eqn:D1.
    + destruct (take_while_app_all is_argchar t1 b D1) as [X1 Y1].
      rewrite Y1.
      assert (A : all_chars is_argchar b = true)
        by (eapply all_chars_impl; [apply space_argchar | exact B]).
      destruct (take_while_all is_argchar b A) as [_ Z]. now rewrite Z.
    + destruct (take_while_app_stop is_argchar t1 b) as [X1 Y1];
        [congruence | ].
      rewrite X1, Y1, D1. cbn [String.append].
      destruct (Ascii.eqb e ")") eqn:Ee.
      2:{ destruct e as [[] [] [] [] [] [] [] []]; try reflexivity.
          discriminate Ee. }
      apply Ascii.eqb_eq in Ee. subst e.
      destruct r1 as [ | f r2]; cbn [String.append].
      * destruct b as [ | c r]; [reflexivity | ].
        specialize (B0 c r eq_refl).
        destruct c as [[] [] [] [] [] [] [] []]; try reflexivity.
        discriminate B0.
      * destruct f as [[] [] [] [] [] [] [] []]; reflexivity.
Qed.

Lemma scan_function_suffix (t b : string) (k : nat) :
  all_chars is_space b = true ->
  Re.scan Re.match_function k (t ++ b) = Re.scan Re.match_function k t.
Proof.
  intros B. revert k. induction t as [ | c t IH]; intros k.
  - cbn [String.append].
    rewrite scan_function_no_dollar by now apply space_no_dollar.
    destruct k; reflexivity.
  - destruct k.
    + change (String c t ++ b)%string with (String c (t ++ b)).
      cbn [Re.scan].
      change (String c (t ++ b)) with (String c t ++ b)%string.
      rewrite (match_function_app_space (String c t) b B).
      destruct (Re.match_function (String c t)) as [[a len] | ];
        now rewrite IH.
    + cbn [String.append Re.scan]. apply IH.
Qed.

Lemma regex_findall_functions_strip (s : string) :
  regex_findall_functions (strip s) = regex_findall_functions s.
Proof.
  destruct (strip_split s) as (a & b & E & A & B).
  rewrite E at 2. unfold regex_findall_functions, Re.findall.
  rewrite scan_function_prefix by now apply space_no_dollar.
  now rewrite scan_function_suffix.
Qed.

End ScanFacts.

(** ** Facts on [index] and [replace] *)

Module ReplaceFacts.
Import Str StrFacts ScanFacts.

#[local] Arguments String.append !_ _ /.

Lemma starts_with_app (p s : string) : starts_with p (p ++ s) = true.
Proof.
  induction p as [ | c t IH]; cbn; [reflexivity | ].
  now rewrite Ascii.eqb_refl, IH.
Qed.

Lemma starts_with_split (p s : string) :
  starts_with p s = true -> s = (p ++ drop (String.length p) s)%string.
Proof.
  revert s. induction p as [ | c t IH]; intros s E; [reflexivity | ].
  destruct s as [ | d s]; [discriminate | ]. cbn in E.
  apply andb_true_iff in E. destruct E as [E1 E2].
  apply Ascii.eqb_eq in E1. subst d. cbn. f_equal. now apply IH.
Qed.

(** [replace_first] leaves the string alone or replaces one occurrence. *)
Lemma replace_first_spec (s old new : string) :
  replace_first s old new = s
  \/ exists a b, s = (a ++ old ++ b)%string
                 /\ replace_first s old new = (a ++ new ++ b)%string.
Proof.
  induction s as [ | c t IH].
  - cbn. destruct (starts_with old "") eqn:E; [ | now left].
    right. exists "", "". destruct old; [ | discriminate].
    cbn. now rewrite append_nil_r.
  - cbn [replace_first].
    destruct (starts_with old (String c t)) eqn:E.
    + right. exists "", (drop (String.length old) (String c t)).
      split; [ | reflexivity]. cbn [String.append].
      now apply starts_with_split.
    + destruct IH as [IH | (a & b & E1 & E2)].
      * left. now rewrite IH.
      * right. exists (String c a), b. cbn [String.append].
        now rewrite <- E1, E2.
Qed.

(** The names lost by replacing the text of a function call with a
    placeholder are names of its argument text. *)
Lemma variable_names_function (name args b : string) :
  all_chars is_word name = true ->
  variable_names ("${" ++ name ++ "(" ++ args ++ ")}" ++ b)
  = variable_names args ++ variable_names b.
Proof.
  intros W. cbn [String.append variable_names Ascii.eqb Bool.eqb take_while].
  change (is_word "{") with false. cbn [String.eqb].
  rewrite variable_names_prefix
    by (eapply contains_all_chars; [apply word_not_dollar | exact W]).
  cbn [variable_names Ascii.eqb Bool.eqb].
  rewrite variable_names_app by reflexivity.
  reflexivity.
Qed.

Lemma variable_names_replace_function (s name args : string) (n : string) :
  all_chars is_word name = true ->
  In n (variable_names s) ->
  In n (variable_names
          (replace_first s ("${" ++ name ++ "(" ++ args ++ ")}") "{}"))
  \/ In n (variable_names args).
Proof.
  intros W I.
  destruct (replace_first_spec s ("${" ++ name ++ "(" ++ args ++ ")}") "{}")
    as [E | (a & b & E1 & E2)].
  - left. now rewrite E.
  - rewrite E2. rewrite E1 in I.
    rewrite variable_names_app in I by reflexivity.
    rewrite variable_names_app by reflexivity.
    replace (("${" ++ name ++ "(" ++ args ++ ")}") ++ b)%string
      with ("${" ++ name ++ "(" ++ args ++ ")}" ++ b)%string in I
      by (now rewrite !append_assoc).
    rewrite variable_names_function in I by exact W.
    cbn [String.append variable_names Ascii.eqb Bool.eqb].
    apply in_app_or in I. destruct I as [I | I].
    + left. apply in_or_app. now left.
    + apply in_app_or in I. destruct I as [I | I]; [now right | ].
      left. apply in_or_app. now right.
Qed.

Lemma find_app (sub a b : string) :
  exists j, find sub (a ++ sub ++ b) = Some j /\ (j <= String.length a)%nat.
Proof.
  induction a as [ | c t (j & E & L)].
  - exists 0%nat. cbn [String.append].
    destruct (sub ++ b)%string eqn:X; cbn [find];
      rewrite <- X, starts_with_app; split; try reflexivity; cbn; lia.
  - cbn [String.append find].
    destruct (starts_with sub (String c (t ++ sub ++ b))).
    + exists 0%nat. split; [reflexivity | cbn; lia].
    + exists (S j). rewrite E. split; [reflexivity | cbn; lia].
Qed.

Lemma drop_add (j k : nat) (s : string) : drop (k + j) s = drop j (drop k s).
Proof.
  revert s. induction k as [ | k IH]; intros s; [reflexivity | ].
  destruct s as [ | c t]; cbn; [now destruct j | apply IH].
Qed.

Lemma drop_app_le (j : nat) (a b : string) :
  (j <= String.length a)%nat -> drop j (a ++ b) = (drop j a ++ b)%string.
Proof.
  revert a. induction j as [ | j IH]; intros a L; [reflexivity | ].
  destruct a as [ | c t]; cbn in *; [lia | ]. apply IH. lia.
Qed.

Lemma drop_length (k : nat) (s : string) :
  drop k s <> "" -> (k <= String.length s)%nat.
Proof.
  revert s. induction k as [ | k IH]; intros s N; [lia | ].
  destruct s as [ | c t]; cbn in *; [congruence | ].
  specialize (IH _ N). lia.
Qed.

(** A string whose names start with [n] reads: something without a name,
    the reference to [n], and a rest with the other names. *)
Lemma variable_names_cons (u : string) (n : string) (rest : list string) :
  variable_names u = n :: rest ->
  exists y u', u = (y ++ ("$" ++ n) ++ u')%string
               /\ variable_names u' = rest.
Proof.
  induction u as [ | c t IH]; [discriminate | ].
  cbn [variable_names]. destruct (Ascii.eqb c "$") eqn:E.
  - destruct (String.eqb (take_while is_word t) "") eqn:W.
    + intros X. destruct (IH X) as (y & u' & E1 & E2).
      exists (String c y), u'. cbn [String.append]. now rewrite E1.
    + intros [= <- <-]. apply Ascii.eqb_eq in E. subst c.
      exists "", (drop_while is_word t). split.
      * cbn [String.append]. now rewrite take_drop_while.
      * rewrite <- (take_drop_while is_word t) at 2.
        rewrite variable_names_prefix; [reflexivity | ].
        eapply contains_all_chars; [apply word_not_dollar | ].
        apply all_chars_take_while.
  - intros X. destruct (IH X) as (y & u' & E1 & E2).
    exists (String c y), u'. cbn [String.append]. now rewrite E1.
Qed.

End ReplaceFacts.

(** ** Texts that occur one after the other *)

Module EmbedFacts.
Import Str StrFacts ScanFacts ReplaceFacts.

#[local] Arguments String.append !_ _ /.

Lemma string_length_app (a b : string) :
  String.length (a ++ b) = (String.length a + String.length b)%nat.
Proof. induction a as [ | c t IH]; cbn; [reflexivity | now rewrite IH]. Qed.

Lemma drop_whole_prefix (a b : string) : drop (String.length a) (a ++ b) = b.
Proof. induction a as [ | c t IH]; cbn; [reflexivity | exact IH]. Qed.

Lemma embeds_prefix (texts : list string) (z u : string) :
  embeds texts u -> embeds texts (z ++ u).
Proof.
  destruct texts as [ | t r]; [auto | ].
  cbn [embeds]. intros (y & u' & -> & E).
  exists (z ++ y)%string, u'. split; [ | exact E].
  now rewrite append_assoc.
Qed.

Lemma embeds_sublist (l1 l2 : list string) :
  sublist l1 l2 -> forall u, embeds l2 u -> embeds l1 u.
Proof.
  induction 1 as [ | x l1 l2 S IH | x l1 l2 S IH]; intros u E.
  - exact I.
  - cbn [embeds] in *. destruct E as (y & u' & -> & E).
    exists y, u'. split; [reflexivity | now apply IH].
  - cbn [embeds] in E. destruct E as (y & u' & -> & E).
    rewrite <- append_assoc. apply embeds_prefix. now apply IH.
Qed.

Lemma embeds_In (texts : list string) (t : string) :
  In t texts ->
  forall u, embeds texts u -> exists y u', u = (y ++ t ++ u')%string.
Proof.
  induction texts as [ | a r IH]; intros I u E; [destruct I | ].
  cbn [embeds] in E. destruct E as (y & u' & -> & E).
  destruct I as [<- | I]; [eauto | ].
  destruct (IH I _ E) as (y2 & u2 & ->).
  exists (y ++ a ++ y2)%string, u2. now rewrite !append_assoc.
Qed.

(** The names of a string occur in it, as references, in their order. *)
Lemma variable_names_embeds (names : list string) :
  forall u,
    variable_names u = names ->
    embeds (map (String.append "$") names) u.
Proof.
  induction names as [ | n rest IH]; intros u E; [exact I | ].
  destruct (variable_names_cons u n rest E) as (y & u' & Eu & Vu).
  cbn [map embeds]. exists y, u'. split; [exact Eu | now apply IH].
Qed.

(** A match of the function pattern is the text of the call, as it is put
    together again, at the start of the string. *)
Lemma match_function_text (s : string) (m : string * string) (len : nat) :
  Re.match_function s = Some (m, len) ->
  exists rest,
    s = (call_text m ++ rest)%string /\ len = String.length (call_text m).
Proof.
  unfold Re.match_function.
  destruct s as [ | c0 [ | c1 t]]; try discriminate.
  - destruct c0 as [[] [] [] [] [] [] [] []]; discriminate.
  - destruct c0 as [[] [] [] [] [] [] [] []]; try discriminate.
    destruct c1 as [[] [] [] [] [] [] [] []]; try discriminate.
    destruct (String.eqb (take_while is_word t) ""); [discriminate | ].
    destruct (drop_while is_word t) as [ | d t1] eqn:D; [discriminate | ].
    destruct d as [[] [] [] [] [] [] [] []]; try discriminate.
    destruct (drop_while is_argchar t1) as [ | e [ | f r]] eqn:D2;
      try discriminate.
    + destruct e as [[] [] [] [] [] [] [] []]; discriminate.
    + destruct e as [[] [] [] [] [] [] [] []]; try discriminate.
      destruct f as [[] [] [] [] [] [] [] []]; try discriminate.
      intros [= <- <-]. exists r. unfold call_text. cbn [fst snd]. split.
      * rewrite <- (take_drop_while is_word t) at 1. rewrite D.
        rewrite <- (take_drop_while is_argchar t1) at 1. rewrite D2.
        cbn [String.append]. do 2 f_equal.
        rewrite !append_assoc. cbn [String.append].
        rewrite !append_assoc. reflexivity.
      * cbn [String.append String.length]. rewrite string_length_app.
        cbn [String.length]. rewrite string_length_app. cbn. lia.
Qed.

(** The calls found by the scan occur in the string in their order. *)
Lemma scan_function_embeds (s : string) :
  forall k,
    embeds (map call_text (Re.scan Re.match_function k s)) (drop k s).
Proof.
  induction s as [ | c t IH]; intros k.
  - destruct k; exact I.
  - destruct k as [ | k]; [ | cbn [Re.scan drop]; apply IH].
    cbn [Re.scan drop].
    destruct (Re.match_function (String c t)) as [[m len] | ] eqn:M.
    + destruct (match_function_text _ _ _ M) as (rest & Es & El).
      cbn [map embeds]. exists "", rest. split; [exact Es | ].
      specialize (IH (Nat.pred len)).
      assert (X : drop (Nat.pred len) t = rest).
      { assert (L : len = S (Nat.pred len)).
        { rewrite El. unfold call_text. cbn. lia. }
        change (drop (Nat.pred len) t)
          with (drop (S (Nat.pred len)) (String c t)).
        rewrite <- L, Es, El. apply drop_whole_prefix. }
      now rewrite X in IH.
    + specialize (IH 0%nat). cbn [drop] in IH.
      change (String c t) with (String c "" ++ t)%string.
      now apply embeds_prefix.
Qed.

(** [index] finds a text that occurs after the start position, at or
    before the occurrence. *)
Lemma index_embeds (raw t x u' : string) (pos : nat) :
  t <> "" ->
  drop pos raw = (x ++ t ++ u')%string ->
  exists j x',
    index raw t pos = Some j /\ drop j raw = (x' ++ t ++ u')%string.
Proof.
  intros N D. destruct (find_app t x u') as (j & Fj & Lj).
  unfold index.
  assert (Lp : (pos <=? String.length raw)%nat = true).
  { apply Nat.leb_le, drop_length. rewrite D.
    destruct x; [ | discriminate]. destruct t; [congruence | discriminate]. }
  rewrite Lp, D, Fj. cbn [option_map].
  exists (pos + j)%nat, (drop j x). split; [reflexivity | ].
  now rewrite drop_add, D, drop_app_le by exact Lj.
Qed.

(** Replacing the text of a call by a placeholder removes names, those of
    its argument text, and adds none. *)
Lemma variable_names_replace_sublist (s : string) (m : string * string) :
  all_chars is_word (fst m) = true ->
  sublist (variable_names (replace_first s (call_text m) "{}"))
          (variable_names s).
Proof.
  intros W.
  destruct (replace_first_spec s (call_text m) "{}")
    as [E | (a & b & E1 & E2)].
  - now rewrite E.
  - rewrite E2, E1. unfold call_text.
    rewrite (variable_names_app a ("{}" ++ b)) by reflexivity.
    rewrite (variable_names_app a _) by reflexivity.
    apply sublist_app; [reflexivity | ].
    replace (("${" ++ fst m ++ "(" ++ snd m ++ ")}") ++ b)%string
      with ("${" ++ fst m ++ "(" ++ snd m ++ ")}" ++ b)%string
      by (now rewrite !append_assoc).
    rewrite variable_names_function by exact W.
    cbn [String.append variable_names Ascii.eqb Bool.eqb].
    apply sublist_inserts_l. reflexivity.
Qed.

(** The names of the argument text of a call that occurs in a string are
    names of the string. *)
Lemma variable_names_call (y u' : string) (m : string * string) :
  all_chars is_word (fst m) = true ->
  incl (variable_names (snd m)) (variable_names (y ++ call_text m ++ u')).
Proof.
  intros W n I. rewrite variable_names_app by reflexivity.
  apply in_or_app. right. unfold call_text.
  replace (("${" ++ fst m ++ "(" ++ snd m ++ ")}") ++ u')%string
    with ("${" ++ fst m ++ "(" ++ snd m ++ ")}" ++ u')%string
    by (now rewrite !append_assoc).
  rewrite variable_names_function by exact W.
  apply in_or_app. now left.
Qed.

End EmbedFacts.

(** ** The loop over the variable references *)

Section VariableLoop.
Import Str StrFacts ScanFacts ReplaceFacts.
Context (known : gset string) (raw : string).

Lemma first_unknown_In (names : list string) (n : string) :
  In n names -> n ∉ known ->
  exists n0, first_unknown known names = Some n0 /\ n0 ∉ known.
Proof.
  induction names as [ | m t IH]; [intros [] | ].
  intros I N. cbn. destruct (bool_decide (m ∈ known)) eqn:E.
  - apply bool_decide_eq_true in E. destruct I as [-> | I]; [done | ].
    now apply IH.
  - apply bool_decide_eq_false in E. now exists m.
Qed.

(** The loop stops at the first unknown name, whatever the state. *)
Lemma parse_variables_raises (names : list string) (st : ParseState) :
  Exists (fun n => n ∉ known) names ->
  exists e, parse_variables known raw names st = Raise e.
Proof.
  intros X. revert st. induction X as [n t N | n t X IH]; intros st; cbn.
  - rewrite bool_decide_eq_false_2 by exact N. eauto.
  - destruct (bool_decide (n ∈ known)); [ | eauto].
    destruct (index raw ("$" ++ n) (ps_position st)); [apply IH | eauto].
Qed.

(** When the names are those of what is left of [raw] from the current
    position on, each reference is found, and the loop raises
    [VariableNotFound] for the first unknown name. *)
Lemma parse_variables_first_unknown (names : list string) :
  forall (st : ParseState) (x u : string) (n0 : string),
    drop (ps_position st) raw = (x ++ u)%string ->
    variable_names u = names ->
    first_unknown known names = Some n0 ->
    parse_variables known raw names st = Raise (VariableNotFound n0).
Proof.
  induction names as [ | n t IH]; intros st x u n0 D V F; [discriminate | ].
  cbn in F. cbn [parse_variables].
  destruct (bool_decide (n ∈ known)); [ | now injection F as <-].
  destruct (variable_names_cons u n t V) as (y & u' & Eu & Vu).
  rewrite Eu, <- append_assoc in D.
  destruct (find_app ("$" ++ n) (x ++ y) u') as (j & Fj & Lj).
  unfold index.
  assert (Lp : (ps_position st <=? String.length raw)%nat = true).
  { apply Nat.leb_le, drop_length. rewrite D.
    destruct (x ++ y)%string; discriminate. }
  rewrite Lp, D, Fj. cbn [option_map].
  apply (IH _ (drop j (x ++ y) ++ ("$" ++ n))%string u').
  - cbn [ps_position]. rewrite drop_add, D, drop_app_le by exact Lj.
    now rewrite !append_assoc.
  - exact Vu.
  - exact F.
Qed.
Lemma first_unknown_Some (names : list string) (n0 : string) :
  first_unknown known names = Some n0 -> In n0 names /\ n0 ∉ known.
Proof.
  induction names as [ | m t IH]; [discriminate | ].
  cbn. destruct (bool_decide (m ∈ known)) eqn:E.
  - intros F. destruct (IH F). split; [now right | assumption].
  - intros [= <-]. apply bool_decide_eq_false in E.
    split; [now left | exact E].
Qed.

(** When the references to the names occur, in their order, in what is
    left of [raw] from the current position on, each one is found: the
    loop raises [VariableNotFound] for the first unknown name, and ends
    well when there is none. *)
Lemma parse_variables_outcome (names : list string) :
  forall (st : ParseState) (x u : string),
    drop (ps_position st) raw = (x ++ u)%string ->
    embeds (map (String.append "$") names) u ->
    match first_unknown known names with
    | Some n0 =>
        parse_variables known raw names st = Raise (VariableNotFound n0)
    | None => exists st', parse_variables known raw names st = Ok st'
    end.
Proof.
  induction names as [ | n t IH]; intros st x u D E.
  - cbn. eauto.
  - cbn [first_unknown parse_variables].
    destruct (bool_decide (n ∈ known)) eqn:K; [ | reflexivity].
    cbn [map embeds] in E. destruct E as (y & u' & -> & E).
    rewrite <- append_assoc in D.
    destruct (EmbedFacts.index_embeds raw ("$" ++ n) (x ++ y) u'
                (ps_position st)) as (j & x' & Ej & Dj);
      [discriminate | exact D | ].
    rewrite Ej.
    apply (IH _ (x' ++ "$" ++ n)%string u'); [ | exact E].
    cbn [ps_position]. rewrite Dj. now rewrite !append_assoc.
Qed.
End VariableLoop.

(** ** Unknown variables in the arguments of a function call *)

Section FunctionArguments.
Import Str StrFacts ScanFacts ReplaceFacts.
Context (H : Host).

Lemma parse_string_value_mentions (n p : string) (v : Value) :
  all_chars is_argchar p = true ->
  In n (variable_names p) ->
  parse_string_value H p = Ok v -> mentions n v.
Proof.
  intros A I E. unfold parse_string_value in E.
  destruct (literal_eval_dollar H p A (variable_names_dollar p n I))
    as [e X].
  rewrite X in E.
  assert (B : brace_free p)
    by (eapply contains_all_chars; [apply argchar_not_brace | exact A]).
  destruct e; try discriminate E; injection E as <-;
    exists p; split; try reflexivity; now split.
Qed.

Lemma kwargs_set_fresh (d : list (string * Value)) (k : string)
    (v : Value) :
  ~ In k (map fst d) -> kwargs_set d k v = d ++ [(k, v)].
Proof.
  induction d as [ | [k' v'] t IH]; cbn; [reflexivity | ].
  intros N. destruct (String.eqb k' k) eqn:E.
  - apply String.eqb_eq in E. subst k'. exfalso. apply N. now left.
  - rewrite IH; [reflexivity | ]. intros X. apply N. now right.
Qed.

Lemma meta_mentions_args (n : string) (a : list Value)
    (kw : list (string * Value)) (v : Value) :
  meta_mentions n (mkMeta a kw) \/ mentions n v ->
  meta_mentions n (mkMeta (a ++ [v]) kw).
Proof.
  unfold meta_mentions. cbn. intros [[X | X] | X].
  - left. apply Exists_app. now left.
  - now right.
  - left. apply Exists_app. right. now constructor.
Qed.

Lemma meta_mentions_kwargs (n : string) (a : list Value)
    (kw : list (string * Value)) (k : string) (v : Value) :
  meta_mentions n (mkMeta a kw)
  \/ mentions n (VStr k) \/ mentions n v ->
  meta_mentions n (mkMeta a (kw ++ [(k, v)])).
Proof.
  unfold meta_mentions. cbn. intros [[X | X] | X].
  - now left.
  - right. apply Exists_app. now left.
  - right. apply Exists_app. right. now constructor.
Qed.

Lemma parse_function_args_mentions (n : string) (pieces : list string) :
  forall acc function_meta,
    Forall (fun p => all_chars is_argchar p = true) pieces ->
    NoDup (map fst (meta_kwargs acc) ++ omap piece_keyword pieces) ->
    parse_function_args H pieces acc = Ok function_meta ->
    meta_mentions n acc
    \/ Exists (fun p => In n (variable_names p)) pieces ->
    meta_mentions n function_meta.
Proof.
  induction pieces as [ | p rest IH]; intros acc meta B D E M.
  - cbn in E. injection E as <-. destruct M as [M | M]; [exact M | ].
    inversion M.
  - apply Forall_cons in B. destruct B as [Bp Brest].
    assert (Bs : all_chars is_argchar (strip p) = true)
      by now apply all_chars_strip.
    cbn [parse_function_args] in E. cbn [omap list_omap] in D.
    unfold piece_keyword in D.
    destruct (contains "=" (strip p)) eqn:C.
    + destruct (split "=" (strip p)) as [ | key [ | value [ | x l]]] eqn:S;
        try discriminate E.
      bind_inv E as v Ev.
      assert (Fresh : ~ In (strip key) (map fst (meta_kwargs acc))).
      { apply NoDup_app in D. destruct D as (_ & D & _).
        intros X. apply list_elem_of_In in X. apply (D _ X). left. }
      rewrite kwargs_set_fresh in E by exact Fresh.
      apply (IH _ _ Brest) in E; [exact E | | ].
      * cbn [meta_kwargs]. rewrite map_app. cbn [map fst].
        now rewrite <- app_assoc.
      * destruct acc as [a kw]. cbn [meta_args meta_kwargs].
        destruct M as [M | M].
        -- left. apply meta_mentions_kwargs. now left.
        -- apply Exists_cons in M. destruct M as [M | M]; [ | now right].
           left. apply meta_mentions_kwargs. right.
           rewrite <- variable_names_strip in M.
           rewrite <- (variable_names_split "=" (strip p)) in M
             by reflexivity.
           rewrite S in M. cbn in M. rewrite app_nil_r in M.
           pose proof (all_chars_split is_argchar "=" (strip p) Bs) as Bk.
           rewrite S in Bk.
           apply Forall_cons in Bk. destruct Bk as [Bk Bv].
           apply Forall_cons in Bv. destruct Bv as [Bv _].
           apply in_app_or in M. destruct M as [M | M].
           ++ left. exists (strip key). split; [reflexivity | ].
              split; [now rewrite variable_names_strip | ].
              eapply contains_all_chars; [apply argchar_not_brace | ].
              now apply all_chars_strip.
           ++ right.
              apply (parse_string_value_mentions n (strip value) v);
                [now apply all_chars_strip | | exact Ev].
              now rewrite variable_names_strip.
    + bind_inv E as v Ev.
      apply (IH _ _ Brest) in E; [exact E | exact D | ].
      destruct acc as [a kw]. cbn [meta_args meta_kwargs].
      destruct M as [M | M].
      * left. apply meta_mentions_args. now left.
      * apply Exists_cons in M. destruct M as [M | M]; [ | now right].
        left. apply meta_mentions_args. right.
        apply (parse_string_value_mentions n (strip p) v);
          [exact Bs | | exact Ev].
        now rewrite variable_names_strip.
Qed.

Lemma parse_function_params_mentions (n params : string)
    (function_meta : FunctionMeta) :
  all_chars is_argchar params = true ->
  NoDup (keyword_names params) ->
  In n (variable_names params) ->
  parse_function_params H params = Ok function_meta ->
  meta_mentions n function_meta.
Proof.
  intros B D I E. unfold parse_function_params in E.
  rewrite <- variable_names_strip in I.
  destruct (String.eqb (strip params) "") eqn:Z.
  { apply String.eqb_eq in Z. rewrite Z in I. destruct I. }
  apply (parse_function_args_mentions n) in E; [exact E | | exact D | ].
  - apply all_chars_split. now apply all_chars_strip.
  - right. now apply variable_names_in_split.
Qed.

Context (functions_mapping : gmap string FnObj).
Context (known : gset string).

Lemma mapM_raises {A B : Type} (f : A -> result B) (l : list A) :
  Exists (fun x => exists e, f x = Raise e) l ->
  exists e, mapM f l = Raise e.
Proof.
  induction 1 as [x t [e E] | x t X [e IH]]; cbn.
  - rewrite E. cbn. eauto.
  - destruct (f x); cbn; [ | eauto]. rewrite IH. cbn. eauto.
Qed.

(** The construction of a [LazyFunction] fails when preparing one of its
    arguments fails. *)
Lemma LazyFunction_init_raises (prepare_arg : Value -> result Value)
    (n func_name : string) (function_meta : FunctionMeta) :
  (forall v, mentions n v -> exists e, prepare_arg v = Raise e) ->
  meta_mentions n function_meta ->
  exists e,
    LazyFunction_init H functions_mapping known prepare_arg func_name
      function_meta = Raise e.
Proof.
  intros R M. unfold LazyFunction_init.
  destruct (get_mapping_function H func_name functions_mapping)
    as [f | e]; cbn [bind]; [ | eauto].
  destruct M as [M | M].
  - destruct (mapM_raises prepare_arg (meta_args function_meta)) as [e E].
    { eapply Exists_impl; [exact M | ]. exact R. }
    rewrite E. cbn. eauto.
  - destruct (mapM prepare_arg (meta_args function_meta)) as [a | e];
      cbn [bind]; [ | eauto].
    destruct (mapM_raises (prepare_arg_item prepare_arg)
                (map (fun kv => (VStr (fst kv), snd kv))
                     (meta_kwargs function_meta))) as [e E].
    { apply Exists_exists. apply Exists_exists in M.
      destruct M as ([k v] & In_kv & Mkv).
      exists (VStr k, v). split.
      - apply list_elem_of_fmap. exists (k, v). now split.
      - unfold prepare_arg_item. cbn [fst snd] in *.
        destruct Mkv as [Mk | Mv].
        + destruct (R _ Mk) as [e E]. rewrite E. cbn. eauto.
        + destruct (prepare_arg (VStr k)); cbn [bind]; [ | eauto].
          destruct (R _ Mv) as [e E]. rewrite E. cbn. eauto. }
    rewrite E. cbn. eauto.
Qed.

(** The loop over the function calls, when it ends well: every call was
    made a [LazyFunction], and a name of the string is still in the
    working copy unless it stood in the arguments of a call. *)
Lemma parse_functions_Ok (prepare_arg : Value -> result Value)
    (raw : string) (matches : list (string * string)) :
  forall st st',
    Forall (fun m => all_chars is_word (fst m) = true) matches ->
    parse_functions H functions_mapping known prepare_arg raw matches st
    = Ok st' ->
    (forall n, In n (variable_names (ps_string st)) ->
               In n (variable_names (ps_string st'))
               \/ Exists (fun m => In n (variable_names (snd m))) matches)
    /\ Forall (fun m =>
                 exists function_meta lazy_func,
                   parse_function_params H (snd m) = Ok function_meta
                   /\ LazyFunction_init H functions_mapping known
                        prepare_arg (fst m) function_meta = Ok lazy_func)
              matches.
Proof.
  induction matches as [ | [name args] rest IH]; intros st st' W E.
  - cbn in E. injection E as <-. split; [now left | constructor].
  - apply Forall_cons in W. destruct W as [Wm Wrest].
    cbn [parse_functions fst snd] in E.
    destruct (index raw ("${" ++ name ++ "(" ++ args ++ ")}")
                (ps_position st)) as [pos | ]; [ | discriminate E].
    bind_inv E as function_meta Em. bind_inv E as lazy_func El.
    apply (IH _ _ Wrest) in E. destruct E as [A B]. split.
    + intros n I. cbn [ps_string] in A.
      destruct (variable_names_replace_function (ps_string st) name args n
                  Wm I) as [X | X].
      * destruct (A n X) as [Y | Y]; [now left | right].
        now apply Exists_cons_tl.
      * right. now apply Exists_cons_hd.
    + constructor; [ | exact B]. cbn [fst snd]. eauto.
Qed.

(** *** The outcome of a call that is in order *)

Lemma kwargs_set_Forall (P : string * Value -> Prop)
    (d : list (string * Value)) (k : string) (v : Value) :
  Forall P d -> P (k, v) -> Forall P (kwargs_set d k v).
Proof.
  intros F Pk. induction F as [ | [k' v'] t Hx Ht IH]; cbn.
  - constructor; [exact Pk | constructor].
  - destruct (String.eqb k' k) eqn:E.
    + apply String.eqb_eq in E. subst k'. constructor; assumption.
    + constructor; assumption.
Qed.

Lemma parse_string_value_arg_of (args p : string) (v : Value) :
  all_chars is_argchar p = true ->
  incl (variable_names p) (variable_names args) ->
  parse_string_value H p = Ok v -> arg_of args v.
Proof.
  intros A I E. unfold parse_string_value in E.
  destruct (literal_eval H p) as [l | e].
  - injection E as <-. left. eauto.
  - destruct e; try discriminate E; injection E as <-; right; exists p;
      auto.
Qed.

Lemma parse_function_args_arg_of (args : string) (pieces : list string) :
  forall acc function_meta,
    Forall (fun p => all_chars is_argchar p = true
                     /\ incl (variable_names p) (variable_names args))
           pieces ->
    meta_arg_of args acc ->
    parse_function_args H pieces acc = Ok function_meta ->
    meta_arg_of args function_meta.
Proof.
  induction pieces as [ | p rest IH]; intros acc meta B [A K] E.
  - cbn in E. now injection E as <-.
  - apply Forall_cons in B. destruct B as [[Bp Ip] Brest].
    assert (Bs : all_chars is_argchar (strip p) = true)
      by now apply all_chars_strip.
    assert (Is : incl (variable_names (strip p)) (variable_names args))
      by now rewrite variable_names_strip.
    cbn [parse_function_args] in E.
    destruct (contains "=" (strip p)).
    + destruct (split "=" (strip p)) as [ | key [ | value [ | x l]]] eqn:S;
        try discriminate E.
      bind_inv E as v Ev.
      pose proof (all_chars_split is_argchar "=" (strip p) Bs) as Bk.
      rewrite S in Bk.
      apply Forall_cons in Bk. destruct Bk as [Bk Bv].
      apply Forall_cons in Bv. destruct Bv as [Bv _].
      pose proof (variable_names_split "=" (strip p) eq_refl eq_refl) as N.
      rewrite S in N. cbn in N. rewrite app_nil_r in N.
      assert (Ik : incl (variable_names (strip key)) (variable_names args)).
      { rewrite variable_names_strip. intros n X. apply Is.
        rewrite <- N. apply in_or_app. now left. }
      assert (Iv : incl (variable_names (strip value))
                     (variable_names args)).
      { rewrite variable_names_strip. intros n X. apply Is.
        rewrite <- N. apply in_or_app. now right. }
      apply (IH _ _ Brest) in E; [exact E | ].
      split; [exact A | ]. cbn [meta_kwargs].
      apply (kwargs_set_Forall
               (fun kv => arg_of args (VStr (fst kv))
                          /\ arg_of args (snd kv))); [exact K | ].
      cbn [fst snd]. split.
      * right. exists (strip key). split; [reflexivity | ].
        split; [now apply all_chars_strip | exact Ik].
      * apply (parse_string_value_arg_of args (strip value) v);
          [now apply all_chars_strip | exact Iv | exact Ev].
    + bind_inv E as v Ev.
      apply (IH _ _ Brest) in E; [exact E | ].
      split; [ | exact K].
      cbn [meta_args]. apply Forall_app. split; [exact A | ].
      constructor; [ | constructor].
      exact (parse_string_value_arg_of args (strip p) v Bs Is Ev).
Qed.

Lemma parse_function_params_arg_of (args : string)
    (function_meta : FunctionMeta) :
  all_chars is_argchar args = true ->
  parse_function_params H args = Ok function_meta ->
  meta_arg_of args function_meta.
Proof.
  intros B E. unfold parse_function_params in E.
  destruct (String.eqb (strip args) "").
  - injection E as <-. split; constructor.
  - apply (parse_function_args_arg_of args) in E; [exact E | | ].
    + apply Forall_forall. intros p Hp. split.
      * pose proof (all_chars_split is_argchar "," (strip args)
                      (all_chars_strip _ _ B)) as F.
        rewrite Forall_forall in F. now apply F.
      * intros n X. rewrite <- (variable_names_strip args).
        rewrite <- (variable_names_split "," (strip args))
          by reflexivity.
        apply in_concat. exists (variable_names p). split; [ | exact X].
        apply in_map. now apply list_elem_of_In.
    + split; constructor.
Qed.

Lemma mapM_outcome {A B : Type} (f : A -> result B) (Q : B -> Prop)
    (P : exn -> Prop) (l : list A) :
  Forall (fun x => (exists y, f x = Ok y /\ Q y)
                   \/ (exists e, f x = Raise e /\ P e)) l ->
  (exists ys, mapM f l = Ok ys /\ Forall Q ys /\ length ys = length l)
  \/ (exists e, mapM f l = Raise e /\ P e).
Proof.
  induction 1 as [ | x t Hx Ht IH]; cbn [mapM].
  - left. exists []. repeat split. constructor.
  - destruct Hx as [(y & E & Qy) | (e & E & Pe)]; rewrite E; cbn [bind].
    + destruct IH as [(ys & Es & Qs & L) | (e & Es & Pe)]; rewrite Es;
        cbn [bind].
      * left. exists (y :: ys). split; [reflexivity | ].
        split; [now constructor | cbn; now rewrite L].
      * right. eauto.
    + right. eauto.
Qed.

Section Accepted.
Context (prepare_arg : Value -> result Value).
Hypothesis prepare_arg_outcome :
  forall args v, arg_of args v -> argument_outcome known args (prepare_arg v).

(** The arguments prepared, a call that is in order becomes a
    [LazyFunction]; the only exception is [VariableNotFound] for an unknown
    name of its argument text. *)
Lemma LazyFunction_init_outcome (args func_name : string)
    (function_meta : FunctionMeta) (f : FnObj) :
  meta_arg_of args function_meta ->
  get_mapping_function H func_name functions_mapping = Ok (ObjFn f) ->
  reserved_arity f function_meta = true ->
  (exists lazy_func,
      LazyFunction_init H functions_mapping known prepare_arg func_name
        function_meta = Ok lazy_func)
  \/ (exists e,
         LazyFunction_init H functions_mapping known prepare_arg func_name
           function_meta = Raise e
         /\ names_unknown known (variable_names args) e).
Proof.
  intros [A K] F R. unfold LazyFunction_init. rewrite F. cbn [bind].
  destruct (mapM_outcome prepare_arg (fun _ => True)
              (names_unknown known (variable_names args))
              (meta_args function_meta))
    as [(a & Ea & _ & La) | (e & Ea & Pe)].
  { eapply Forall_impl; [exact A | ]. intros v Av.
    destruct (prepare_arg_outcome args v Av) as [(w & Ew & _) | X];
      [left; eauto | now right]. }
  2:{ rewrite Ea. cbn [bind]. right. eauto. }
  rewrite Ea. cbn [bind].
  destruct (mapM_outcome (prepare_arg_item prepare_arg) (fun _ => True)
              (names_unknown known (variable_names args))
              (map (fun kv => (VStr (fst kv), snd kv))
                   (meta_kwargs function_meta)))
    as [(kw & Ek & _ & Lk) | (e & Ek & Pe)].
  { apply Forall_forall. intros kv Hin.
    apply list_elem_of_fmap in Hin. destruct Hin as ([k v] & -> & Hin).
    rewrite Forall_forall in K. destruct (K _ Hin) as [Ak Av].
    unfold prepare_arg_item. cbn [fst snd] in *.
    destruct (prepare_arg_outcome args _ Ak) as [(pk & Epk & Hk) | X].
    2:{ destruct X as (e & -> & Pe). right. exists e. now split. }
    rewrite Epk. cbn [bind].
    destruct (prepare_arg_outcome args _ Av) as [(pv & Epv & _) | X].
    2:{ destruct X as (e & -> & Pe). right. exists e. now split. }
    rewrite Epv. cbn [bind]. unfold prepared_item. rewrite Hk.
    left. eauto. }
  2:{ rewrite Ek. cbn [bind]. right. eauto. }
  rewrite Ek. cbn [bind]. rewrite length_map in Lk.
  assert (Nk : nonempty kw = nonempty (meta_kwargs function_meta)).
  { destruct (meta_kwargs function_meta), kw; cbn in *; congruence. }
  left. unfold reserved_arity in R.
  destruct (String.eqb (fn_name f) "load_csv_file"); cbn [orb] in R.
  { apply andb_true_iff in R. destruct R as [R1 R2].
    apply Nat.eqb_eq in R1. rewrite <- La in R1. rewrite Nk.
    apply negb_true_iff in R2. rewrite R2.
    destruct a as [ | a0 [ | a1 a']]; cbn in R1; try lia. eauto. }
  destruct (String.eqb (fn_name f) "get_os_environ").
  { apply andb_true_iff in R. destruct R as [R1 R2].
    apply Nat.eqb_eq in R1. rewrite <- La in R1. rewrite Nk.
    apply negb_true_iff in R2. rewrite R2.
    destruct a as [ | a0 [ | a1 a']]; cbn in R1; try lia. eauto. }
  eauto.
Qed.

(** The loop over the calls, all of them in order: every call text is
    found, and the loop ends well or with [VariableNotFound] for an unknown
    name of the argument text of a call. *)
Lemma parse_functions_outcome (raw : string)
    (matches : list (string * string)) :
  forall (st : ParseState) (x u : string),
    drop (ps_position st) raw = (x ++ u)%string ->
    embeds (map call_text matches) u ->
    Forall (call_accepted H functions_mapping) matches ->
    Forall (fun m => all_chars is_argchar (snd m) = true) matches ->
    (exists st',
        parse_functions H functions_mapping known prepare_arg raw matches st
        = Ok st')
    \/ (exists e,
           parse_functions H functions_mapping known prepare_arg raw matches
             st = Raise e
           /\ Exists (fun m => names_unknown known (variable_names (snd m)) e)
                     matches).
Proof.
  induction matches as [ | m rest IH]; intros st x u D E A C.
  - left. cbn. eauto.
  - apply Forall_cons in A. destruct A as [Am Arest].
    apply Forall_cons in C. destruct C as [Cm Crest].
    cbn [map embeds] in E. destruct E as (y & u' & -> & E).
    rewrite <- append_assoc in D.
    destruct (EmbedFacts.index_embeds raw (call_text m) (x ++ y) u'
                (ps_position st)) as (j & x' & Ej & Dj);
      [discriminate | exact D | ].
    cbn [parse_functions]. fold (call_text m). rewrite Ej.
    destruct Am as (function_meta & f & Em & Ef & R).
    rewrite Em. cbn [bind].
    destruct (LazyFunction_init_outcome (snd m) (fst m) function_meta f)
      as [(lf & El) | (e & El & Pe)];
      [now apply parse_function_params_arg_of | exact Ef | exact R | | ].
    + rewrite El. cbn [bind].
      destruct (IH (mkParse
                      (replace_first (ps_string st) (call_text m) "{}") j
                      (args_mapping_set (ps_args_mapping st) j (SFunc lf)))
                  (x' ++ call_text m)%string u') as [X | (e & X & Pe)];
        [ | exact E | exact Arest | exact Crest | now left | ].
      * cbn [ps_position]. rewrite Dj. now rewrite !append_assoc.
      * right. exists e. split; [exact X | now apply Exists_cons_tl].
    + rewrite El. cbn [bind]. right. exists e.
      split; [reflexivity | now apply Exists_cons_hd].
Qed.

(** The working copy after the loop has names of the string only, in
    their order. *)
Lemma parse_functions_sublist (raw : string)
    (matches : list (string * string)) :
  forall st st',
    Forall (fun m => all_chars is_word (fst m) = true) matches ->
    parse_functions H functions_mapping known prepare_arg raw matches st
    = Ok st' ->
    sublist (variable_names (ps_string st')) (variable_names (ps_string st)).
Proof.
  induction matches as [ | m rest IH]; intros st st' W E.
  - cbn in E. now injection E as <-.
  - apply Forall_cons in W. destruct W as [Wm Wrest].
    cbn [parse_functions] in E. fold (call_text m) in E.
    destruct (index raw (call_text m) (ps_position st)) as [pos | ];
      [ | discriminate E].
    bind_inv E as function_meta Em. bind_inv E as lazy_func El.
    apply (IH _ _ Wrest) in E. cbn [ps_string] in E.
    etransitivity; [exact E | ].
    now apply EmbedFacts.variable_names_replace_sublist.
Qed.
End Accepted.
End FunctionArguments.

(** ** Unknown variables are found when the string is prepared *)

Section UnknownVariable.
Import Str StrFacts ScanFacts ReplaceFacts.
Context (H : Host).
Context (functions_mapping : gmap string FnObj).
Context (known : gset string).

Lemma is_variable_exist_names (s : string) (n : string) :
  In n (variable_names s) -> is_variable_exist s = true.
Proof.
  intros I. unfold is_variable_exist, Re.search.
  fold (regex_findall_variables s). rewrite regex_findall_variables_names.
  destruct (variable_names s); [destruct I | reflexivity].
Qed.

(** A string without a function call and with an unknown variable. *)
Lemma prepare_level_function_free (prepare_arg : Value -> result Value)
    (cached : bool) (s : string) (n : string) :
  regex_findall_functions s = [] ->
  In n (variable_names s) -> n ∉ known ->
  exists n0,
    first_unknown known (variable_names s) = Some n0
    /\ prepare_level H functions_mapping known prepare_arg cached (VStr s)
       = Raise (VariableNotFound n0).
Proof.
  intros F I N.
  destruct (first_unknown_In known _ _ I N) as (n0 & F0 & _).
  exists n0. split; [exact F0 | ].
  cbn [prepare_level]. rewrite (is_variable_exist_names s n I).
  cbn [orb negb]. unfold LazyString_init.
  rewrite regex_findall_functions_strip, F. cbn [parse_functions bind].
  cbn [ps_string ps_args_mapping].
  rewrite regex_findall_variables_names, variable_names_strip.
  rewrite (parse_variables_first_unknown known (strip s) (variable_names s)
             _ "" (strip s) n0); [reflexivity | reflexivity | | exact F0].
  apply variable_names_strip.
Qed.

(** Preparing an argument that refers to an unknown variable fails, at
    every depth of the recursion. *)
Lemma prepare_argument_raises (fuel : nat) (n : string) (v : Value) :
  n ∉ known -> mentions n v ->
  exists e,
    prepare_lazy_data_fuel fuel H v functions_mapping known false = Raise e.
Proof.
  intros N (p & -> & I & B). destruct fuel as [ | fuel]; cbn; [eauto | ].
  destruct (prepare_level_function_free
              (fun arg => prepare_lazy_data_fuel fuel H arg
                            functions_mapping known false)
              false p n) as (n0 & _ & E); [ | exact I | exact N | eauto].
  now apply regex_findall_functions_brace_free.
Qed.

Lemma argchar_brace_free (args : string) :
  all_chars is_argchar args = true -> brace_free args.
Proof. apply contains_all_chars, argchar_not_brace. Qed.

Lemma prepare_level_unknown_variable (fuel : nat) (cached : bool)
    (s : string) (n : string) :
  In n (variable_names s) -> n ∉ known -> keeps_reference n s ->
  exists e,
    prepare_level H functions_mapping known
      (fun arg => prepare_lazy_data_fuel fuel H arg functions_mapping
                    known false)
      cached (VStr s) = Raise e.
Proof.
  intros I N K. cbn [prepare_level].
  rewrite (is_variable_exist_names s n I). cbn [orb negb].
  unfold LazyString_init. rewrite regex_findall_functions_strip.
  destruct (parse_functions H functions_mapping known _ (strip s)
              (regex_findall_functions s) _) as [st1 | e] eqn:E;
    cbn [bind]; [ | eauto].
  pose proof (regex_findall_functions_chars s) as Chars.
  apply parse_functions_Ok in E.
  2:{ eapply Forall_impl; [exact Chars | ]. now intros m [X _]. }
  destruct E as [A B]. cbn [ps_string] in A.
  rewrite <- variable_names_strip in I.
  destruct (A n I) as [X | X].
  - destruct (parse_variables_raises known (strip s)
                (regex_findall_variables (ps_string st1))
                (mkParse (ps_string st1) 0 (ps_args_mapping st1)))
      as [e E].
    { rewrite regex_findall_variables_names. apply Exists_exists.
      exists n. split; [now apply list_elem_of_In | exact N]. }
    rewrite E. cbn. eauto.
  - exfalso. apply Exists_exists in X. destruct X as (m & Hm & Im).
    unfold keeps_reference in K.
    rewrite Forall_forall in B, Chars, K.
    destruct (B m Hm) as (function_meta & lazy_func & Em & El).
    destruct (Chars m Hm) as [_ Ca].
    destruct (LazyFunction_init_raises H functions_mapping known
                (fun arg => prepare_lazy_data_fuel fuel H arg
                              functions_mapping known false)
                n (fst m) function_meta) as [e E].
    + intros v Mv. exact (prepare_argument_raises fuel n v N Mv).
    + eapply parse_function_params_mentions; [exact Ca | | exact Im | exact Em].
      apply K; [exact Hm | ]. now rewrite regex_findall_variables_names.
    + congruence.
Qed.

(** Preparing an argument of a call: what comes of it can be a key, and
    the only exception is [VariableNotFound] for an unknown name of the
    argument text. *)
Lemma prepare_level_argument_outcome (rec : Value -> result Value)
    (cached : bool) (args : string) (v : Value) :
  arg_of args v ->
  argument_outcome known args
    (prepare_level H functions_mapping known rec cached v).
Proof.
  intros [[l ->] | (p & -> & A & I)].
  - left. destruct l; eexists; split; reflexivity.
  - cbn [prepare_level].
    destruct (negb (is_variable_exist p || is_function_exist p)).
    { left. eexists. split; reflexivity. }
    unfold LazyString_init.
    rewrite regex_findall_functions_brace_free
      by (apply contains_strip; now apply argchar_brace_free).
    cbn [parse_functions bind ps_string ps_args_mapping].
    rewrite regex_findall_variables_names.
    pose proof (parse_variables_outcome known (strip p)
                  (variable_names (strip p))
                  (mkParse (strip p) 0 []) "" (strip p) eq_refl
                  (EmbedFacts.variable_names_embeds _ _ eq_refl)) as O.
    destruct (first_unknown known (variable_names (strip p))) as [n0 | ]
      eqn:F.
    + rewrite O. cbn [bind]. right. eexists. split; [reflexivity | ].
      destruct (first_unknown_Some known _ _ F) as [In0 Nn0].
      exists n0. split; [reflexivity | ]. split; [exact Nn0 | ].
      apply I. now rewrite <- variable_names_strip.
    + destruct O as [st' O]. rewrite O. cbn [bind]. left.
      eexists. split; reflexivity.
Qed.

(** A string whose calls are all in order is prepared, or
    [VariableNotFound] is raised for an unknown name of the string. *)
Lemma prepare_level_accepted (rec : Value -> result Value) (cached : bool)
    (s : string) :
  Forall (call_accepted H functions_mapping) (regex_findall_functions s) ->
  (exists v,
      prepare_level H functions_mapping known
        (prepare_level H functions_mapping known rec false) cached (VStr s)
      = Ok v)
  \/ (exists e,
         prepare_level H functions_mapping known
           (prepare_level H functions_mapping known rec false) cached
           (VStr s) = Raise e
         /\ names_unknown known (variable_names s) e).
Proof.
  intros A. cbn [prepare_level].
  destruct (negb (is_variable_exist s || is_function_exist s));
    [left; eauto | ].
  unfold LazyString_init. rewrite regex_findall_functions_strip.
  pose proof (regex_findall_functions_chars s) as Chars.
  assert (Emb : embeds (map call_text (regex_findall_functions s))
                  (strip s)).
  { rewrite <- regex_findall_functions_strip.
    exact (EmbedFacts.scan_function_embeds (strip s) 0). }
  destruct (parse_functions_outcome H functions_mapping known
              (prepare_level H functions_mapping known rec false)
              (fun args v => prepare_level_argument_outcome rec false args v)
              (strip s) (regex_findall_functions s)
              (mkParse (strip s) 0 []) "" (strip s) eq_refl Emb A)
    as [(st1 & E1) | (e & E1 & X)].
  { eapply Forall_impl; [exact Chars | ]. now intros m [_ Y]. }
  - rewrite E1. cbn [bind].
    pose proof (parse_functions_sublist H functions_mapping known
                  (prepare_level H functions_mapping known rec false)
                  (strip s) (regex_findall_functions s)
                  (mkParse (strip s) 0 []) st1) as Sub.
    specialize (Sub ltac:(eapply Forall_impl; [exact Chars | ];
                          now intros m [Y _]) E1).
    cbn [ps_string] in Sub. rewrite regex_findall_variables_names.
    assert (Emb1 : embeds (map (String.append "$")
                             (variable_names (ps_string st1))) (strip s)).
    { eapply EmbedFacts.embeds_sublist;
        [apply (fmap_sublist (String.append "$")); exact Sub | ].
      now apply EmbedFacts.variable_names_embeds. }
    pose proof (parse_variables_outcome known (strip s)
                  (variable_names (ps_string st1))
                  (mkParse (ps_string st1) 0 (ps_args_mapping st1))
                  "" (strip s) eq_refl Emb1) as O.
    destruct (first_unknown known (variable_names (ps_string st1)))
      as [n0 | ] eqn:F.
    + rewrite O. cbn [bind]. right. eexists. split; [reflexivity | ].
      destruct (first_unknown_Some known _ _ F) as [In0 Nn0].
      exists n0. split; [reflexivity | ]. split; [exact Nn0 | ].
      rewrite <- variable_names_strip.
      apply list_elem_of_In. eapply elem_of_sublist; [ | exact Sub].
      now apply list_elem_of_In.
    + destruct O as [st2 O]. rewrite O. cbn [bind]. left. eauto.
  - rewrite E1. cbn [bind]. right. exists e. split; [reflexivity | ].
    apply Exists_exists in X. destruct X as (m & Hm & n & -> & Nn & In_n).
    exists n. split; [reflexivity | ]. split; [exact Nn | ].
    rewrite Forall_forall in Chars. destruct (Chars m Hm) as [Wm _].
    destruct (EmbedFacts.embeds_In (map call_text (regex_findall_functions s))
                (call_text m)) with (u := strip s) as (y & u' & Eu);
      [apply in_map; now apply list_elem_of_In | exact Emb | ].
    rewrite <- variable_names_strip, Eu.
    now apply (EmbedFacts.variable_names_call y u' m Wm).
Qed.
End UnknownVariable.



(** The call of the witness is in order. *)
Example call_accepted_add :
  Forall (call_accepted Demo.host Demo.functions)
         (regex_findall_functions "n=${add($x, 1)}").
Proof.
  replace (regex_findall_functions "n=${add($x, 1)}")
    with [("add", "$x, 1")] by (vm_compute; reflexivity).
  constructor; [ | constructor].
  exists (mkMeta [VStr "$x"; VInt 1] []), Demo.add_fn.
  repeat split; vm_compute; reflexivity.
Qed.

(** A reference nested in the arguments of a call that resolves. *)
Example prepare_nested_reference :
  prepare_lazy_data Demo.host (VStr "n=${add($x, 1)}") Demo.functions ∅ false
  = Raise (VariableNotFound "x").
Proof. vm_compute. reflexivity. Qed.


(** ** Two levels are all the recursion of the Preparer *)

Section Depth.
Import Str StrFacts ScanFacts ReplaceFacts.
Context (H : Host).
Context (functions_mapping : gmap string FnObj).
Context (known : gset string).

(** Preparing an argument never calls [prepare_lazy_data] again. *)
Lemma prepare_level_arg_value (rec1 rec2 : Value -> result Value)
    (cached : bool) (v : Value) :
  arg_value v ->
  prepare_level H functions_mapping known rec1 cached v
  = prepare_level H functions_mapping known rec2 cached v.
Proof.
  intros [[l ->] | (p & -> & B)].
  - destruct l; reflexivity.
  - cbn [prepare_level].
    destruct (negb (is_variable_exist p || is_function_exist p));
      [reflexivity | ].
    unfold LazyString_init.
    rewrite regex_findall_functions_brace_free
      by now apply contains_strip.
    reflexivity.
Qed.

Lemma parse_string_value_arg_value (p : string) (v : Value) :
  brace_free p -> parse_string_value H p = Ok v -> arg_value v.
Proof.
  intros B E. unfold parse_string_value in E.
  destruct (literal_eval H p) as [l | e].
  - injection E as <-. left. eauto.
  - destruct e; try discriminate E; injection E as <-; right; eauto.
Qed.

Lemma kwargs_set_arg_values (d : list (string * Value)) (k : string)
    (v : Value) :
  Forall (fun kv => brace_free (fst kv) /\ arg_value (snd kv)) d ->
  brace_free k -> arg_value v ->
  Forall (fun kv => brace_free (fst kv) /\ arg_value (snd kv))
         (kwargs_set d k v).
Proof.
  intros F Bk Av. induction F as [ | [k' v'] t [Hk Hv] Ht IH]; cbn.
  - constructor; [now split | constructor].
  - destruct (String.eqb k' k); constructor; auto.
Qed.

Lemma parse_function_args_arg_values (pieces : list string) :
  forall acc function_meta,
    Forall brace_free pieces ->
    meta_arg_values acc ->
    parse_function_args H pieces acc = Ok function_meta ->
    meta_arg_values function_meta.
Proof.
  induction pieces as [ | p rest IH]; intros acc meta B [A K] E.
  - cbn in E. now injection E as <-.
  - apply Forall_cons in B. destruct B as [Bp Brest].
    assert (Bs : brace_free (strip p)) by now apply contains_strip.
    cbn [parse_function_args] in E.
    destruct (contains "=" (strip p)).
    + destruct (split "=" (strip p)) as [ | key [ | value [ | x l]]] eqn:S;
        try discriminate E.
      bind_inv E as v Ev.
      pose proof (contains_split "{" "=" (strip p) Bs) as Bk.
      rewrite S in Bk.
      apply Forall_cons in Bk. destruct Bk as [Bk Bv].
      apply Forall_cons in Bv. destruct Bv as [Bv _].
      apply (IH _ _ Brest) in E; [exact E | ].
      split; [exact A | ]. cbn [meta_kwargs].
      apply kwargs_set_arg_values; [exact K | | ].
      * now apply contains_strip.
      * apply (parse_string_value_arg_value (strip value)); [ | exact Ev].
        now apply contains_strip.
    + bind_inv E as v Ev.
      apply (IH _ _ Brest) in E; [exact E | ].
      split; [ | exact K].
      cbn [meta_args]. apply Forall_app. split; [exact A | ].
      constructor; [ | constructor].
      exact (parse_string_value_arg_value (strip p) v Bs Ev).
Qed.

Lemma parse_function_params_arg_values (params : string)
    (function_meta : FunctionMeta) :
  brace_free params ->
  parse_function_params H params = Ok function_meta ->
  meta_arg_values function_meta.
Proof.
  intros B E. unfold parse_function_params in E.
  destruct (String.eqb (strip params) "").
  - injection E as <-. split; constructor.
  - apply parse_function_args_arg_values in E; [exact E | | ].
    + apply contains_split. now apply contains_strip.
    + split; constructor.
Qed.

Lemma mapM_ext {A B : Type} (f g : A -> result B) (l : list A) :
  Forall (fun x => f x = g x) l -> mapM f l = mapM g l.
Proof.
  induction 1 as [ | x t E F IH]; cbn; [reflexivity | ].
  now rewrite E, IH.
Qed.

Section TwoPreparers.
Context (rec1 rec2 : Value -> result Value).
Hypothesis same_on_arguments :
  forall v, arg_value v -> rec1 v = rec2 v.

Lemma LazyFunction_init_ext (func_name : string)
    (function_meta : FunctionMeta) :
  meta_arg_values function_meta ->
  LazyFunction_init H functions_mapping known rec1 func_name function_meta
  = LazyFunction_init H functions_mapping known rec2 func_name
      function_meta.
Proof.
  intros [A K]. unfold LazyFunction_init.
  rewrite (mapM_ext rec1 rec2 (meta_args function_meta)).
  2:{ eapply Forall_impl; [exact A | ]. exact same_on_arguments. }
  rewrite (mapM_ext (prepare_arg_item rec1) (prepare_arg_item rec2));
    [reflexivity | ].
  apply Forall_forall. intros kv Hin.
  apply list_elem_of_fmap in Hin. destruct Hin as ([k v] & -> & Hin).
  rewrite Forall_forall in K. destruct (K _ Hin) as [Bk Av].
  unfold prepare_arg_item. cbn [fst snd] in *.
  rewrite (same_on_arguments (VStr k)) by (right; eauto).
  now rewrite (same_on_arguments v Av).
Qed.

Lemma parse_functions_ext (raw : string)
    (matches : list (string * string)) :
  Forall (fun m => brace_free (snd m)) matches ->
  forall st,
    parse_functions H functions_mapping known rec1 raw matches st
    = parse_functions H functions_mapping known rec2 raw matches st.
Proof.
  induction 1 as [ | [name args] rest B F IH]; intros st;
    [reflexivity | ].
  cbn [parse_functions fst snd] in *.
  destruct (index raw ("${" ++ name ++ "(" ++ args ++ ")}")
              (ps_position st)) as [pos | ]; [ | reflexivity].
  destruct (parse_function_params H args) as [function_meta | e] eqn:E;
    cbn [bind]; [ | reflexivity].
  rewrite (LazyFunction_init_ext name function_meta)
    by now apply (parse_function_params_arg_values args).
  destruct (LazyFunction_init H functions_mapping known rec2 name
              function_meta); cbn [bind]; [apply IH | reflexivity].
Qed.

Lemma LazyString_init_ext (raw : string) (cached : bool) :
  LazyString_init H functions_mapping known rec1 raw cached
  = LazyString_init H functions_mapping known rec2 raw cached.
Proof.
  unfold LazyString_init. rewrite parse_functions_ext; [reflexivity | ].
  eapply Forall_impl; [apply regex_findall_functions_chars | ].
  intros m [_ A]. eapply contains_all_chars; [ | exact A].
  apply argchar_not_brace.
Qed.

Lemma prepare_level_ext (content : Value) :
  forall cached,
    prepare_level H functions_mapping known rec1 cached content
    = prepare_level H functions_mapping known rec2 cached content.
Proof.
  revert content.
  apply (Value_mutind
           (fun content =>
              forall cached,
                prepare_level H functions_mapping known rec1 cached
                  content
                = prepare_level H functions_mapping known rec2 cached
                    content)
           (fun _ => True) (fun _ => True) (fun _ => True));
    try (intros; exact I); try (intros; reflexivity).
  - intros s cached. cbn [prepare_level].
    now rewrite LazyString_init_ext.
  - intros k items F cached. cbn [prepare_level].
    rewrite (mapM_ext _ (prepare_level H functions_mapping known rec2
                           cached) items); [reflexivity | ].
    eapply Forall_impl; [exact F | ]. intros v E. apply E.
  - intros items F cached. cbn [prepare_level].
    erewrite mapM_ext; [reflexivity | ].
    eapply Forall_impl; [exact F | ]. intros kv [E1 E2]. cbn beta.
    now rewrite E1, E2.
Qed.
End TwoPreparers.

(** More fuel than for two levels changes nothing. *)
Lemma prepare_lazy_data_fuel_stable (n : nat) (content : Value)
    (cached : bool) :
  prepare_lazy_data_fuel (2 + n) H content functions_mapping known cached
  = prepare_lazy_data H content functions_mapping known cached.
Proof.
  unfold prepare_lazy_data. cbn [Nat.add prepare_lazy_data_fuel].
  apply prepare_level_ext. intros v A.
  now apply prepare_level_arg_value.
Qed.
End Depth.

(** * Further properties *)

(** ** The two scans *)

(** X1.  White space around a string changes neither the variable
    references nor the function calls found in it: the tests of
    [prepare_lazy_data], made on the string as given, and the scans of
    [LazyString.__parse], made on the stripped string, see the same
    matches. *)
Theorem scans_ignore_surrounding_space (s : string) :
  regex_findall_variables (Str.strip s) = regex_findall_variables s
  /\ regex_findall_functions (Str.strip s) = regex_findall_functions s.
Proof.
  split.
  - rewrite !ScanFacts.regex_findall_variables_names.
    apply ScanFacts.variable_names_strip.
  - apply ScanFacts.regex_findall_functions_strip.
Qed.

(** ** The argument parser *)

Lemma split_contains (sep : ascii) (s : string) :
  Str.contains sep s = true -> (2 <= length (Str.split sep s))%nat.
Proof.
  induction s as [ | c t IH]; [discriminate | ].
  cbn [Str.contains Str.split]. rewrite Ascii.eqb_sym.
  destruct (Ascii.eqb sep c) eqn:E.
  - intros _. cbn [length].
    pose proof (ScanFacts.split_nonempty sep t).
    destruct (Str.split sep t); [congruence | cbn; lia].
  - cbn [orb]. intros C. specialize (IH C).
    destruct (Str.split sep t); cbn in *; lia.
Qed.

Lemma parse_string_value_raises (H : Host) (text : string) (e : exn) :
  parse_string_value H text = Raise e ->
  uncaught e = true /\ literal_eval H text = Raise e.
Proof.
  unfold parse_string_value.
  destruct (literal_eval H text) as [l | e']; [discriminate | ].
  destruct e'; try discriminate; intros [= <-]; split; reflexivity.
Qed.

Lemma parse_function_args_errors (H : Host) (pieces : list string) :
  forall acc,
    match parse_function_args H pieces acc with
    | Ok function_meta =>
        existsb bad_piece pieces = false
        /\ (length (meta_args function_meta)
            + length (List.filter (fun p => Str.contains "=" (Str.strip p))
                        pieces)
            = length (meta_args acc) + length pieces)%nat
    | Raise e =>
        (e = ValueError "too many values to unpack (expected 2)"
         /\ existsb bad_piece pieces = true)
        \/ (uncaught e = true /\ exists text, literal_eval H text = Raise e)
    end.
Proof.
  induction pieces as [ | p rest IH]; intros acc.
  - cbn. split; [reflexivity | lia].
  - cbn [parse_function_args existsb List.filter]. unfold bad_piece at 1 3.
    destruct (Str.contains "=" (Str.strip p)) eqn:C; cbn [andb].
    + pose proof (split_contains "=" _ C) as L.
      destruct (Str.split "=" (Str.strip p)) as [ | key [ | value [ | x l]]];
        cbn in L; try lia.
      * cbn [length Nat.eqb negb orb].
        destruct (parse_string_value H (Str.strip value)) as [v | e] eqn:V;
          cbn [bind].
        -- specialize (IH (mkMeta (meta_args acc)
                             (kwargs_set (meta_kwargs acc) (Str.strip key)
                                v))).
           destruct (parse_function_args H rest _) as [m | e].
           ++ destruct IH as [B Len]. split; [exact B | ].
              cbn [meta_args length] in *. lia.
           ++ exact IH.
        -- right. destruct (parse_string_value_raises H _ _ V) as [U X].
           split; [exact U | eauto].
      * left. split; reflexivity.
    + cbn [orb].
      destruct (parse_string_value H (Str.strip p)) as [v | e] eqn:V;
        cbn [bind].
      * specialize (IH (mkMeta (meta_args acc ++ [v]) (meta_kwargs acc))).
        destruct (parse_function_args H rest _) as [m | e].
        -- destruct IH as [B Len]. split; [exact B | ].
           cbn [meta_args] in Len. rewrite length_app in Len. cbn in *. lia.
        -- exact IH.
      * right. destruct (parse_string_value_raises H _ _ V) as [U X].
        split; [exact U | eauto].
Qed.

(** X3.  The exceptions of [parse_function_params].  It returns only when
    no piece of the argument text between commas has more than one equals
    sign, and then, for text that is not empty, the pieces without an
    equals sign are the positional arguments, in number.  The exceptions
    that leave it are the [ValueError] of the unpacking of
    [arg.split('=')], only when there is such a piece, and whatever
    [ast.literal_eval] raises on a piece beside [ValueError] and
    [SyntaxError], the two exceptions that [parse_string_value] catches. *)
Theorem parse_function_params_errors (H : Host) (params : string) :
  let pieces := Str.split "," (Str.strip params) in
  match parse_function_params H params with
  | Ok function_meta =>
      existsb bad_piece pieces = false
      /\ (Str.strip params <> "" ->
          length (meta_args function_meta)
          = length (List.filter (fun p => negb (Str.contains "=" (Str.strip p)))
                      pieces))
  | Raise e =>
      (e = ValueError "too many values to unpack (expected 2)"
       /\ existsb bad_piece pieces = true)
      \/ (uncaught e = true /\ exists text, literal_eval H text = Raise e)
  end.
Proof.
  cbn zeta. unfold parse_function_params.
  destruct (String.eqb (Str.strip params) "") eqn:Z.
  - apply String.eqb_eq in Z. rewrite Z. cbn.
    split; [reflexivity | congruence].
  - pose proof (parse_function_args_errors H
                  (Str.split "," (Str.strip params)) (mkMeta [] [])) as E.
    destruct (parse_function_args H _ _) as [m | e]; [ | exact E].
    destruct E as [B Len]. split; [exact B | ]. intros _.
    cbn [meta_args length] in Len.
    pose proof (List.filter_length
                  (fun p => Str.contains "=" (Str.strip p))
                  (Str.split "," (Str.strip params))) as FL.
    cbn beta in FL. lia.
Qed.

(** ** The Preparer *)

(** X4.  A string without a dollar sign is returned by
    [prepare_lazy_data] as it is, not even stripped: no [LazyString] is
    built for it. *)
Theorem prepare_lazy_data_no_dollar (H : Host)
    (functions_mapping : gmap string FnObj) (known : gset string)
    (cached : bool) (s : string) :
  Str.contains "$" s = false ->
  prepare_lazy_data H (VStr s) functions_mapping known cached = Ok (VStr s).
Proof.
  intros D. unfold prepare_lazy_data. cbn [prepare_lazy_data_fuel prepare_level].
  unfold is_variable_exist, is_function_exist, Re.search, Re.findall.
  fold (regex_findall_variables s).
  rewrite ScanFacts.regex_findall_variables_names,
    (ScanFacts.variable_names_no_dollar s D),
    (ScanFacts.scan_function_no_dollar s 0 D).
  reflexivity.
Qed.

Lemma prepare_lazy_data_no_dollar_witness :
  prepare_lazy_data Demo.host (VStr " /api/users ") ∅ ∅ false
  = Ok (VStr " /api/users ").
Proof. apply prepare_lazy_data_no_dollar. reflexivity. Defined.

Lemma mapM_Forall {A B : Type} (f : A -> result B) (P : B -> Prop)
    (l : list A) (ys : list B) :
  Forall (fun x => forall y, f x = Ok y -> P y) l ->
  mapM f l = Ok ys -> Forall P ys /\ length ys = length l.
Proof.
  intros F. revert ys. induction F as [ | x t Hx Ht IH]; intros ys E.
  - cbn in E. injection E as <-. split; [constructor | reflexivity].
  - cbn in E. bind_inv E as y Ey. bind_inv E as r Er. injection E as <-.
    destruct (IH _ eq_refl) as [A1 A2]. split.
    + constructor; [now apply Hx | exact A1].
    + cbn. now rewrite A2.
Qed.

Lemma mapM_fixed {A : Type} (g : A -> result A) (ys : list A) :
  Forall (fun y => g y = Ok y) ys -> mapM g ys = Ok ys.
Proof.
  induction 1 as [ | y t E F IH]; cbn; [reflexivity | ].
  now rewrite E, IH.
Qed.

Lemma LazyString_init_Ok (H : Host) (fm : gmap string FnObj)
    (known : gset string) (rec : Value -> result Value) (raw : string)
    (cached : bool) (v : Value) :
  LazyString_init H fm known rec raw cached = Ok v ->
  exists ls, v = VLazyString ls.
Proof.
  unfold LazyString_init. intros E.
  bind_inv E as st1 E1. bind_inv E as st2 E2. injection E as <-. eauto.
Qed.

Section PrepareTwice.
Context (H H' : Host).
Context (fm fm' : gmap string FnObj) (known known' : gset string).
Context (rec rec' : Value -> result Value).

Lemma prepare_level_idempotent (content : Value) :
  forall cached cached' v,
    prepare_level H fm known rec cached content = Ok v ->
    prepare_level H' fm' known' rec' cached' v = Ok v.
Proof.
  revert content.
  apply (Value_mutind
           (fun content =>
              forall cached cached' v,
                prepare_level H fm known rec cached content = Ok v ->
                prepare_level H' fm' known' rec' cached' v = Ok v)
           (fun _ => True) (fun _ => True) (fun _ => True));
    try (intros; exact I);
    try (intros; match goal with
                 | E : prepare_level _ _ _ _ _ _ = Ok _ |- _ =>
                     cbn in E; injection E as <-; reflexivity
                 end).
  - (* VStr *)
    intros s cached cached' v E. cbn [prepare_level] in E.
    destruct (negb (is_variable_exist s || is_function_exist s)) eqn:T.
    + injection E as <-. cbn [prepare_level]. now rewrite T.
    + apply LazyString_init_Ok in E. destruct E as [ls ->]. reflexivity.
  - (* VSeq *)
    intros k items F cached cached' v E. cbn [prepare_level] in E.
    bind_inv E as parsed Ep. injection E as <-. cbn [prepare_level].
    rewrite (mapM_fixed (prepare_level H' fm' known' rec' cached') parsed);
      [reflexivity | ].
    refine (proj1 (mapM_Forall _ _ items parsed _ Ep)).
    eapply Forall_impl; [exact F | ]. intros x Hx y Ey.
    exact (Hx cached cached' y Ey).
  - (* VDict *)
    intros items F cached cached' v E. cbn [prepare_level] in E.
    bind_inv E as parsed Ep. injection E as <-. cbn [prepare_level].
    rewrite mapM_fixed; [reflexivity | ].
    refine (proj1 (mapM_Forall _ _ items parsed _ Ep)).
    eapply Forall_impl; [exact F | ]. intros kv [Hk Hv] y Ey. cbn beta in Ey.
    bind_inv Ey as pk Ek. bind_inv Ey as pv Ev. unfold prepared_item in Ey.
    destruct (hashable pk) eqn:Hh; [ | discriminate Ey]. injection Ey as <-.
    cbn [fst snd]. rewrite (Hk _ cached' _ Ek), (Hv _ cached' _ Ev). cbn.
    unfold prepared_item. now rewrite Hh.
Qed.
End PrepareTwice.

(** X5.  Preparing what was prepared changes nothing: the result of
    [prepare_lazy_data] is returned as it is by a second call, whatever the
    registry, the known variables and the [cached] flag of that call (a
    [LazyString] is not looked into again, so its variables are not checked
    against the new set). *)
Theorem prepare_lazy_data_idempotent (H H' : Host)
    (fm fm' : gmap string FnObj) (known known' : gset string)
    (cached cached' : bool) (content v : Value) :
  prepare_lazy_data H content fm known cached = Ok v ->
  prepare_lazy_data H' v fm' known' cached' = Ok v.
Proof.
  unfold prepare_lazy_data. cbn [prepare_lazy_data_fuel].
  apply prepare_level_idempotent.
Qed.

Lemma prepare_lazy_data_idempotent_witness :
  exists v,
    prepare_lazy_data Demo.host
      (VSeq KTuple [VStr "$a"; VStr "b"]) ∅ {["a"]} true = Ok v
    /\ prepare_lazy_data Demo.host v Demo.functions ∅ false = Ok v.
Proof.
  eexists. split; [vm_compute; reflexivity | ].
  apply (prepare_lazy_data_idempotent Demo.host Demo.host ∅ Demo.functions
           {["a"]} ∅ true false (VSeq KTuple [VStr "$a"; VStr "b"])).
  vm_compute. reflexivity.
Defined.
Lemma Forall_forallb {A : Type} (f : A -> bool) (l : list A) :
  Forall (fun x => f x = true) l -> forallb f l = true.
Proof.
  induction 1 as [ | x t E F IH]; cbn; [reflexivity | now rewrite E, IH].
Qed.

Lemma forallb_Forall {A : Type} (f : A -> bool) (l : list A) :
  forallb f l = true -> Forall (fun x => f x = true) l.
Proof.
  induction l as [ | x t IH]; cbn; [constructor | ].
  intros E. apply andb_true_iff in E. destruct E as [E1 E2].
  constructor; auto.
Qed.

Section WellPrepared.
Context (H : Host) (fm : gmap string FnObj) (known : gset string).

Lemma parse_string_value_concrete (p : string) (v : Value) :
  parse_string_value H p = Ok v -> concrete v = true.
Proof.
  unfold parse_string_value.
  destruct (literal_eval H p) as [[ | | | | ] | e].
  1-5: now intros [= <-].
  destruct e; try discriminate; now intros [= <-].
Qed.

Lemma kwargs_set_concrete (d : list (string * Value)) (k : string)
    (v : Value) :
  Forall (fun kv => concrete (snd kv) = true) d -> concrete v = true ->
  Forall (fun kv => concrete (snd kv) = true) (kwargs_set d k v).
Proof.
  intros F Cv. induction F as [ | [k' v'] t Hx Ht IH]; cbn.
  - constructor; [exact Cv | constructor].
  - destruct (String.eqb k' k); constructor; auto.
Qed.

Lemma parse_function_args_concrete (pieces : list string) :
  forall acc function_meta,
    Forall (fun v => concrete v = true) (meta_args acc) ->
    Forall (fun kv => concrete (snd kv) = true) (meta_kwargs acc) ->
    parse_function_args H pieces acc = Ok function_meta ->
    Forall (fun v => concrete v = true) (meta_args function_meta)
    /\ Forall (fun kv => concrete (snd kv) = true)
              (meta_kwargs function_meta).
Proof.
  induction pieces as [ | p rest IH]; intros acc meta A K E.
  - cbn in E. now injection E as <-.
  - cbn [parse_function_args] in E.
    destruct (Str.contains "=" (Str.strip p)).
    + destruct (Str.split "=" (Str.strip p))
        as [ | key [ | value [ | x l]]]; try discriminate E.
      bind_inv E as v Ev.
      apply IH in E; [exact E | exact A | ]. cbn [meta_kwargs].
      apply kwargs_set_concrete; [exact K | ].
      exact (parse_string_value_concrete _ _ Ev).
    + bind_inv E as v Ev.
      apply IH in E; [exact E | | exact K]. cbn [meta_args].
      apply Forall_app. split; [exact A | ].
      constructor; [exact (parse_string_value_concrete _ _ Ev) | constructor].
Qed.

Lemma parse_function_params_concrete (params : string)
    (function_meta : FunctionMeta) :
  parse_function_params H params = Ok function_meta ->
  Forall (fun v => concrete v = true) (meta_args function_meta)
  /\ Forall (fun kv => concrete (snd kv) = true) (meta_kwargs function_meta).
Proof.
  unfold parse_function_params.
  destruct (String.eqb (Str.strip params) "").
  - intros [= <-]. split; constructor.
  - intros E. apply parse_function_args_concrete in E;
      [exact E | constructor | constructor].
Qed.

Lemma args_mapping_set_Forall (P : Slot -> Prop) (d : list (nat * Slot))
    (k : nat) (v : Slot) :
  Forall (fun kv => P (snd kv)) d -> P v ->
  Forall (fun kv => P (snd kv)) (args_mapping_set d k v).
Proof.
  intros F Pv. induction F as [ | [k' v'] t Hx Ht IH]; cbn.
  - constructor; [exact Pv | constructor].
  - destruct (Nat.eqb k' k); constructor; auto.
Qed.

Lemma args_mapping_get_Forall (P : Slot -> Prop) (d : list (nat * Slot))
    (k : nat) (v : Slot) :
  Forall (fun kv => P (snd kv)) d -> args_mapping_get d k = Some v -> P v.
Proof.
  induction 1 as [ | [k' v'] t Hx Ht IH]; cbn; [discriminate | ].
  destruct (Nat.eqb k' k); [now intros [= <-] | exact IH].
Qed.

Lemma sorted_slots_Forall (P : Slot -> Prop) (d : list (nat * Slot)) :
  Forall (fun kv => P (snd kv)) d -> Forall P (sorted_slots d).
Proof.
  intros F. unfold sorted_slots. apply Forall_forall. intros s Hs.
  apply list_elem_of_omap in Hs. destruct Hs as (k & _ & Hk).
  now apply (args_mapping_get_Forall P d k s F).
Qed.

Lemma parse_variables_Forall (P : Slot -> Prop) (raw : string)
    (names : list string) :
  (forall n, n ∈ known -> P (SVar n)) ->
  forall st st',
    Forall (fun kv => P (snd kv)) (ps_args_mapping st) ->
    parse_variables known raw names st = Ok st' ->
    Forall (fun kv => P (snd kv)) (ps_args_mapping st').
Proof.
  intros PV. induction names as [ | n t IH]; intros st st' F E.
  - cbn in E. now injection E as <-.
  - cbn [parse_variables] in E.
    destruct (bool_decide (n ∈ known)) eqn:K; [ | discriminate E].
    apply bool_decide_eq_true in K.
    destruct (Str.index raw ("$" ++ n) (ps_position st)) as [pos | ];
      [ | discriminate E].
    apply IH in E; [exact E | ]. cbn [ps_args_mapping].
    apply args_mapping_set_Forall; [exact F | now apply PV].
Qed.

Context (rec : Value -> result Value).
Hypothesis rec_well_prepared :
  forall a v, concrete a = true -> rec a = Ok v ->
              well_prepared known v = true.

Lemma LazyFunction_init_well_prepared (func_name : string)
    (function_meta : FunctionMeta) (lf : LazyFunction) :
  Forall (fun v => concrete v = true) (meta_args function_meta) ->
  Forall (fun kv => concrete (snd kv) = true) (meta_kwargs function_meta) ->
  LazyFunction_init H fm known rec func_name function_meta = Ok lf ->
  well_prepared_LazyFunction known lf = true.
Proof.
  intros A K E. unfold LazyFunction_init in E.
  bind_inv E as f Ef. bind_inv E as a Ea. bind_inv E as kw Ekw.
  assert (Wa : forallb (well_prepared known) a = true).
  { apply Forall_forallb.
    refine (proj1 (mapM_Forall _ _ _ a _ Ea)).
    eapply Forall_impl; [exact A | ]. intros x Cx y Ey.
    exact (rec_well_prepared x y Cx Ey). }
  assert (Wk : forallb (fun kv => hashable (fst kv)
                                  && well_prepared known (fst kv)
                                  && well_prepared known (snd kv)) kw = true).
  { apply Forall_forallb.
    refine (proj1 (mapM_Forall _ _ _ kw _ Ekw)).
    apply Forall_forall. intros kv Hin y Ey.
    apply list_elem_of_fmap in Hin. destruct Hin as ([k v] & -> & Hin).
    rewrite Forall_forall in K. specialize (K _ Hin).
    unfold prepare_arg_item in Ey. cbn [fst snd] in *.
    bind_inv Ey as pk Ek. bind_inv Ey as pv Ev. unfold prepared_item in Ey.
    destruct (hashable pk) eqn:Hh; [ | discriminate Ey]. injection Ey as <-.
    cbn [fst snd]. rewrite Hh.
    rewrite (rec_well_prepared (VStr k) pk eq_refl Ek).
    now rewrite (rec_well_prepared v pv K Ev). }
  destruct f as [f | o]; [ | discriminate E].
  destruct (String.eqb (fn_name f) "load_csv_file").
  { destruct a as [ | a0 [ | a1 a']]; try discriminate E.
    destruct (nonempty kw); [discriminate E | ]. injection E as <-.
    cbn. cbn in Wa. now rewrite Wa, Wk. }
  destruct (String.eqb (fn_name f) "get_os_environ").
  { destruct a as [ | a0 [ | a1 a']]; try discriminate E.
    destruct (nonempty kw); [discriminate E | ]. injection E as <-.
    cbn. cbn in Wa. now rewrite Wa, Wk. }
  injection E as <-. cbn. now rewrite Wa, Wk.
Qed.

Lemma parse_functions_well_prepared (raw : string)
    (matches : list (string * string)) :
  forall st st',
    Forall (fun kv => well_prepared_Slot known (snd kv) = true)
           (ps_args_mapping st) ->
    parse_functions H fm known rec raw matches st = Ok st' ->
    Forall (fun kv => well_prepared_Slot known (snd kv) = true)
           (ps_args_mapping st').
Proof.
  induction matches as [ | [name args] rest IH]; intros st st' F E.
  - cbn in E. now injection E as <-.
  - cbn [parse_functions fst snd] in E.
    destruct (Str.index raw ("${" ++ name ++ "(" ++ args ++ ")}")
                (ps_position st)) as [pos | ]; [ | discriminate E].
    bind_inv E as function_meta Em. bind_inv E as lazy_func El.
    apply IH in E; [exact E | ]. cbn [ps_args_mapping].
    apply (args_mapping_set_Forall
             (fun s => well_prepared_Slot known s = true)); [exact F | ].
    cbn.
    destruct (parse_function_params_concrete _ _ Em) as [A K].
    exact (LazyFunction_init_well_prepared name function_meta lazy_func
             A K El).
Qed.

Lemma prepare_level_well_prepared (content : Value) :
  forall cached v,
    concrete content = true ->
    prepare_level H fm known rec cached content = Ok v ->
    well_prepared known v = true.
Proof.
  revert content.
  apply (Value_mutind
           (fun content =>
              forall cached v,
                concrete content = true ->
                prepare_level H fm known rec cached content = Ok v ->
                well_prepared known v = true)
           (fun _ => True) (fun _ => True) (fun _ => True));
    try (intros; exact I);
    try (intros; match goal with
                 | E : prepare_level _ _ _ _ _ _ = Ok _ |- _ =>
                     cbn in E; injection E as <-; reflexivity
                 end).
  - (* VStr *)
    intros s cached v _ E. cbn [prepare_level] in E.
    destruct (negb (is_variable_exist s || is_function_exist s)) eqn:T.
    + injection E as <-. exact T.
    + unfold LazyString_init in E.
      bind_inv E as st1 E1. bind_inv E as st2 E2. injection E as <-.
      cbn. apply Forall_forallb.
      apply (sorted_slots_Forall
               (fun s => well_prepared_Slot known s = true)).
      eapply (parse_variables_Forall
                (fun s => well_prepared_Slot known s = true));
        [ | | exact E2].
      * intros n Hn. cbn. now apply bool_decide_eq_true.
      * cbn [ps_args_mapping].
        eapply parse_functions_well_prepared; [ | exact E1]. constructor.
  - (* VSeq *)
    intros k items F cached v C E. cbn [prepare_level] in E.
    bind_inv E as parsed Ep. injection E as <-. cbn.
    apply Forall_forallb.
    refine (proj1 (mapM_Forall _ _ items parsed _ Ep)).
    cbn in C. apply forallb_Forall in C.
    rewrite Forall_forall in F, C. apply Forall_forall. intros x Hx y Ey.
    exact (F x Hx cached y (C x Hx) Ey).
  - (* VDict *)
    intros items F cached v C E. cbn [prepare_level] in E.
    bind_inv E as parsed Ep. injection E as <-. cbn.
    apply Forall_forallb.
    refine (proj1 (mapM_Forall _ _ items parsed _ Ep)).
    cbn in C. apply forallb_Forall in C.
    rewrite Forall_forall in F, C. apply Forall_forall. intros kv Hkv y Ey.
    cbn beta in Ey. destruct (F kv Hkv) as [Fk Fv].
    specialize (C kv Hkv). apply andb_true_iff in C. destruct C as [Ck Cv].
    bind_inv Ey as pk Ek. bind_inv Ey as pv Ev. unfold prepared_item in Ey.
    destruct (hashable pk) eqn:Hh; [ | discriminate Ey]. injection Ey as <-.
    cbn [fst snd].
    now rewrite Hh, (Fk cached pk Ck Ek), (Fv cached pv Cv Ev).
  - (* VLazyString *)
    intros ls _ cached v C. discriminate C.
Qed.
End WellPrepared.

(** X6.  What a successful preparation guarantees.  Prepared from a value
    without lazy values, the result has no text left with a variable
    reference or a function call, has lists for all its sequences and
    hashable keys, and every variable slot of its lazy values, also in the
    arguments of their functions, is in [check_variables_set]; no function
    has been evaluated. *)
Theorem prepare_lazy_data_well_prepared (H : Host)
    (functions_mapping : gmap string FnObj) (check_variables_set : gset string)
    (cached : bool) (content v : Value) :
  concrete content = true ->
  prepare_lazy_data H content functions_mapping check_variables_set cached
  = Ok v ->
  well_prepared check_variables_set v = true.
Proof.
  intros C E. unfold prepare_lazy_data in E. cbn [prepare_lazy_data_fuel] in E.
  eapply prepare_level_well_prepared; [ | exact C | exact E].
  intros a w Ca Ea.
  eapply prepare_level_well_prepared; [ | exact Ca | exact Ea].
  intros a' w' _ E'. discriminate E'.
Qed.

Lemma prepare_lazy_data_well_prepared_witness :
  exists v,
    prepare_lazy_data Demo.host
      (VDict [(VStr "url", VStr "/api/$id?n=${add($a, 1)}")])
      Demo.functions {["id"; "a"]} false = Ok v
    /\ well_prepared {["id"; "a"]} v = true.
Proof.
  eexists. split; [vm_compute; reflexivity | ].
  apply (prepare_lazy_data_well_prepared Demo.host Demo.functions
           {["id"; "a"]} false
           (VDict [(VStr "url", VStr "/api/$id?n=${add($a, 1)}")]));
    [reflexivity | vm_compute; reflexivity].
Defined.

Lemma mapM_length {A B : Type} (f : A -> result B) (l : list A)
    (ys : list B) :
  mapM f l = Ok ys -> length ys = length l.
Proof.
  intros E. refine (proj2 (mapM_Forall f (fun _ => True) l ys _ E)).
  apply Forall_forall. auto.
Qed.

(** X7.  The two reserved functions take one positional argument and no
    keyword argument.  When the name of a call resolves to a function whose
    [__name__] is [load_csv_file] or [get_os_environ] and its arguments are
    prepared without an exception, the [LazyFunction] is built if there is
    exactly one positional argument and no keyword, and [ParamsError] is
    raised otherwise. *)
Theorem reserved_function_arity (H : Host) (fm : gmap string FnObj)
    (known : gset string) (rec : Value -> result Value) (func_name : string)
    (function_meta : FunctionMeta) (f : FnObj) (a : list Value)
    (kw : list (Value * Value)) :
  get_mapping_function H func_name fm = Ok (ObjFn f) ->
  fn_name f = "load_csv_file" \/ fn_name f = "get_os_environ" ->
  mapM rec (meta_args function_meta) = Ok a ->
  mapM (prepare_arg_item rec)
    (map (fun kv => (VStr (fst kv), snd kv)) (meta_kwargs function_meta))
  = Ok kw ->
  if (length (meta_args function_meta) =? 1)%nat
     && negb (nonempty (meta_kwargs function_meta))
  then LazyFunction_init H fm known rec func_name function_meta
       = Ok (mkLazyFunction fm known None f a kw)
  else exists m,
      LazyFunction_init H fm known rec func_name function_meta
      = Raise (ParamsError (Msg m)).
Proof.
  intros Ef N Ea Ek. unfold LazyFunction_init. rewrite Ef, Ea, Ek.
  cbn [bind]. pose proof (mapM_length _ _ _ Ea) as La.
  pose proof (mapM_length _ _ _ Ek) as Lk. rewrite length_map in Lk.
  rewrite <- La.
  assert (Nk : nonempty (meta_kwargs function_meta) = nonempty kw).
  { destruct (meta_kwargs function_meta), kw; cbn in *; congruence. }
  rewrite Nk.
  destruct N as [N | N]; rewrite N; cbn [String.eqb Ascii.eqb Bool.eqb];
    destruct a as [ | a0 [ | a1 a']]; cbn [length Nat.eqb andb];
    try (eexists; reflexivity);
    destruct (nonempty kw); cbn [negb]; try reflexivity;
    eexists; reflexivity.
Qed.

Lemma reserved_function_arity_witness :
  exists m,
    LazyFunction_init Demo.host ∅ ∅ (fun v => Ok v) "ENV"
      (mkMeta [VStr "HOME"; VStr "x"] [])
    = Raise (ParamsError (Msg m)).
Proof.
  apply (reserved_function_arity Demo.host ∅ ∅ (fun v => Ok v) "ENV"
           (mkMeta [VStr "HOME"; VStr "x"] []) get_os_environ
           [VStr "HOME"; VStr "x"] []).
  - reflexivity.
  - now right.
  - reflexivity.
  - reflexivity.
Defined.
(** ** The Evaluator *)

Lemma Demo_concrete_calls : concrete_calls Demo.host.
Proof.
  intros f args kwargs v E. cbn in E. unfold Demo.call in E.
  repeat match type of E with
         | context [match ?x with _ => _ end] =>
             destruct x; try discriminate E
         end;
    injection E as <-; reflexivity.
Qed.

Lemma concrete_map_empty {K : Type} `{Countable K} :
  concrete_map (∅ : gmap K Value).
Proof. intros k v E. rewrite lookup_empty in E. discriminate. Qed.

Lemma concrete_map_insert {K : Type} `{Countable K} (m : gmap K Value)
    (k : K) (v : Value) :
  concrete_map m -> concrete v = true -> concrete_map (<[k := v]> m).
Proof.
  intros M V k' v' E. destruct (decide (k = k')) as [-> | N].
  - rewrite lookup_insert_eq in E. now injection E as <-.
  - rewrite lookup_insert_ne in E by exact N. exact (M _ _ E).
Qed.

Lemma dict_set_concrete (H : Host) (d : list (Value * Value)) (k v : Value) :
  forallb concrete_item d = true -> concrete k = true -> concrete v = true ->
  forallb concrete_item (dict_set H d k v) = true.
Proof.
  intros D K V. induction d as [ | [k' v'] t IH]; cbn.
  - unfold concrete_item. cbn. now rewrite K, V.
  - cbn in D. apply andb_true_iff in D. destruct D as [D1 D2].
    unfold concrete_item in D1. cbn in D1.
    apply andb_true_iff in D1. destruct D1 as [D1 D1'].
    destruct (key_eq H k' k); cbn; unfold concrete_item at 1; cbn.
    + now rewrite D1, V, D2.
    + now rewrite D1, D1', IH.
Qed.

Section Concrete.
Context (H : Host) (vm : Variables).
Hypothesis calls : concrete_calls H.
Hypothesis variables : concrete_map vm.

Lemma parse_items_concrete (items : list Value) :
  Forall (fun v => keeps_concrete (fun x => concrete x = true)
                     (parse_lazy_data H v vm)) items ->
  keeps_concrete (fun xs => forallb concrete xs = true)
    (parse_items (parse_lazy_data H) vm items).
Proof.
  induction 1 as [ | x t Hx Ht IH]; intros cache r C E; cbn in E.
  - injection E as <-. split; [reflexivity | exact C].
  - bind_inv E as r1 E1. bind_inv E as r2 E2. injection E as <-. cbn.
    destruct (Hx _ _ C E1) as [A1 B1]. destruct (IH _ _ B1 E2) as [A2 B2].
    split; [now rewrite A1, A2 | exact B2].
Qed.

Lemma parse_dict_items_concrete (items : list (Value * Value)) :
  Forall (fun kv =>
            keeps_concrete (fun x => concrete x = true)
              (parse_lazy_data H (fst kv) vm)
            /\ keeps_concrete (fun x => concrete x = true)
                 (parse_lazy_data H (snd kv) vm)) items ->
  forall parsed,
    forallb concrete_item parsed = true ->
    keeps_concrete (fun d => forallb concrete_item d = true)
      (parse_dict_items H (parse_lazy_data H) vm items parsed).
Proof.
  induction 1 as [ | kv t [Hk Hv] Ht IH]; intros parsed P cache r C E;
    cbn in E.
  - injection E as <-. split; [exact P | exact C].
  - bind_inv E as r1 E1. bind_inv E as r2 E2.
    destruct (hashable (ev_value r1)); [ | discriminate E].
    bind_inv E as r3 E3. injection E as <-. cbn.
    destruct (Hk _ _ C E1) as [A1 B1]. destruct (Hv _ _ B1 E2) as [A2 B2].
    refine (IH _ _ _ _ B2 E3). now apply dict_set_concrete.
Qed.

Lemma LazyString_args_concrete (cached : bool) (slots : list Slot) :
  Forall (fun s => forall c,
              keeps_concrete (fun x => concrete x = true)
                (LazyString_arg H (parse_lazy_data H) vm c s)) slots ->
  keeps_concrete (fun xs => forallb concrete xs = true)
    (LazyString_args H (parse_lazy_data H) vm cached slots).
Proof.
  induction 1 as [ | x t Hx Ht IH]; intros cache r C E; cbn in E.
  - injection E as <-. split; [reflexivity | exact C].
  - bind_inv E as r1 E1. bind_inv E as r2 E2. injection E as <-. cbn.
    destruct (Hx _ _ _ C E1) as [A1 B1]. destruct (IH _ _ B1 E2) as [A2 B2].
    split; [now rewrite A1, A2 | exact B2].
Qed.

Lemma parse_lazy_data_keeps_concrete (v : Value) :
  keeps_concrete (fun x => concrete x = true) (parse_lazy_data H v vm).
Proof.
  revert v.
  apply (Value_mutind
           (fun v => keeps_concrete (fun x => concrete x = true)
                       (parse_lazy_data H v vm))
           (fun ls => keeps_concrete (fun x => concrete x = true)
                        (to_value H ls vm))
           (fun s => forall c,
                keeps_concrete (fun x => concrete x = true)
                  (LazyString_arg H (parse_lazy_data H) vm c s))
           (fun lf => keeps_concrete (fun x => concrete x = true)
                        (LazyFunction_to_value H (parse_lazy_data H) vm lf)));
    try (intros; intros cache res C E; cbn in E; injection E as <-;
         split; [reflexivity | exact C]; fail).
  - (* VSeq *)
    intros k items F cache r C E. cbn in E. bind_inv E as x Ex.
    injection E as <-. exact (parse_items_concrete items F _ _ C Ex).
  - (* VDict *)
    intros items F cache r C E. cbn in E. bind_inv E as x Ex.
    injection E as <-.
    exact (parse_dict_items_concrete items F [] eq_refl _ _ C Ex).
  - (* VLazyString *)
    intros ls F cache r C E. cbn in E. bind_inv E as x Ex.
    injection E as <-. exact (F _ _ C Ex).
  - (* LazyString *)
    intros raw f k c s a F cache r C E.
    unfold to_value, LazyString_to_value in E. cbn in E.
    bind_inv E as x Ex.
    destruct (LazyString_args_concrete c a F _ _ C Ex) as [A B].
    destruct (String.eqb s "{}").
    + destruct (ev_value x) as [ | a0 rest]; [discriminate E | ].
      injection E as <-. cbn in *. apply andb_true_iff in A.
      split; [now destruct A | exact B].
    + bind_inv E as y Ey. injection E as <-. split; [reflexivity | exact B].
  - (* SVar *)
    intros n c cache r C E. cbn in E. unfold get_mapping_variable in E.
    destruct (vm !! n) as [v | ] eqn:V; [ | discriminate E].
    injection E as <-. split; [exact (variables _ _ V) | exact C].
  - (* SFunc *)
    intros lf F c cache r C E. cbn in E.
    destruct (cache_hit c lf cache) as [value | ] eqn:Hh.
    + injection E as <-. split; [ | exact C]. cbn.
      unfold cache_hit in Hh. destruct c; [ | discriminate Hh].
      destruct (lf_cache_key lf); [ | discriminate Hh].
      exact (C _ _ Hh).
    + bind_inv E as x Ex. injection E as <-. cbn.
      destruct (F _ _ C Ex) as [A B].
      split; [exact A | now apply concrete_map_insert].
  - (* LazyFunction *)
    intros f k c fn a kw Fa Fkw cache r C E.
    unfold LazyFunction_to_value in E. cbn in E.
    bind_inv E as x1 E1. bind_inv E as x2 E2. bind_inv E as x3 E3.
    bind_inv E as x4 E4. injection E as <-. cbn.
    destruct (parse_items_concrete a Fa _ _ C E1) as [_ B1].
    destruct (parse_dict_items_concrete kw Fkw [] eq_refl _ _ B1 E2)
      as [_ B2].
    split; [exact (calls _ _ _ _ E4) | exact B2].
Qed.
End Concrete.

(** X8.  An evaluation leaves no lazy value behind when the values it is
    given have none: if the functions return values without a
    [LazyString], and neither the variables nor the cache hold one, the
    value returned by [parse_lazy_data] has none at any depth, and the cache
    after the call holds none. *)
Theorem parse_lazy_data_concrete (H : Host) (content : Value)
    (variables_mapping : Variables) (cache : Cache)
    (r : Evaluated Value Value) :
  concrete_calls H -> concrete_map variables_mapping -> concrete_map cache ->
  parse_lazy_data H content variables_mapping cache = Ok r ->
  concrete (ev_value r) = true /\ concrete_map (ev_cache r).
Proof.
  intros Hc Hv C E.
  exact (parse_lazy_data_keeps_concrete H variables_mapping Hc Hv content
           cache r C E).
Qed.

Lemma parse_lazy_data_concrete_witness :
  exists r,
    parse_lazy_data Demo.host
      (VSeq KTuple
         [VLazyString
            (mkLazyString "${one()}" Demo.functions ∅ false "{}"
               [SFunc (mkLazyFunction Demo.functions ∅ None Demo.one_fn
                         [] [])])]) ∅ ∅ = Ok r
    /\ concrete (ev_value r) = true /\ concrete_map (ev_cache r).
Proof.
  eexists. split; [vm_compute; reflexivity | ].
  apply (parse_lazy_data_concrete Demo.host
           (VSeq KTuple
              [VLazyString
                 (mkLazyString "${one()}" Demo.functions ∅ false "{}"
                    [SFunc (mkLazyFunction Demo.functions ∅ None Demo.one_fn
                              [] [])])]) ∅ ∅).
  - exact Demo_concrete_calls.
  - exact concrete_map_empty.
  - exact concrete_map_empty.
  - vm_compute. reflexivity.
Defined.

Lemma cache_free_Ok {V O : Type} (self : O)
    (eval : Cache -> result (Evaluated V O)) (cache : Cache)
    (r : Evaluated V O) :
  cache_free self eval -> eval cache = Ok r ->
  ev_self r = self /\ ev_cache r = cache.
Proof.
  intros F E. pose proof (F _ _ E cache) as E'. rewrite E in E'.
  injection E' as ->. split; reflexivity.
Qed.

Section NoCalls.
Context (H : Host) (vm : Variables).

Lemma parse_items_cache_free (items : list Value) :
  Forall (fun v => cache_free v (parse_lazy_data H v vm)) items ->
  cache_free items (parse_items (parse_lazy_data H) vm items).
Proof.
  induction 1 as [ | x t Hx Ht IH]; intros cache r E cache'; cbn in E.
  - injection E as <-. reflexivity.
  - bind_inv E as r1 E1. bind_inv E as r2 E2. injection E as <-. cbn.
    rewrite (Hx _ _ E1 cache'). cbn [bind ev_cache].
    rewrite (IH _ _ E2 cache'). reflexivity.
Qed.

Lemma parse_dict_items_cache_free (items : list (Value * Value)) :
  Forall (fun kv => cache_free (fst kv) (parse_lazy_data H (fst kv) vm)
                    /\ cache_free (snd kv) (parse_lazy_data H (snd kv) vm))
         items ->
  forall parsed,
    cache_free items (parse_dict_items H (parse_lazy_data H) vm items parsed).
Proof.
  induction 1 as [ | [k v] t [Hk Hv] Ht IH]; intros parsed cache r E cache';
    cbn in E.
  - injection E as <-. reflexivity.
  - cbn [fst snd] in Hk, Hv. bind_inv E as r1 E1. bind_inv E as r2 E2.
    destruct (hashable (ev_value r1)) eqn:Hh; [ | discriminate E].
    bind_inv E as r3 E3. injection E as <-. cbn.
    rewrite (Hk _ _ E1 cache'). cbn [bind ev_cache ev_value].
    rewrite (Hv _ _ E2 cache'). cbn [bind ev_cache ev_value]. rewrite Hh.
    rewrite (IH _ _ _ E3 cache'). reflexivity.
Qed.

Lemma LazyString_args_cache_free (cached : bool) (slots : list Slot) :
  forallb variable_slot slots = true ->
  cache_free slots (LazyString_args H (parse_lazy_data H) vm cached slots).
Proof.
  induction slots as [ | s t IH]; intros V cache r E cache'.
  - cbn in E. injection E as <-. reflexivity.
  - cbn in V. apply andb_true_iff in V. destruct V as [V1 V2].
    destruct s as [n | lf]; [ | discriminate V1].
    cbn [LazyString_args LazyString_arg] in E |- *.
    destruct (get_mapping_variable n vm) as [v | e] eqn:Ev;
      [ | discriminate E].
    cbn [bind ev_cache ev_value ev_self] in E |- *.
    bind_inv E as r2 E2. injection E as <-. cbn [ev_value].
    rewrite (IH V2 _ _ E2 cache'). reflexivity.
Qed.

Lemma parse_lazy_data_cache_free (v : Value) :
  no_calls v = true -> cache_free v (parse_lazy_data H v vm).
Proof.
  revert v.
  apply (Value_mutind
           (fun v => no_calls v = true ->
                     cache_free v (parse_lazy_data H v vm))
           (fun _ => True) (fun _ => True) (fun _ => True));
    try (intros; exact I);
    try (intros; intros cache res E cache'; cbn in E; injection E as <-;
         reflexivity).
  - (* VSeq *)
    intros k items F N cache r E cache'. cbn in E. bind_inv E as x Ex.
    injection E as <-. cbn in N. apply forallb_Forall in N.
    assert (F' : Forall (fun v => cache_free v (parse_lazy_data H v vm))
                   items).
    { rewrite Forall_forall in F, N. apply Forall_forall. intros y Hy.
      exact (F y Hy (N y Hy)). }
    cbn. rewrite (parse_items_cache_free items F' _ _ Ex cache').
    reflexivity.
  - (* VDict *)
    intros items F N cache r E cache'. cbn in E. bind_inv E as x Ex.
    injection E as <-. cbn in N. apply forallb_Forall in N.
    assert (F' : Forall (fun kv =>
                           cache_free (fst kv)
                             (parse_lazy_data H (fst kv) vm)
                           /\ cache_free (snd kv)
                                (parse_lazy_data H (snd kv) vm)) items).
    { rewrite Forall_forall in F, N. apply Forall_forall. intros y Hy.
      destruct (F y Hy) as [Fk Fv]. specialize (N y Hy).
      apply andb_true_iff in N. destruct N as [Nk Nv]. split; auto. }
    cbn. rewrite (parse_dict_items_cache_free items F' [] _ _ Ex cache').
    reflexivity.
  - (* VLazyString *)
    intros [raw f k c s a] _ N cache r E cache'. cbn in N.
    cbn in E. bind_inv E as x Ex. injection E as <-.
    unfold LazyString_to_value in Ex. cbn in Ex. bind_inv Ex as y Ey.
    pose proof (LazyString_args_cache_free c a N _ _ Ey) as A.
    cbn. unfold LazyString_to_value. cbn. rewrite (A cache'). cbn.
    destruct (String.eqb s "{}").
    + destruct (ev_value y) as [ | a0 rest]; [discriminate Ex | ].
      injection Ex as <-. reflexivity.
    + bind_inv Ex as z Ez. injection Ex as <-. reflexivity.
Qed.
End NoCalls.

(** X9.  Where no function is called, the cache plays no part.  For content
    whose lazy strings have variable slots only, an evaluation that returns
    gives the same value from any cache, returns the content as it was, and
    leaves the cache as it was. *)
Theorem parse_lazy_data_without_calls (H : Host) (content : Value)
    (variables_mapping : Variables) (cache cache' : Cache)
    (r : Evaluated Value Value) :
  no_calls content = true ->
  parse_lazy_data H content variables_mapping cache = Ok r ->
  ev_self r = content /\ ev_cache r = cache
  /\ parse_lazy_data H content variables_mapping cache'
     = Ok (mkEvaluated (ev_value r) content cache').
Proof.
  intros N E.
  pose proof (parse_lazy_data_cache_free H variables_mapping content N) as F.
  destruct (cache_free_Ok _ _ _ _ F E) as [A B].
  split; [exact A | ]. split; [exact B | ]. exact (F _ _ E cache').
Qed.

Lemma parse_lazy_data_without_calls_witness :
  exists r,
    parse_lazy_data Demo.host
      (VDict [(VStr "id", lazy_var ∅ {["a"]} "a")]) {["a" := VInt 3]} ∅
    = Ok r
    /\ ev_self r = VDict [(VStr "id", lazy_var ∅ {["a"]} "a")]
    /\ ev_cache r = ∅.
Proof.
  eexists. split; [vm_compute; reflexivity | ].
  destruct (parse_lazy_data_without_calls Demo.host
              (VDict [(VStr "id", lazy_var ∅ {["a"]} "a")])
              {["a" := VInt 3]} ∅ ∅
              (mkEvaluated (VDict [(VStr "id", VInt 3)])
                 (VDict [(VStr "id", lazy_var ∅ {["a"]} "a")]) ∅))
    as (A & B & _); [reflexivity | vm_compute; reflexivity | ].
  split; [exact A | exact B].
Defined.

(** X10.  An evaluation never removes an entry of the cache, and the
    content after the call is the content before it up to the [cache_key]
    fields of its functions. *)
Theorem parse_lazy_data_keeps_cache_keys (H : Host) (content : Value)
    (variables_mapping : Variables) (cache : Cache)
    (r : Evaluated Value Value) :
  parse_lazy_data H content variables_mapping cache = Ok r ->
  dom cache ⊆ dom (ev_cache r)
  /\ erase_keys (ev_self r) = erase_keys content.
Proof.
  intros E. destruct (frame_parse_all H content _ _ _ E) as [A B].
  split; [ | exact A].
  intros k Hk. apply elem_of_dom. apply B. now apply elem_of_dom.
Qed.

Lemma parse_lazy_data_keeps_cache_keys_witness :
  exists r,
    parse_lazy_data Demo.host
      (VLazyString
         (mkLazyString "${one()}" Demo.functions ∅ false "{}"
            [SFunc (mkLazyFunction Demo.functions ∅ None Demo.one_fn
                      [] [])])) ∅ {[ None := VInt 0 ]} = Ok r
    /\ dom ({[ None := VInt 0 ]} : Cache) ⊆ dom (ev_cache r).
Proof.
  eexists. split; [vm_compute; reflexivity | ].
  apply (parse_lazy_data_keeps_cache_keys Demo.host
           (VLazyString
              (mkLazyString "${one()}" Demo.functions ∅ false "{}"
                 [SFunc (mkLazyFunction Demo.functions ∅ None Demo.one_fn
                           [] [])])) ∅ {[ None := VInt 0 ]}).
  vm_compute. reflexivity.
Defined.

Lemma LazyString_arg_again (H : Host) (vm vm' : Variables) (cached : bool)
    (lf : LazyFunction) (cache : Cache) (r : Evaluated Value Slot) :
  LazyString_arg H (parse_lazy_data H) vm cached (SFunc lf) cache = Ok r ->
  LazyString_arg H (parse_lazy_data H) vm' true (ev_self r) (ev_cache r)
  = Ok (mkEvaluated (ev_value r) (ev_self r) (ev_cache r)).
Proof.
  intros E. cbn in E.
  destruct (cache_hit cached lf cache) as [value | ] eqn:Hh.
  - injection E as <-. cbn.
    unfold cache_hit in Hh. destruct cached; [ | discriminate Hh].
    unfold cache_hit. now rewrite Hh.
  - bind_inv E as x Ex. injection E as <-. cbn.
    unfold LazyFunction_to_value in Ex.
    bind_inv Ex as x1 E1. bind_inv Ex as x2 E2. bind_inv Ex as x3 E3.
    bind_inv Ex as x4 E4. injection Ex as <-. cbn.
    unfold cache_hit. cbn. now rewrite lookup_insert_eq.
Qed.

(** X11.  A cached result outlives the variables it was computed from.  A
    [LazyString] with [cached] true and a function call as its only slot is
    evaluated; evaluating it again, in the cache as it is then, gives the same
    value and changes nothing, whatever the variables are this time: the
    function is not called again. *)
Theorem to_value_cached_again (H : Host) (self : LazyString)
    (lazy_func : LazyFunction) (variables_mapping variables_mapping' : Variables)
    (cache : Cache) (r : Evaluated Value LazyString) :
  ls_cached self = true ->
  ls_args self = [SFunc lazy_func] ->
  to_value H self variables_mapping cache = Ok r ->
  to_value H (ev_self r) variables_mapping' (ev_cache r) = Ok r.
Proof.
  intros C A E. destruct self as [raw f k c s a]. cbn in C, A. subst c a.
  unfold to_value, LazyString_to_value in E.
  cbn [ls_cached ls_args ls_string ls_raw_string ls_functions_mapping
         ls_check_variables_set LazyString_args] in E.
  destruct (LazyString_arg H (parse_lazy_data H) variables_mapping true
              (SFunc lazy_func) cache) as [x | e] eqn:Ex;
    [ | cbn in E; discriminate E].
  cbn [bind ev_value ev_self ev_cache] in E.
  pose proof (LazyString_arg_again H variables_mapping variables_mapping'
                true lazy_func cache x Ex) as Again.
  assert (T : to_value H (mkLazyString raw f k true s [ev_self x])
                variables_mapping' (ev_cache x)
              = (if String.eqb s "{}"
                 then Ok (mkEvaluated (ev_value x)
                            (mkLazyString raw f k true s [ev_self x])
                            (ev_cache x))
                 else s0 <- py_format H s [ev_value x] ;;
                      Ok (mkEvaluated (VStr s0)
                            (mkLazyString raw f k true s [ev_self x])
                            (ev_cache x)))).
  { unfold to_value, LazyString_to_value.
    cbn [ls_cached ls_args ls_string ls_raw_string ls_functions_mapping
           ls_check_variables_set LazyString_args].
    rewrite Again. cbn [bind ev_value ev_self ev_cache].
    destruct (String.eqb s "{}"); reflexivity. }
  destruct (String.eqb s "{}").
  - injection E as <-. cbn [ev_self ev_cache]. exact T.
  - bind_inv E as y Ey. injection E as <-. cbn [ev_self ev_cache].
    rewrite T. reflexivity.
Qed.

Lemma to_value_cached_again_witness :
  exists r,
    to_value Demo.host
      (mkLazyString "${add($a, 1)}" Demo.functions {["a"]} true "{}"
         [SFunc (mkLazyFunction Demo.functions {["a"]} None Demo.add_fn
                   [lazy_var Demo.functions {["a"]} "a"; VInt 1] [])])
      {["a" := VInt 1]} ∅ = Ok r
    /\ ev_value r = VInt 2
    /\ to_value Demo.host (ev_self r) {["a" := VInt 5]} (ev_cache r) = Ok r.
Proof.
  eexists. split; [vm_compute; reflexivity | ]. split; [reflexivity | ].
  apply (to_value_cached_again Demo.host
           (mkLazyString "${add($a, 1)}" Demo.functions {["a"]} true "{}"
              [SFunc (mkLazyFunction Demo.functions {["a"]} None Demo.add_fn
                        [lazy_var Demo.functions {["a"]} "a"; VInt 1] [])])
           (mkLazyFunction Demo.functions {["a"]} None Demo.add_fn
              [lazy_var Demo.functions {["a"]} "a"; VInt 1] [])
           {["a" := VInt 1]} {["a" := VInt 5]} ∅);
    [reflexivity | reflexivity | vm_compute; reflexivity].
Defined.

(** ** Evaluation of the variable slots *)

Lemma lookup_all_length (vm : Variables) (names : list string) :
  forall values,
    lookup_all vm names = Some values -> length values = length names.
Proof.
  induction names as [ | n t IH]; intros values E; cbn in E.
  - now injection E as <-.
  - destruct (vm !! n); [ | discriminate E].
    destruct (lookup_all vm t) as [vs | ]; [ | discriminate E].
    injection E as <-. cbn. now rewrite (IH vs eq_refl).
Qed.

Lemma LazyString_args_variables (H : Host) (vm : Variables) (cached : bool)
    (names : list string) (cache : Cache) :
  forall values,
    lookup_all vm names = Some values ->
    LazyString_args H (parse_lazy_data H) vm cached (map SVar names) cache
    = Ok (mkEvaluated values (map SVar names) cache).
Proof.
  induction names as [ | n t IH]; intros values E; cbn in E.
  - now injection E as <-.
  - destruct (vm !! n) as [v | ] eqn:V; [ | discriminate E].
    destruct (lookup_all vm t) as [vs | ]; [ | discriminate E].
    injection E as <-.
    cbn [map LazyString_args LazyString_arg]. unfold get_mapping_variable.
    rewrite V. cbn [bind ev_cache]. rewrite (IH vs eq_refl). reflexivity.
Qed.

Lemma LazyString_args_missing (H : Host) (vm : Variables) (cached : bool)
    (names : list string) (rest : list Slot) (cache : Cache) (n : string) :
  first_missing vm names = Some n ->
  LazyString_args H (parse_lazy_data H) vm cached (map SVar names ++ rest)
    cache
  = Raise (VariableNotFound (n ++ " is not found.")).
Proof.
  induction names as [ | m t IH]; intros E; cbn in E; [discriminate E | ].
  cbn [map app LazyString_args LazyString_arg]. unfold get_mapping_variable.
  destruct (vm !! m) as [v | ] eqn:V.
  - cbn [bind ev_cache]. now rewrite (IH E).
  - now injection E as <-.
Qed.

Lemma py_format_template (H : Host) (lits : list string) (last : string) :
  forallb no_brace lits = true -> no_brace last = true ->
  forall values,
    length values = length lits ->
    py_format H (template_of lits last) values
    = Ok (filled H lits values last).
Proof.
  intros L B. apply andb_true_iff in B. destruct B as [B1 B2].
  apply negb_true_iff in B1, B2.
  induction lits as [ | l t IH]; intros values Len.
  - destruct values; [ | discriminate Len]. cbn.
    now apply py_format_literal.
  - destruct values as [ | v vs]; [discriminate Len | ].
    cbn in L. apply andb_true_iff in L. destruct L as [L1 L2].
    apply andb_true_iff in L1. destruct L1 as [L1 L1'].
    apply negb_true_iff in L1, L1'.
    cbn [template_of filled].
    rewrite (py_format_placeholder H l (template_of t last) v vs L1 L1').
    rewrite (IH L2 vs) by (cbn in Len; lia). reflexivity.
Qed.

(** X12.  A template of literal text without braces around its
    placeholders, whose slots are variables that are all in the mapping, is
    formatted to the literal text with the [str] of each value in the place
    of its placeholder, from left to right; the object and the cache are
    left as they are. *)
Theorem to_value_fills_template (H : Host) (self : LazyString)
    (lits : list string) (last : string) (names : list string)
    (values : list Value) (variables_mapping : Variables) (cache : Cache) :
  ls_string self = template_of lits last ->
  ls_string self <> "{}" ->
  forallb no_brace lits = true -> no_brace last = true ->
  ls_args self = map SVar names ->
  length names = length lits ->
  lookup_all variables_mapping names = Some values ->
  to_value H self variables_mapping cache
  = Ok (mkEvaluated (VStr (filled H lits values last)) self cache).
Proof.
  intros T N L B A Len V. destruct self as [raw f k c s a]. cbn in T, N, A.
  subst s a. unfold to_value, LazyString_to_value.
  cbn [ls_cached ls_args ls_string ls_raw_string ls_functions_mapping
         ls_check_variables_set].
  rewrite (LazyString_args_variables H variables_mapping c names cache
             values V).
  cbn [bind ev_value ev_self ev_cache].
  apply String.eqb_neq in N. rewrite N.
  rewrite (py_format_template H lits last L B values).
  - reflexivity.
  - rewrite <- Len. now apply lookup_all_length with variables_mapping.
Qed.

Lemma to_value_fills_template_witness :
  to_value Demo.host
    (mkLazyString "/users/$uid/posts/$pid" ∅ {["uid"; "pid"]} false
       "/users/{}/posts/{}" [SVar "uid"; SVar "pid"])
    {["uid" := VInt 7; "pid" := VStr "p1"]} ∅
  = Ok (mkEvaluated (VStr "/users/7/posts/p1")
          (mkLazyString "/users/$uid/posts/$pid" ∅ {["uid"; "pid"]} false
             "/users/{}/posts/{}" [SVar "uid"; SVar "pid"]) ∅).
Proof.
  apply (to_value_fills_template Demo.host
           (mkLazyString "/users/$uid/posts/$pid" ∅ {["uid"; "pid"]} false
              "/users/{}/posts/{}" [SVar "uid"; SVar "pid"])
           ["/users/"; "/posts/"] "" ["uid"; "pid"] [VInt 7; VStr "p1"]
           {["uid" := VInt 7; "pid" := VStr "p1"]} ∅);
    reflexivity || discriminate.
Defined.

(** X13.  A variable that is missing when the string is evaluated: when
    the first slots of a [LazyString] are variables and one of them is not
    in the mapping, [to_value] raises [VariableNotFound] for the first such
    name, with the text of [get_mapping_variable], before any later slot is
    looked at and before the template is formatted. *)
Theorem to_value_missing_variable (H : Host) (self : LazyString)
    (names : list string) (rest : list Slot) (name : string)
    (variables_mapping : Variables) (cache : Cache) :
  ls_args self = map SVar names ++ rest ->
  first_missing variables_mapping names = Some name ->
  to_value H self variables_mapping cache
  = Raise (VariableNotFound (name ++ " is not found.")).
Proof.
  intros A M. unfold to_value, LazyString_to_value. rewrite A.
  now rewrite (LazyString_args_missing H variables_mapping (ls_cached self)
                 names rest cache name M).
Qed.

Lemma to_value_missing_variable_witness :
  to_value Demo.host
    (mkLazyString "$a$b${boom()}" Demo.functions {["a"; "b"]} false "{}{}{}"
       [SVar "a"; SVar "b";
        SFunc (mkLazyFunction Demo.functions {["a"; "b"]} None Demo.boom_fn
                 [] [])])
    {["a" := VInt 1]} ∅
  = Raise (VariableNotFound "b is not found.").
Proof.
  apply (to_value_missing_variable Demo.host
           (mkLazyString "$a$b${boom()}" Demo.functions {["a"; "b"]} false
              "{}{}{}"
              [SVar "a"; SVar "b";
               SFunc (mkLazyFunction Demo.functions {["a"; "b"]} None
                        Demo.boom_fn [] [])])
           ["a"; "b"]
           [SFunc (mkLazyFunction Demo.functions {["a"; "b"]} None
                     Demo.boom_fn [] [])]
           "b" {["a" := VInt 1]} ∅).
  - reflexivity.
  - vm_compute. reflexivity.
Defined.

(** ** A string with one variable reference, from text to value *)

Module SingleReference.
Import Str StrFacts ScanFacts ReplaceFacts.

#[local] Arguments String.append !_ _ /.

Lemma word_not_open c : is_word c = true -> Ascii.eqb c "{" = false.
Proof. destruct c as [[] [] [] [] [] [] [] []]; vm_compute; congruence. Qed.

Lemma word_not_close c : is_word c = true -> Ascii.eqb c "}" = false.
Proof. destruct c as [[] [] [] [] [] [] [] []]; vm_compute; congruence. Qed.

Lemma literal_text_parts (s : string) :
  literal_text s = true ->
  contains "$" s = false /\ contains "{" s = false /\ contains "}" s = false.
Proof.
  unfold literal_text, no_brace. intros E.
  apply andb_true_iff in E. destruct E as [E1 E2].
  apply andb_true_iff in E2. destruct E2 as [E2 E3].
  apply negb_true_iff in E1, E2, E3. auto.
Qed.

Lemma drop_app_length (a b : string) : drop (String.length a) (a ++ b) = b.
Proof. induction a as [ | c t IH]; cbn; [reflexivity | exact IH]. Qed.

Lemma replace_first_here (old new post : string) :
  replace_first (old ++ post) old new = (new ++ post)%string.
Proof.
  destruct (old ++ post)%string eqn:X; cbn [replace_first];
    rewrite <- X, starts_with_app, drop_app_length; reflexivity.
Qed.

Lemma replace_first_at (pre n new post : string) :
  contains "$" pre = false ->
  replace_first (pre ++ ("$" ++ n) ++ post) ("$" ++ n) new
  = (pre ++ new ++ post)%string.
Proof.
  induction pre as [ | c t IH]; intros C.
  - change ("" ++ ("$" ++ n) ++ post)%string with (("$" ++ n) ++ post)%string.
    now rewrite replace_first_here.
  - cbn [contains] in C. apply orb_false_iff in C. destruct C as [C1 C2].
    change (String c t ++ ("$" ++ n) ++ post)%string
      with (String c (t ++ ("$" ++ n) ++ post)).
    cbn [replace_first]. change ("$" ++ n)%string with (String "$" n).
    cbn [starts_with]. rewrite Ascii.eqb_sym, C1. cbn [andb].
    change (String "$" n) with ("$" ++ n)%string. rewrite (IH C2).
    reflexivity.
Qed.

Section Reference.
Context (pre n post : string).
Hypothesis pre_text : literal_text pre = true.
Hypothesis post_text : literal_text post = true.
Hypothesis name_word : all_chars is_word n = true.
Hypothesis name_nonempty : n <> "".
Hypothesis name_ends : take_while is_word post = "".

Lemma reference_names : variable_names (pre ++ "$" ++ n ++ post) = [n].
Proof.
  destruct (literal_text_parts _ pre_text) as (P1 & _ & _).
  destruct (literal_text_parts _ post_text) as (Q1 & _ & _).
  rewrite variable_names_prefix by exact P1.
  change ("$" ++ n ++ post)%string with (String "$" (n ++ post)).
  cbn [variable_names]. change (Ascii.eqb "$" "$") with true. cbn iota.
  destruct (take_while_all is_word n name_word) as [_ D].
  destruct (take_while_app_all is_word n post D) as [X _].
  rewrite X, name_ends, append_nil_r.
  apply String.eqb_neq in name_nonempty. rewrite name_nonempty.
  rewrite variable_names_prefix
    by (eapply contains_all_chars; [apply word_not_dollar | exact name_word]).
  now rewrite (variable_names_no_dollar post Q1).
Qed.

Lemma reference_brace_free : brace_free (pre ++ "$" ++ n ++ post).
Proof.
  destruct (literal_text_parts _ pre_text) as (_ & P2 & _).
  destruct (literal_text_parts _ post_text) as (_ & Q2 & _).
  unfold brace_free. rewrite contains_app, P2. cbn [orb].
  change ("$" ++ n ++ post)%string with (String "$" (n ++ post)).
  cbn [contains]. change (Ascii.eqb "$" "{") with false. cbn [orb].
  rewrite contains_app, Q2, orb_false_r.
  eapply contains_all_chars; [apply word_not_open | exact name_word].
Qed.

Lemma reference_template (H : Host) (v : Value) :
  py_format H (pre ++ "{}" ++ post) [v]
  = Ok (pre ++ py_str H v ++ post)%string.
Proof.
  destruct (literal_text_parts _ pre_text) as (_ & P2 & P3).
  destruct (literal_text_parts _ post_text) as (_ & Q2 & Q3).
  rewrite (py_format_placeholder H pre post v [] P2 P3).
  now rewrite (py_format_literal H post [] Q2 Q3).
Qed.

Lemma reference_not_bare :
  (pre ++ "{}" ++ post)%string = "{}" -> pre = "" /\ post = "".
Proof.
  destruct (literal_text_parts _ pre_text) as (_ & P2 & _).
  destruct pre as [ | c t].
  - cbn. intros [= E]. now split.
  - cbn. intros [= -> E]. cbn in P2. discriminate P2.
Qed.

Lemma reference_prepared (H : Host) (fm : gmap string FnObj)
    (known : gset string) (rec : Value -> result Value) (cached : bool) :
  n ∈ known ->
  LazyString_init H fm known rec (pre ++ "$" ++ n ++ post) cached
  = Ok (VLazyString
          (mkLazyString (pre ++ "$" ++ n ++ post) fm known cached
             (pre ++ "{}" ++ post) [SVar n])).
Proof.
  intros K. unfold LazyString_init.
  rewrite (regex_findall_functions_brace_free _ reference_brace_free).
  cbn [parse_functions bind ps_string ps_args_mapping].
  rewrite regex_findall_variables_names, reference_names.
  cbn [parse_variables]. rewrite (bool_decide_eq_true_2 _ K).
  unfold index. cbn [ps_position Nat.leb drop].
  change (pre ++ "$" ++ n ++ post)%string
    with (pre ++ ("$" ++ n) ++ post)%string.
  destruct (find_app ("$" ++ n) pre post) as (j & Fj & _).
  rewrite Fj. cbn [option_map Nat.add bind ps_string ps_args_mapping].
  destruct (literal_text_parts _ pre_text) as (P1 & _ & _).
  rewrite (replace_first_at pre n "{}" post P1).
  unfold sorted_slots. cbn. now rewrite Nat.eqb_refl.
Qed.
End Reference.
End SingleReference.

(** X14.  A string with one variable reference, from text to value.  The
    string, stripped, is literal text (no dollar sign, no brace), a
    reference to a variable of the mapping, and literal text that does not
    go on with a word character.  Then [eval_lazy_data] returns: the value
    of the variable itself, of whatever type, when there is no text around
    the reference; otherwise the text with the [str] of the value in the
    place of the reference.  The cache is left as it is. *)
Theorem eval_lazy_data_single_reference (H : Host) (s pre name post : string)
    (value : Value) (variables_mapping : Variables)
    (functions_mapping : gmap string FnObj) (cache : Cache) :
  Str.strip s = (pre ++ "$" ++ name ++ post)%string ->
  literal_text pre = true -> literal_text post = true ->
  name <> "" -> Str.all_chars Str.is_word name = true ->
  Str.take_while Str.is_word post = "" ->
  variables_mapping !! name = Some value ->
  exists self,
    eval_lazy_data H (VStr s) variables_mapping functions_mapping cache
    = Ok (mkEvaluated
            (if String.eqb (pre ++ post) ""
             then value
             else VStr (pre ++ py_str H value ++ post))
            (VLazyString self) cache)
    /\ ls_raw_string self = Str.strip s
    /\ ls_string self = (pre ++ "{}" ++ post)%string
    /\ ls_args self = [SVar name].
Proof.
  intros S P Q N W E V.
  pose proof (SingleReference.reference_names pre name post P Q W N E)
    as Names.
  exists (mkLazyString (pre ++ "$" ++ name ++ post) functions_mapping
            (dom variables_mapping) false (pre ++ "{}" ++ post) [SVar name]).
  split; [ | split; [now rewrite S | split; reflexivity]].
  - unfold eval_lazy_data, prepare_lazy_data.
    cbn [prepare_lazy_data_fuel prepare_level].
    assert (X : is_variable_exist s = true).
    { apply (is_variable_exist_names s name).
      rewrite <- ScanFacts.variable_names_strip, S, Names. now left. }
    rewrite X. cbn [orb negb]. rewrite S.
    rewrite (SingleReference.reference_prepared pre name post P Q W N E H
               functions_mapping (dom variables_mapping) _ false).
    2:{ apply elem_of_dom. eauto. }
    cbn [bind parse_lazy_data]. unfold LazyString_to_value.
    cbn [ls_cached ls_args ls_string ls_raw_string ls_functions_mapping
           ls_check_variables_set LazyString_args LazyString_arg].
    unfold get_mapping_variable. rewrite V.
    cbn [bind ev_value ev_self ev_cache].
    destruct (String.eqb (pre ++ "{}" ++ post) "{}") eqn:B.
    { apply String.eqb_eq in B.
      destruct (SingleReference.reference_not_bare pre post P B) as [-> ->].
      reflexivity. }
    rewrite (SingleReference.reference_template pre post P Q H value).
    cbn [bind ev_value ev_self ev_cache].
    destruct (String.eqb (pre ++ post) "") eqn:Z; [ | reflexivity].
    apply String.eqb_eq in Z. exfalso.
    destruct pre; [ | discriminate Z].
    change ("" ++ post)%string with post in Z. subst post.
    discriminate B.
Qed.

Lemma eval_lazy_data_single_reference_witness :
  exists self,
    eval_lazy_data Demo.host (VStr " /users/$uid/posts ")
      {["uid" := VInt 7]} ∅ ∅
    = Ok (mkEvaluated (VStr "/users/7/posts") (VLazyString self) ∅)
    /\ ls_raw_string self = "/users/$uid/posts"
    /\ ls_string self = "/users/{}/posts"
    /\ ls_args self = [SVar "uid"].
Proof.
  apply (eval_lazy_data_single_reference Demo.host " /users/$uid/posts "
           "/users/" "uid" "/posts" (VInt 7) {["uid" := VInt 7]} ∅ ∅);
    reflexivity || discriminate.
Defined.

(** ** The resolver *)

Section Resolver.
Context (H : Host) (ignore : bool).

Lemma parse_variables_loop_keys (variables_mapping : list (string * Value))
    (fuel : nat) :
  NoDup (map fst variables_mapping) ->
  forall (parsed parsed' : Variables) (cache cache' : Cache),
    (forall n, is_Some (parsed !! n) -> In n (map fst variables_mapping)) ->
    parse_variables_loop fuel H ignore variables_mapping parsed cache
    = Some (Ok (parsed', cache')) ->
    dom parsed' = list_to_set (map fst variables_mapping).
Proof.
  intros D. induction fuel as [ | fuel IH];
    intros parsed parsed' cache cache' K E; [discriminate E | ].
  cbn [parse_variables_loop] in E.
  destruct (size parsed =? length variables_mapping)%nat eqn:Hs.
  - injection E as <- <-. apply Nat.eqb_eq in Hs.
    apply set_subseteq_size_eq.
    + intros x Hx. apply elem_of_dom in Hx.
      apply elem_of_list_to_set, list_elem_of_In. now apply K.
    + rewrite size_dom, size_list_to_set by exact D.
      rewrite length_map. lia.
  - destruct (variables_pass H ignore variables_mapping parsed cache)
      as [[p c] | e] eqn:Ep; [ | discriminate E].
    eapply IH; [ | exact E].
    intros m Hm. apply variables_pass_grows in Ep.
    destruct Ep as [A _]. destruct (A _ Hm); auto.
Qed.

Lemma any_not_parsed_false (variables : gset string) (parsed : Variables) :
  variables ⊆ dom parsed -> any_not_parsed variables parsed = false.
Proof.
  intros S. unfold any_not_parsed.
  destruct (existsb _ _) eqn:X; [ | reflexivity].
  apply existsb_exists in X. destruct X as (x & Hx & Fx).
  apply list_elem_of_In, elem_of_elements, S, elem_of_dom in Hx.
  apply negb_true_iff, bool_decide_eq_false in Fx. now destruct Fx.
Qed.

Lemma any_not_parsed_true (variables : gset string) (parsed : Variables)
    (u : string) :
  u ∈ variables -> parsed !! u = None ->
  nonempty (elements variables) && any_not_parsed variables parsed = true.
Proof.
  intros U N. apply andb_true_iff. split.
  - apply elem_of_elements in U.
    destruct (elements variables); [inversion U | reflexivity].
  - unfold any_not_parsed. apply existsb_exists. exists u. split.
    + now apply list_elem_of_In, elem_of_elements.
    + apply negb_true_iff, bool_decide_eq_false. rewrite N.
      intros [? X]. discriminate X.
Qed.

(** In dependency order a run of the loop body evaluates every entry. *)
Lemma variables_pass_in_order (l : list (string * Value)) :
  forall (seen : gset string) (parsed : Variables) (cache : Cache),
    dom parsed = seen -> defined_before seen l = true ->
    variables_pass H ignore l parsed cache
    = resolve_in_order H l parsed cache.
Proof.
  induction l as [ | [n v] t IH]; intros seen parsed cache Dm O;
    [reflexivity | ].
  cbn [defined_before] in O. apply andb_true_iff in O. destruct O as [O O3].
  apply andb_true_iff in O. destruct O as [O1 O2].
  apply bool_decide_eq_true in O1, O2. subst seen.
  cbn [variables_pass resolve_in_order].
  rewrite bool_decide_eq_false_2
    by (intros X; apply O1; now apply elem_of_dom).
  rewrite bool_decide_eq_false_2 by (intros X; apply O1; now apply O2).
  rewrite (any_not_parsed_false _ _ O2), andb_false_r.
  destruct (parse_lazy_data H v parsed cache) as [r | e]; cbn [bind];
    [ | reflexivity].
  apply (IH ({[n]} ∪ dom parsed)); [ | exact O3].
  now rewrite dom_insert_L.
Qed.

Lemma resolve_in_order_dom (l : list (string * Value)) :
  forall (parsed p : Variables) (cache c : Cache),
    resolve_in_order H l parsed cache = Ok (p, c) ->
    dom p = list_to_set (map fst l) ∪ dom parsed.
Proof.
  induction l as [ | [n v] t IH]; intros parsed p cache c E; cbn in E.
  - injection E as <- <-. cbn. now rewrite (left_id_L ∅ (∪)).
  - bind_inv E as r Er. apply IH in E. rewrite E, dom_insert_L.
    cbn [map fst list_to_set foldr].
    now rewrite (assoc_L (∪)), (comm_L (∪) (list_to_set (map fst t)) {[n]}).
Qed.

Lemma defined_before_NoDup (l : list (string * Value)) :
  forall seen : gset string,
    defined_before seen l = true ->
    NoDup (map fst l) /\ forall n, In n (map fst l) -> n ∉ seen.
Proof.
  induction l as [ | [n v] t IH]; intros seen O.
  - split; [constructor | intros n []].
  - cbn [defined_before] in O. apply andb_true_iff in O.
    destruct O as [O O3]. apply andb_true_iff in O. destruct O as [O1 O2].
    apply bool_decide_eq_true in O1.
    destruct (IH _ O3) as [A B]. cbn [map fst]. split.
    + apply NoDup_cons. split; [ | exact A].
      intros X. apply list_elem_of_In in X. apply (B _ X).
      now apply elem_of_union_l, elem_of_singleton.
    + intros m [<- | X]; [exact O1 | ].
      intros Y. apply (B _ X). now apply elem_of_union_r.
Qed.

Lemma parse_variables_mapping_one_pass
    (variables_mapping : list (string * Value)) (fuel : nat) (cache : Cache) :
  defined_before ∅ variables_mapping = true ->
  parse_variables_mapping (S (S fuel)) H variables_mapping ignore cache
  = Some (resolve_in_order H variables_mapping ∅ cache).
Proof.
  intros O. unfold parse_variables_mapping.
  destruct variables_mapping as [ | kv t] eqn:Vm; [reflexivity | ].
  rewrite <- Vm in *. cbn [parse_variables_loop].
  replace (size (∅ : Variables) =? length variables_mapping)%nat
    with false by (subst; reflexivity).
  rewrite (variables_pass_in_order variables_mapping ∅ ∅ cache)
    by (try exact O; apply dom_empty_L).
  destruct (resolve_in_order H variables_mapping ∅ cache) as [[p c] | e]
    eqn:R; [ | reflexivity].
  apply resolve_in_order_dom in R.
  destruct (defined_before_NoDup _ _ O) as [D _].
  replace (size p =? length variables_mapping)%nat with true; [reflexivity | ].
  symmetry. apply Nat.eqb_eq.
  rewrite <- size_dom, R, dom_empty_L, union_empty_r_L.
  rewrite size_list_to_set by exact D. now rewrite length_map.
Qed.

Lemma plain_no_variables (v : Value) :
  plain v = true -> extract_variables v = ∅.
Proof. destruct v; cbn; congruence. Qed.

Lemma plain_parse (v : Value) (parsed : Variables) (cache : Cache) :
  plain v = true ->
  parse_lazy_data H v parsed cache = Ok (mkEvaluated v v cache).
Proof. destruct v; cbn; congruence. Qed.

Lemma plain_defined_before (l : list (string * Value)) :
  Forall (fun kv => plain (snd kv) = true) l ->
  forall seen : gset string,
    NoDup (map fst l) -> (forall n, In n (map fst l) -> n ∉ seen) ->
    defined_before seen l = true.
Proof.
  induction 1 as [ | [n v] t P F IH]; intros seen D N; [reflexivity | ].
  cbn [map fst] in D. apply NoDup_cons in D. destruct D as [D1 D2].
  cbn [defined_before]. cbn in P. rewrite (plain_no_variables v P).
  rewrite bool_decide_eq_true_2 by (apply N; now left).
  rewrite bool_decide_eq_true_2 by set_solver. cbn [andb].
  apply IH; [exact D2 | ].
  intros m X. apply not_elem_of_union. split.
  - intros Y. apply elem_of_singleton in Y. subst m.
    apply D1. now apply list_elem_of_In.
  - apply N. now right.
Qed.

Lemma plain_resolve_in_order (l : list (string * Value)) :
  Forall (fun kv => plain (snd kv) = true) l ->
  NoDup (map fst l) ->
  forall (parsed : Variables) (cache : Cache),
    resolve_in_order H l parsed cache = Ok (list_to_map l ∪ parsed, cache).
Proof.
  induction 1 as [ | [n v] t P F IH]; intros D parsed cache.
  - cbn. now rewrite (left_id_L ∅ (∪)).
  - cbn [map fst] in D. apply NoDup_cons in D. destruct D as [D1 D2].
    cbn [resolve_in_order]. cbn in P. rewrite (plain_parse v parsed cache P).
    cbn [bind ev_value ev_cache]. rewrite (IH D2). cbn [list_to_map foldr].
    do 2 f_equal. cbn.
    rewrite <- insert_union_l. symmetry. apply insert_union_r.
    apply not_elem_of_list_to_map_1. exact D1.
Qed.

Section UndefinedReference.
Context (variables_mapping : list (string * Value)).
Context (name : string) (value : Value) (u : string).
Hypothesis distinct_keys : NoDup (map fst variables_mapping).
Hypothesis entry : In (name, value) variables_mapping.
Hypothesis reference : u ∈ extract_variables value.
Hypothesis undefined : ~ In u (map fst variables_mapping).
Hypothesis other : name ∉ extract_variables value.

Lemma entry_unique (l : list (string * Value)) :
  NoDup (map fst l) ->
  forall v v', In (name, v) l -> In (name, v') l -> v = v'.
Proof.
  induction l as [ | [n w] t IH]; intros D v v' I I'; [destruct I | ].
  cbn [map fst] in D. apply NoDup_cons in D. destruct D as [D1 D2].
  assert (X : forall x, In (name, x) t -> n <> name).
  { intros x Hx <-. apply D1, list_elem_of_In, in_map_iff.
    now exists (n, x). }
  destruct I as [I | I], I' as [I' | I'].
  - congruence.
  - injection I as -> _. now destruct (X _ I').
  - injection I' as -> _. now destruct (X _ I).
  - now apply IH.
Qed.

Lemma variables_pass_never_resolves (l : list (string * Value)) :
  forall (parsed p : Variables) (cache c : Cache),
    (forall v, In (name, v) l -> v = value) ->
    ~ In u (map fst l) ->
    parsed !! name = None -> parsed !! u = None ->
    variables_pass H ignore l parsed cache = Ok (p, c) ->
    p !! name = None /\ p !! u = None.
Proof.
  induction l as [ | [n v] t IH]; intros parsed p cache c V U Pn Pu E;
    cbn in E.
  - injection E as <- <-. now split.
  - assert (Vt : forall x, In (name, x) t -> x = value)
      by (intros x X; apply V; now right).
    assert (Ut : ~ In u (map fst t)) by (intros X; apply U; now right).
    assert (Un : n <> u) by (intros <-; apply U; now left).
    destruct (bool_decide (is_Some (parsed !! n)));
      [exact (IH _ _ _ _ Vt Ut Pn Pu E) | ].
    destruct (bool_decide (n ∈ extract_variables v)) eqn:S.
    { destruct ignore; [ | discriminate E].
      apply bool_decide_eq_true in S.
      refine (IH _ _ _ _ Vt Ut _ _ E).
      - destruct (decide (n = name)) as [-> | Hne].
        + assert (v = value) by (apply V; now left). subst v.
          now destruct other.
        + now rewrite lookup_insert_ne.
      - now rewrite lookup_insert_ne. }
    destruct (nonempty (elements (extract_variables v))
              && any_not_parsed (extract_variables v) parsed) eqn:A;
      [exact (IH _ _ _ _ Vt Ut Pn Pu E) | ].
    bind_inv E as r Er.
    refine (IH _ _ _ _ Vt Ut _ _ E).
    + destruct (decide (n = name)) as [-> | Hne].
      * assert (v = value) by (apply V; now left). subst v.
        rewrite (any_not_parsed_true _ _ u reference Pu) in A.
        discriminate A.
      * now rewrite lookup_insert_ne.
    + now rewrite lookup_insert_ne.
Qed.

Lemma parse_variables_loop_never_resolves (fuel : nat) :
  forall (parsed p : Variables) (cache c : Cache),
    (forall n, is_Some (parsed !! n) -> In n (map fst variables_mapping)) ->
    parsed !! name = None ->
    parse_variables_loop fuel H ignore variables_mapping parsed cache
    <> Some (Ok (p, c)).
Proof.
  induction fuel as [ | fuel IH]; intros parsed p cache c K Pn E;
    [discriminate E | ].
  assert (Pu : parsed !! u = None).
  { destruct (parsed !! u) eqn:X; [ | reflexivity].
    destruct undefined. apply K. rewrite X. eauto. }
  cbn [parse_variables_loop] in E.
  destruct (size parsed =? length variables_mapping)%nat eqn:Hs.
  - apply Nat.eqb_eq in Hs.
    assert (Hdom : dom parsed = list_to_set (map fst variables_mapping)).
    { apply set_subseteq_size_eq.
      - intros x Hx. apply elem_of_dom in Hx.
        apply elem_of_list_to_set, list_elem_of_In. now apply K.
      - rewrite size_dom, size_list_to_set by exact distinct_keys.
        rewrite length_map. lia. }
    assert (Hin : name ∈ dom parsed).
    { rewrite Hdom. apply elem_of_list_to_set, list_elem_of_In, in_map_iff.
      now exists (name, value). }
    apply elem_of_dom in Hin. rewrite Pn in Hin. now destruct Hin.
  - destruct (variables_pass H ignore variables_mapping parsed cache)
      as [[p' c'] | e] eqn:Ep; [ | discriminate E].
    refine (IH _ _ _ _ _ _ E).
    + intros m Hm. apply variables_pass_grows in Ep.
      destruct Ep as [A _]. destruct (A _ Hm); auto.
    + eapply (variables_pass_never_resolves variables_mapping);
        [ | exact undefined | exact Pn | exact Pu | exact Ep].
      intros v Hv.
      exact (entry_unique variables_mapping distinct_keys _ _ Hv entry).
Qed.
End UndefinedReference.
End Resolver.

(** X15.  When the resolver returns, it has a value for every variable of
    the mapping and for nothing else. *)
Theorem parse_variables_mapping_keys (H : Host)
    (variables_mapping : list (string * Value)) (ignore : bool) (fuel : nat)
    (cache cache' : Cache) (parsed : Variables) :
  NoDup (map fst variables_mapping) ->
  parse_variables_mapping fuel H variables_mapping ignore cache
  = Some (Ok (parsed, cache')) ->
  forall name,
    is_Some (parsed !! name) <-> In name (map fst variables_mapping).
Proof.
  intros D E name. unfold parse_variables_mapping in E.
  apply (parse_variables_loop_keys H ignore variables_mapping fuel D ∅
           parsed cache cache') in E.
  - rewrite <- elem_of_dom, E, elem_of_list_to_set. apply list_elem_of_In.
  - intros n [v Hv]. rewrite lookup_empty in Hv. discriminate.
Qed.

Lemma parse_variables_mapping_keys_witness :
  exists parsed cache',
    parse_variables_mapping 3 Demo.host
      [("b", lazy_var ∅ {["a"; "b"]} "a"); ("a", VInt 1)] false ∅
    = Some (Ok (parsed, cache'))
    /\ forall name,
         is_Some (parsed !! name) <-> In name ["b"; "a"].
Proof.
  do 2 eexists. split; [vm_compute; reflexivity | ].
  eapply (parse_variables_mapping_keys Demo.host
            [("b", lazy_var ∅ {["a"; "b"]} "a"); ("a", VInt 1)] false 3 ∅).
  - cbn. apply NoDup_cons. split; [ | apply NoDup_singleton].
    intros X. apply list_elem_of_singleton in X. discriminate X.
  - vm_compute. reflexivity.
Defined.

(** X16.  In dependency order one run of the loop is all it takes.  When
    the keys are distinct and every entry refers only to entries that come
    before it, the resolver evaluates the entries from left to right, each
    with the values of those before it, and returns after the first run of
    the loop body, with the result or with the first exception. *)
Theorem parse_variables_mapping_in_order (H : Host)
    (variables_mapping : list (string * Value)) (ignore : bool) (fuel : nat)
    (cache : Cache) :
  defined_before ∅ variables_mapping = true ->
  parse_variables_mapping (S (S fuel)) H variables_mapping ignore cache
  = Some (resolve_in_order H variables_mapping ∅ cache).
Proof. apply parse_variables_mapping_one_pass. Qed.

Lemma parse_variables_mapping_in_order_witness :
  parse_variables_mapping 2 Demo.host
    [("a", VInt 1); ("b", lazy_var ∅ {["a"; "b"]} "a")] false ∅
  = Some (Ok ({["a" := VInt 1; "b" := VInt 1]}, ∅)).
Proof.
  rewrite (parse_variables_mapping_in_order Demo.host
             [("a", VInt 1); ("b", lazy_var ∅ {["a"; "b"]} "a")] false 0 ∅)
    by (vm_compute; reflexivity).
  vm_compute. reflexivity.
Defined.

(** X17.  A mapping of values that are neither containers nor lazy, with
    distinct keys, is resolved to itself in one run of the loop, and the
    cache is not touched. *)
Theorem parse_variables_mapping_plain (H : Host)
    (variables_mapping : list (string * Value)) (ignore : bool) (fuel : nat)
    (cache : Cache) :
  NoDup (map fst variables_mapping) ->
  Forall (fun kv => plain (snd kv) = true) variables_mapping ->
  parse_variables_mapping (S (S fuel)) H variables_mapping ignore cache
  = Some (Ok (list_to_map variables_mapping, cache)).
Proof.
  intros D P.
  rewrite (parse_variables_mapping_one_pass H ignore variables_mapping fuel
             cache).
  - rewrite (plain_resolve_in_order H variables_mapping P D ∅ cache).
    now rewrite (right_id_L ∅ (∪)).
  - apply plain_defined_before; [exact P | exact D | ].
    intros n _. apply not_elem_of_empty.
Qed.

Lemma parse_variables_mapping_plain_witness :
  parse_variables_mapping 2 Demo.host
    [("host", VStr "example.org"); ("port", VInt 80)] true ∅
  = Some (Ok (list_to_map [("host", VStr "example.org"); ("port", VInt 80)],
              ∅)).
Proof.
  apply (parse_variables_mapping_plain Demo.host
           [("host", VStr "example.org"); ("port", VInt 80)] true 0 ∅).
  - cbn. apply NoDup_cons. split; [ | apply NoDup_singleton].
    intros X. apply list_elem_of_singleton in X. discriminate X.
  - repeat constructor.
Defined.

(** X18.  A reference to a name that is no key of the mapping is never
    resolved.  When an entry refers to such a name (and not to itself), the
    resolver does not return a result, however long it runs: each run of
    the loop body passes the entry over, and the loop goes on for ever
    unless an exception ends it. *)
Theorem parse_variables_mapping_undefined_reference (H : Host)
    (variables_mapping : list (string * Value)) (ignore : bool)
    (name : string) (value : Value) (reference : string) (fuel : nat)
    (cache cache' : Cache) (parsed : Variables) :
  NoDup (map fst variables_mapping) ->
  In (name, value) variables_mapping ->
  reference ∈ extract_variables value ->
  ~ In reference (map fst variables_mapping) ->
  name ∉ extract_variables value ->
  parse_variables_mapping fuel H variables_mapping ignore cache
  <> Some (Ok (parsed, cache')).
Proof.
  intros D I R U O. unfold parse_variables_mapping.
  apply (parse_variables_loop_never_resolves H ignore variables_mapping
           name value reference D I R U O).
  - intros n [v Hv]. rewrite lookup_empty in Hv. discriminate.
  - apply lookup_empty.
Qed.

Lemma parse_variables_mapping_undefined_reference_witness :
  parse_variables_mapping 5 Demo.host
    [("a", lazy_var ∅ {["a"; "b"]} "b")] false ∅ = None.
Proof.
  assert (R : regex_findall_variables "$b" = ["b"])
    by (vm_compute; reflexivity).
  destruct (parse_variables_mapping 5 Demo.host
              [("a", lazy_var ∅ {["a"; "b"]} "b")] false ∅)
    as [[[parsed cache'] | e] | ] eqn:E; [ | | reflexivity].
  - exfalso. revert E.
    apply (parse_variables_mapping_undefined_reference Demo.host
             [("a", lazy_var ∅ {["a"; "b"]} "b")] false "a"
             (lazy_var ∅ {["a"; "b"]} "b") "b" 5 ∅ cache' parsed).
    + cbn. apply NoDup_singleton.
    + now left.
    + unfold lazy_var. cbn [extract_variables ls_raw_string].
      change ("$" ++ "b")%string with "$b". rewrite R.
      apply elem_of_list_to_set, list_elem_of_singleton. reflexivity.
    + cbn. intros [X | []]. discriminate X.
    + unfold lazy_var. cbn [extract_variables ls_raw_string].
      change ("$" ++ "b")%string with "$b". rewrite R.
      intros X. apply elem_of_list_to_set, list_elem_of_singleton in X.
      discriminate X.
  - vm_compute in E. discriminate E.
Defined.

(** ** A string that is one call without arguments, from text to value *)

Module SingleCall.
Import Str StrFacts ScanFacts ReplaceFacts.

#[local] Arguments String.append !_ _ /.

Lemma length_app (a b : string) :
  String.length (a ++ b) = (String.length a + String.length b)%nat.
Proof. induction a as [ | c t IH]; cbn; [reflexivity | now rewrite IH]. Qed.

Lemma scan_function_skip (s : string) :
  forall k, (String.length s <= k)%nat -> Re.scan Re.match_function k s = [].
Proof.
  induction s as [ | c t IH]; intros k L.
  - destruct k; reflexivity.
  - destruct k as [ | k]; [cbn in L; lia | ].
    cbn [Re.scan]. apply IH. cbn in L. lia.
Qed.

Lemma find_self (s : string) : find s s = Some 0%nat.
Proof.
  pose proof (starts_with_app s "") as E. rewrite append_nil_r in E.
  destruct s; cbn [find]; [reflexivity | now rewrite E].
Qed.

Lemma replace_first_self (s new : string) : replace_first s s new = new.
Proof.
  pose proof (SingleReference.replace_first_here s new "") as E.
  now rewrite !append_nil_r in E.
Qed.

Section Call.
Context (name : string).
Hypothesis name_word : all_chars is_word name = true.
Hypothesis name_nonempty : name <> "".

Lemma call_match :
  Re.match_function ("${" ++ name ++ "()}")
  = Some ((name, ""), (String.length name + 0 + 5)%nat).
Proof.
  change ("${" ++ name ++ "()}")%string
    with (String "$" (String "{" (name ++ "()}"))).
  cbn [Re.match_function].
  destruct (take_while_all is_word name name_word) as [_ D].
  destruct (take_while_app_all is_word name "()}" D) as [X Y].
  rewrite X, Y. cbn [take_while drop_while].
  change (is_word "(") with false. cbn iota. rewrite append_nil_r.
  apply String.eqb_neq in name_nonempty. rewrite name_nonempty.
  reflexivity.
Qed.

Lemma call_found :
  regex_findall_functions ("${" ++ name ++ "()}") = [(name, "")].
Proof.
  unfold regex_findall_functions, Re.findall.
  assert (E : Re.scan Re.match_function 0 ("${" ++ name ++ "()}")
              = match Re.match_function ("${" ++ name ++ "()}") with
                | Some (a, len) =>
                    a :: Re.scan Re.match_function (Nat.pred len)
                           ("{" ++ name ++ "()}")
                | None => Re.scan Re.match_function 0 ("{" ++ name ++ "()}")
                end) by reflexivity.
  rewrite E, call_match. f_equal. apply scan_function_skip.
  change ("{" ++ name ++ "()}")%string with (String "{" (name ++ "()}")).
  cbn [String.length]. rewrite length_app. cbn. lia.
Qed.

Lemma call_prepared (H : Host) (fm : gmap string FnObj) (known : gset string)
    (rec : Value -> result Value) (cached : bool) (f : FnObj) :
  fm !! name = Some f ->
  fn_name f <> "load_csv_file" -> fn_name f <> "get_os_environ" ->
  LazyString_init H fm known rec ("${" ++ name ++ "()}") cached
  = Ok (VLazyString
          (mkLazyString ("${" ++ name ++ "()}") fm known cached "{}"
             [SFunc (mkLazyFunction fm known None f [] [])])).
Proof.
  intros F N1 N2. unfold LazyString_init. rewrite call_found.
  cbn [parse_functions fst snd ps_position ps_string ps_args_mapping].
  change ("${" ++ name ++ "(" ++ "" ++ ")}")%string
    with ("${" ++ name ++ "()}")%string.
  unfold index. cbn [Nat.leb drop]. rewrite find_self.
  cbn [option_map Nat.add]. rewrite replace_first_self.
  unfold parse_function_params. cbn [strip drop_while rstrip String.eqb bind].
  unfold LazyFunction_init, get_mapping_function. rewrite F.
  cbn [bind mapM map meta_args meta_kwargs].
  apply String.eqb_neq in N1, N2. rewrite N1, N2.
  cbn [bind args_mapping_set ps_string ps_args_mapping].
  replace (regex_findall_variables "{}") with (@nil string)
    by (vm_compute; reflexivity).
  cbn [parse_variables bind ps_string ps_args_mapping]. reflexivity.
Qed.
End Call.
End SingleCall.

(** X19.  A string that is one call without arguments, from text to
    value.  The string, stripped, is a call of a function of
    [functions_mapping] that is not one of the two reserved functions.
    Then [eval_lazy_data] calls the function once, without arguments, and
    returns what it returns, of whatever type, or raises what it raises;
    the result is stored in the cache under the name of the function and
    the [repr] of the empty arguments, although [cached] is false. *)
Theorem eval_lazy_data_single_call (H : Host) (s name : string) (f : FnObj)
    (variables_mapping : Variables) (functions_mapping : gmap string FnObj)
    (cache : Cache) :
  Str.strip s = ("${" ++ name ++ "()}")%string ->
  name <> "" -> Str.all_chars Str.is_word name = true ->
  functions_mapping !! name = Some f ->
  fn_name f <> "load_csv_file" -> fn_name f <> "get_os_environ" ->
  eval_lazy_data H (VStr s) variables_mapping functions_mapping cache
  = match call H f [] [] with
    | Ok value =>
        let key :=
          Some (fn_name f, py_repr H (VSeq KList []), py_repr H (VDict []))
        in
        Ok (mkEvaluated value
              (VLazyString
                 (mkLazyString (Str.strip s) functions_mapping
                    (dom variables_mapping) false "{}"
                    [SFunc (mkLazyFunction functions_mapping
                              (dom variables_mapping) key f [] [])]))
              (<[key := value]> cache))
    | Raise e => Raise e
    end.
Proof.
  intros S N W F N1 N2.
  unfold eval_lazy_data, prepare_lazy_data.
  cbn [prepare_lazy_data_fuel prepare_level].
  assert (X : is_function_exist s = true).
  { unfold is_function_exist, Re.search. fold (regex_findall_functions s).
    rewrite <- ScanFacts.regex_findall_functions_strip, S.
    now rewrite (SingleCall.call_found name W N). }
  rewrite X, orb_true_r. cbn [negb]. rewrite S.
  rewrite (SingleCall.call_prepared name W N H functions_mapping
             (dom variables_mapping) _ false f F N1 N2).
  cbn [bind parse_lazy_data]. unfold LazyString_to_value.
  cbn [ls_cached ls_args ls_string ls_raw_string ls_functions_mapping
         ls_check_variables_set LazyString_args LazyString_arg cache_hit].
  unfold LazyFunction_to_value.
  cbn [lf_args lf_kwargs lf_func lf_functions_mapping lf_check_variables_set
         parse_items parse_dict_items bind ev_value ev_self ev_cache keywords].
  destruct (call H f [] []) as [value | e]; reflexivity.
Qed.

Lemma eval_lazy_data_single_call_witness :
  exists self,
    eval_lazy_data Demo.host (VStr " ${one()}") ∅ Demo.functions ∅
    = Ok (mkEvaluated (VInt 1) self {[ Some ("one", "[]", "{}") := VInt 1 ]}).
Proof.
  eexists.
  rewrite (eval_lazy_data_single_call Demo.host " ${one()}" "one"
             Demo.one_fn ∅ Demo.functions ∅);
    try reflexivity; discriminate.
Defined.

(** X20.  The variable scan looks into the argument text of a function
    call: the names found in a string that starts with a call are those of
    its argument text, then those of what follows the call; the name of the
    function is not one of them. *)
Theorem regex_findall_variables_function_call (name args rest : string) :
  Str.all_chars Str.is_word name = true ->
  regex_findall_variables ("${" ++ name ++ "(" ++ args ++ ")}" ++ rest)
  = regex_findall_variables args ++ regex_findall_variables rest.
Proof.
  intros W. rewrite !ScanFacts.regex_findall_variables_names.
  now apply ReplaceFacts.variable_names_function.
Qed.

Lemma regex_findall_variables_function_call_witness :
  regex_findall_variables "${add($a, 1)}/$b" = ["a"; "b"].
Proof.
  change "${add($a, 1)}/$b"
    with ("${" ++ "add" ++ "(" ++ "$a, 1" ++ ")}" ++ "/$b")%string.
  rewrite (regex_findall_variables_function_call "add" "$a, 1" "/$b")
    by reflexivity.
  vm_compute. reflexivity.
Defined.

(** ** Sequences as [dict] keys *)

Lemma mapM_In {A B : Type} (f : A -> result B) (l : list A) (ys : list B)
    (x : A) :
  mapM f l = Ok ys -> In x l -> exists y, f x = Ok y.
Proof.
  revert ys. induction l as [ | a t IH]; intros ys E I; [destruct I | ].
  cbn in E. bind_inv E as y Ey. bind_inv E as r Er.
  destruct I as [<- | I]; [eauto | exact (IH _ eq_refl I)].
Qed.

Lemma parse_dict_items_In (H : Host) (vm : Variables)
    (items : list (Value * Value)) (kv : Value * Value) :
  In kv items ->
  forall parsed cache r,
    parse_dict_items H (parse_lazy_data H) vm items parsed cache = Ok r ->
    exists c k,
      parse_lazy_data H (fst kv) vm c = Ok k /\ hashable (ev_value k) = true.
Proof.
  induction items as [ | a t IH]; intros I parsed cache r E; [destruct I | ].
  cbn in E. bind_inv E as r1 E1. bind_inv E as r2 E2.
  destruct (hashable (ev_value r1)) eqn:Hh; [ | discriminate E].
  bind_inv E as r3 E3.
  destruct I as [<- | I]; [eauto | exact (IH I _ _ _ E3)].
Qed.

(** X21.  A [dict] with a tuple among its keys gets through neither
    [prepare_lazy_data] nor [parse_lazy_data]: both turn every sequence
    into a list, also a key, and a list cannot be a key.  Whenever the
    items are processed without another exception, the assignment to
    [parsed_content] raises [TypeError]; no result is ever returned. *)
Theorem sequence_key_never_returns (H : Host) (kind : SeqKind)
    (key_items : list Value) (value : Value) (items : list (Value * Value)) :
  In (VSeq kind key_items, value) items ->
  (forall functions_mapping check_variables_set cached prepared,
      prepare_lazy_data H (VDict items) functions_mapping check_variables_set
        cached <> Ok prepared)
  /\ (forall variables_mapping cache r,
         parse_lazy_data H (VDict items) variables_mapping cache <> Ok r).
Proof.
  intros I. split.
  - intros fm known cached prepared E.
    unfold prepare_lazy_data in E. cbn [prepare_lazy_data_fuel] in E.
    cbn [prepare_level] in E. bind_inv E as parsed Ep.
    destruct (mapM_In _ _ _ _ Ep I) as [y Ey]. cbn [fst snd] in Ey.
    cbn [prepare_level] in Ey. bind_inv Ey as k Ek. cbn [bind] in Ey.
    bind_inv Ey as v Ev. bind_inv Ek as ks Eks. injection Ek as <-.
    discriminate Ey.
  - intros vm cache r E. cbn [parse_lazy_data] in E. bind_inv E as x Ex.
    destruct (parse_dict_items_In H vm items _ I _ _ _ Ex)
      as (c & k & Ek & Hk).
    cbn [fst parse_lazy_data] in Ek. bind_inv Ek as y Ey.
    injection Ek as <-. discriminate Hk.
Qed.

Lemma sequence_key_never_returns_witness :
  prepare_lazy_data Demo.host
    (VDict [(VSeq KTuple [VInt 1; VInt 2], VStr "point")]) ∅ ∅ false
  = Raise (TypeError "unhashable type")
  /\ forall r,
       parse_lazy_data Demo.host
         (VDict [(VSeq KTuple [VInt 1; VInt 2], VStr "point")]) ∅ ∅ <> Ok r.
Proof.
  split; [vm_compute; reflexivity | ].
  apply (proj2 (sequence_key_never_returns Demo.host KTuple
                  [VInt 1; VInt 2] (VStr "point")
                  [(VSeq KTuple [VInt 1; VInt 2], VStr "point")]
                  (or_introl eq_refl))).
Defined.
